(** * Genetic algorithm for the travelling salesman problem

    A shallow embedding of [6-genetic_algo/tsp/travelling_salesman3.py]:
    the [Genome] class (fitness, the three mutations, the three
    crossovers, the solution), the [Population] class (the constructor,
    ranking, top-k selection and the generation step), the [City] and
    [Map] classes and [print_experiment_summary], followed by the
    properties of these operations. The plotting functions, the pickling
    of maps and the formatting of floats are left out.

    Conventions of the embedding.
    - A [City] object is immutable and has no [__eq__]: Python compares
      cities by identity, so a city is modelled by its reference.
    - A gene is a city or Python's [None] (the crossovers start from
      [[None] * n]), hence [option City].
    - A [Genome] object is mutable and shared between generations, so
      genomes live in an object store and are handled by reference.
    - Exceptions are results: a computation returns [Ok], [Raise]s a
      Python exception, or [Hang]s (the [while] loop of the cycle
      crossover does not end). A method also leaves a state behind,
      whichever way it ends.
    - The [random] module is an oracle: a tape of draws, each reduced
      into the range that the call asks for, so that every outcome the
      library can produce is produced by some tape.
    - Arithmetic is an interface ([Arith]) with two instances: IEEE 754
      binary64, which is what Python computes with, and the real numbers.
    - The crossovers are modelled on a stack that is deep enough for
      their calls; the recursion limit of the interpreter is modelled
      apart, for the one function that recurses
      ([get_gene_counterpart_frames]).
    - The file system is an oracle that tells which paths can be opened
      for writing. *)

From Stdlib Require Import ZArith PrimFloat.
From Stdlib Require Reals.
From Equations Require Import Equations.
From stdpp Require Import list strings sorting pretty.

Set Default Proof Using "Type".
Set Warnings "-clear-no-such-hyp".
Local Open Scope string_scope.
Local Open Scope list_scope.
Local Open Scope nat_scope.

(** ** Results and exceptions *)

Inductive exn : Type :=
| ValueError
| IndexError
| ZeroDivisionError
| AttributeError
| TypeError
| Exception (msg : string)
| RecursionError
| OSError
| DanglingReference.

Inductive result (A : Type) : Type :=
| Ok (a : A)
| Raise (e : exn)
| Hang.
Arguments Ok {A} a.
Arguments Raise {A} e.
Arguments Hang {A}.

#[export] Instance result_ret : MRet result := λ A a, Ok a.
#[export] Instance result_bind : MBind result := λ A B f r,
  match r with
  | Ok a => f a
  | Raise e => Raise e
  | Hang => Hang
  end.

(** [l[i]] for a non-negative index. *)
Definition getitem {A} (l : list A) (i : nat) : result A :=
  match l !! i with
  | Some x => Ok x
  | None => Raise IndexError
  end.

(** [l[i] = x] for a non-negative index. *)
Definition setitem {A} (l : list A) (i : nat) (x : A) : result (list A) :=
  if decide (i < length l) then Ok (<[i:=x]> l) else Raise IndexError.

(** [l[i:j]] for [0 <= i <= j]. *)
Definition py_slice {A} (l : list A) (i j : nat) : list A :=
  take (j - i) (drop i l).

(** [l[i:j] = new] for [0 <= i <= j]; the lengths need not agree. *)
Definition slice_assign {A} (l : list A) (i j : nat) (new : list A) : list A :=
  take i l ++ new ++ drop j l.

(** [l[start:]] for any integer [start]: a negative start counts from
    the end, and both kinds are clipped to the list. *)
Definition py_slice_from {A} (l : list A) (start : Z) : list A :=
  if (start <? 0)%Z
  then drop (Z.to_nat (Z.of_nat (length l) + start)) l
  else drop (Z.to_nat start) l.

(** [l[-1]]. *)
Definition py_last {A} (l : list A) : result A :=
  match last l with
  | Some x => Ok x
  | None => Raise IndexError
  end.

(** [l.index(x)]: the first position holding [x]. *)
Definition py_index {A} `{EqDecision A} (l : list A) (x : A) : result nat :=
  match list_find (λ y, y = x) l with
  | Some (i, _) => Ok i
  | None => Raise ValueError
  end.

(** [l.remove(x)] when [x] occurs: the first occurrence goes. *)
Fixpoint py_remove {A} `{EqDecision A} (x : A) (l : list A) : list A :=
  match l with
  | [] => []
  | y :: l' => if decide (y = x) then l' else y :: py_remove x l'
  end.

(** [points.sort()] on a list of two numbers. *)
Definition sort2 (p : nat * nat) : nat * nat :=
  (Nat.min p.1 p.2, Nat.max p.1 p.2).

(** ** Cities, genes and the object store *)

(** A city and a genome are references; the names below are read as
    the types they stand for. *)
Abbreviation City := nat (only parsing).
Abbreviation Gene := (option City) (only parsing).
Abbreviation Chromosome := (list Gene) (only parsing).
Abbreviation Genome := nat (only parsing).

(** The state of the run: the store of [Genome] objects (a genome is its
    [chromosome] attribute; no two genomes share a list) and the tape of
    the random number generator. *)
Record world : Type := World {
  genomes : list Chromosome;
  tape : list nat
}.

(** A method: it ends with a result and leaves a state, also when it
    raises. *)
Definition M (A : Type) : Type := world → result A * world.

#[export] Instance M_ret : MRet M := λ A a w, (Ok a, w).
#[export] Instance M_bind : MBind M := λ A B f m w,
  match m w with
  | (Ok a, w') => f a w'
  | (Raise e, w') => (Raise e, w')
  | (Hang, w') => (Hang, w')
  end.

Definition raise {A} (e : exn) : M A := λ w, (Raise e, w).

Definition lift {A} (r : result A) : M A := λ w, (r, w).

(** [g.chromosome]. *)
Definition get_chromosome (g : Genome) : M Chromosome := λ w,
  match genomes w !! g with
  | Some c => (Ok c, w)
  | None => (Raise DanglingReference, w)
  end.

(** [g.chromosome = c], and every in-place update of that list. *)
Definition set_chromosome (g : Genome) (c : Chromosome) : M unit := λ w,
  if decide (g < length (genomes w))
  then (Ok tt, World (<[g:=c]> (genomes w)) (tape w))
  else (Raise DanglingReference, w).

(** [Genome(c)]: a new object. *)
Definition new_Genome (c : Chromosome) : M Genome := λ w,
  (Ok (length (genomes w)), World (genomes w ++ [c]) (tape w)).

(** ** The random module *)

Definition draw : M nat := λ w,
  match tape w with
  | [] => (Ok 0, w)
  | d :: t => (Ok d, World (genomes w) t)
  end.

(** [random.randrange(n)]. *)
Definition randrange (n : nat) : M nat :=
  if decide (n = 0) then raise ValueError
  else d ← draw; mret (d mod n).

(** [random.sample(range(n), k=2)]: two distinct positions, in the order
    drawn. The second draw picks among the [n - 1] positions left. *)
Definition sample2 (n : nat) : M (nat * nat) :=
  if decide (n < 2) then raise ValueError
  else
    d1 ← draw;
    d2 ← draw;
    let i := d1 mod n in
    let j := d2 mod (n - 1) in
    mret (i, if decide (j < i) then j else S j).

(** [random.choices(population, k=k)]: [k] independent uniform picks. *)
Fixpoint choices_loop {A} (population : list A) (k : nat) : M (list A) :=
  match k with
  | 0 => mret []
  | S k' =>
      d ← draw;
      x ← lift (getitem population (d mod length population));
      xs ← choices_loop population k';
      mret (x :: xs)
  end.

Definition choices {A} (population : list A) (k : Z) : M (list A) :=
  choices_loop population (Z.to_nat k).

(** ** Genome: mutation *)

(** [c[i], c[j] = c[j], c[i]] for positions inside the list. *)
Definition swap_genes (c : Chromosome) (i j : nat) : Chromosome :=
  <[j := c !!! i]> (<[i := c !!! j]> c).

Definition swap_at (p1 p2 : nat) (c : Chromosome) : Chromosome :=
  swap_genes c p1 p2.

Definition inversion_at (p1 p2 : nat) (c : Chromosome) : Chromosome :=
  let genes := reverse (py_slice c p1 p2) in
  take p1 c ++ genes ++ drop p2 c.

Definition two_opt_at (p1 p2 : nat) (c : Chromosome) : Chromosome :=
  let edge1 := (p1, (p1 + 1) mod length c) in
  let edge2 := (p2, (p2 + 1) mod length c) in
  swap_genes c edge1.2 edge2.1.

Definition swap_mutation (self : Genome) : M unit :=
  c ← get_chromosome self;
  points ← sample2 (length c);
  set_chromosome self (swap_at points.1 points.2 c).

Definition inversion_mutation (self : Genome) : M unit :=
  c ← get_chromosome self;
  points ← sample2 (length c);
  let points := sort2 points in
  set_chromosome self (inversion_at points.1 points.2 c).

Definition two_opt_mutation (self : Genome) : M unit :=
  c ← get_chromosome self;
  points ← sample2 (length c);
  set_chromosome self (two_opt_at points.1 points.2 c).

Definition mutate (self : Genome) (type : string) : M unit :=
  if decide (type = "swap") then swap_mutation self
  else if decide (type = "inverse") then inversion_mutation self
  else if decide (type = "2-opt") then two_opt_mutation self
  else if decide (type = "random") then
    rand ← randrange 4;
    if decide (rand = 0) then swap_mutation self
    else if decide (rand = 1) then inversion_mutation self
    else if decide (rand = 2) then two_opt_mutation self
    else mret tt
  else raise (Exception "Invalid mutation type").

(** ** Genome: fitness *)

(** The numbers of the program: what [fitness += ...], [1 / fitness],
    [math.dist] and the comparisons made by [sorted] compute with. *)
Class Arith : Type := {
  num : Type;
  num_zero : num;
  num_add : num → num → num;
  (** [1 / x]; [None] stands for [ZeroDivisionError]. *)
  num_inv : num → option num;
  num_lt : num → num → bool;
  (** [math.dist] on two positions. *)
  math_dist : num * num → num * num → num
}.

(** IEEE 754 binary64, the [float] of Python. [math.dist] is taken to
    be the rounded square root of the rounded sum of the squared
    differences. CPython computes the norm with extra precision, and
    its result can differ from this one in the last bit when the sum of
    the squares is not exact. The instance is evaluated only at small
    integer coordinates, where the sum is exact and the two agree. *)
Definition float_arith : Arith := {|
  num := float;
  num_zero := 0%float;
  num_add := PrimFloat.add;
  num_inv := λ x, if PrimFloat.eqb x 0%float then None else Some (1 / x)%float;
  num_lt := PrimFloat.ltb;
  math_dist := λ p q,
    let dx := (p.1 - q.1)%float in
    let dy := (p.2 - q.2)%float in
    PrimFloat.sqrt (dx * dx + dy * dy)%float
|}.

(** The real numbers: the arithmetic that the floating-point program
    approximates. *)
Module RealNumbers.
Import Stdlib.Reals.Reals.

Definition real_arith : Arith :=
  Build_Arith
    R
    0%R
    Rplus
    (λ x, if Req_dec_T x 0%R then None else Some (/ x)%R)
    (λ x y, if Rlt_dec x y then true else false)
    (λ p q,
       let dx := (p.1 - q.1)%R in
       let dy := (p.2 - q.2)%R in
       sqrt (dx * dx + dy * dy)%R).

End RealNumbers.

Section Fitness.
Context {AR : Arith}.
(** [city.position], for the cities of the map. *)
Variable position : City → num * num.

(** [distance(city1, city2)]; [None] has no [position]. *)
Definition distance (city1 city2 : Gene) : result num :=
  match city1, city2 with
  | Some a, Some b => Ok (math_dist (position a) (position b))
  | _, _ => Raise AttributeError
  end.

(** The body of the [for i in range(len(self.chromosome))] loop. *)
Fixpoint tour_loop (c : Chromosome) (indices : list nat) (fitness : num)
  : result num :=
  match indices with
  | [] => Ok fitness
  | i :: rest =>
      city1 ← getitem c i;
      city2 ← getitem c ((i + 1) mod length c);
      d ← distance city1 city2;
      tour_loop c rest (num_add fitness d)
  end.

Definition tour_length (c : Chromosome) : result num :=
  tour_loop c (seq 0 (length c)) num_zero.

Definition get_fitness (c : Chromosome) : result num :=
  fitness ← tour_length c;
  match num_inv fitness with
  | Some f => Ok f
  | None => Raise ZeroDivisionError
  end.

End Fitness.

(** ** Genome: crossover *)

(** *** Order crossover *)

(** [swapped_parent_x]: the parent read from [point2] on, wrapping. *)
Definition swapped_parent (parent_x : Chromosome) (point2 : nat) : Chromosome :=
  (λ i, parent_x !!! (i mod length parent_x)) <$> seq point2 (length parent_x).

(** The second loop of [orderly_insert], with [p] the write position. *)
Fixpoint orderly_loop (genes : list Gene) (child_x : Chromosome) (p : nat)
  : result Chromosome :=
  match genes with
  | [] => Ok child_x
  | gene :: rest =>
      if decide (gene ∈ child_x) then orderly_loop rest child_x p
      else if decide (length child_x = 0) then Raise ZeroDivisionError
      else orderly_loop rest (<[p mod length child_x := gene]> child_x) (S p)
  end.

Definition orderly_insert (parent_x child_x : Chromosome) (point2 : nat)
  : result Chromosome :=
  orderly_loop (swapped_parent parent_x point2) child_x point2.

Definition order_crossover_at (p1 p2 : nat) (parent1 parent2 : Chromosome)
  : result (Chromosome * Chromosome) :=
  let child1_chromosome := replicate (length parent1) None in
  let child2_chromosome := replicate (length parent2) None in
  let child1_chromosome :=
    slice_assign child1_chromosome p1 p2 (py_slice parent2 p1 p2) in
  let child2_chromosome :=
    slice_assign child2_chromosome p1 p2 (py_slice parent1 p1 p2) in
  child1_chromosome ← orderly_insert parent1 child1_chromosome p2;
  child2_chromosome ← orderly_insert parent2 child2_chromosome p2;
  mret (child1_chromosome, child2_chromosome).

(** *** Partially-mapped crossover *)

(** [gene in mapped_values]. *)
Definition in_pair (gene : Gene) (mapped_values : Gene * Gene) : Prop :=
  gene = mapped_values.1 ∨ gene = mapped_values.2.

#[export] Instance in_pair_dec g mv : Decision (in_pair g mv).
Proof. unfold in_pair. apply _. Defined.

(** The first pair of [mappings] that holds [gene], as the [for] loop of
    [get_gene_counterpart] finds it. *)
Definition first_mapping (gene : Gene) (mappings : list (Gene * Gene))
  : option (Gene * Gene) :=
  snd <$> list_find (in_pair gene) mappings.

(** [mapped_values[0] if mapped_values[0] is not gene else mapped_values[1]]. *)
Definition other_gene (gene : Gene) (mapped_values : Gene * Gene) : Gene :=
  if decide (mapped_values.1 ≠ gene) then mapped_values.1 else mapped_values.2.

Lemma first_mapping_elem g ms mv : first_mapping g ms = Some mv → mv ∈ ms.
Proof.
  unfold first_mapping. destruct (list_find _ ms) as [[i x]|] eqn:E; [|done].
  simpl. intros [= <-]. apply list_find_Some in E as (E & _ & _).
  by eapply list_elem_of_lookup_2.
Qed.

Lemma py_remove_length {A} `{EqDecision A} (x : A) (l : list A) :
  x ∈ l → S (length (py_remove x l)) = length l.
Proof.
  induction l as [|y l IH]; [by intros ?%elem_of_nil|].
  intros Hx. simpl. destruct (decide (y = x)) as [->|Hne]; [done|].
  simpl. f_equal. apply IH. apply elem_of_cons in Hx as [->|]; done.
Qed.

(** A value together with the fact that it is the value of [x]. *)
Definition inspect {A : Type} (x : A) : {y : A | x = y} := exist _ x eq_refl.

(** [get_gene_counterpart] as the interpreter computes it when its
    stack is deep enough for the nested calls. The calls are counted,
    and the recursion limit is taken into account, by
    [get_gene_counterpart_frames] below. *)
Equations? get_gene_counterpart (gene : Gene) (mappings : list (Gene * Gene))
  : Gene by wf (length mappings) lt :=
  get_gene_counterpart gene mappings with inspect (first_mapping gene mappings) := {
    | exist _ (Some mapped_values) found :=
        get_gene_counterpart (other_gene gene mapped_values)
                             (py_remove mapped_values mappings)
    | exist _ None _ := gene }.
Proof.
  apply first_mapping_elem in found. apply py_remove_length in found. lia.
Qed.

(** [fill_chromosome] of the partially-mapped crossover, over the
    positions [indices] still to visit. *)
Fixpoint pmx_fill_loop (p1 p2 : nat) (mappings : list (Gene * Gene))
    (parent_x : Chromosome) (indices : list nat) (chromosome : Chromosome)
  : result Chromosome :=
  match indices with
  | [] => Ok chromosome
  | i :: rest =>
      if decide (i < p1 ∨ p2 ≤ i) then
        gene ← getitem parent_x i;
        chromosome ←
          setitem chromosome i
            (if decide (gene ∈ chromosome)
             then get_gene_counterpart gene mappings
             else gene);
        pmx_fill_loop p1 p2 mappings parent_x rest chromosome
      else pmx_fill_loop p1 p2 mappings parent_x rest chromosome
  end.

Definition pmx_fill (p1 p2 : nat) (mappings : list (Gene * Gene))
    (chromosome parent_x : Chromosome) : result Chromosome :=
  pmx_fill_loop p1 p2 mappings parent_x (seq 0 (length parent_x)) chromosome.

Definition partially_mapped_crossover_at (p1 p2 : nat)
    (parent1 parent2 : Chromosome) : result (Chromosome * Chromosome) :=
  let parent1_segment := py_slice parent1 p1 p2 in
  let parent2_segment := py_slice parent2 p1 p2 in
  let mappings := zip parent1_segment parent2_segment in
  let child1_x := replicate (length parent1) None in
  let child2_x := replicate (length parent1) None in
  let child1_x := slice_assign child1_x p1 p2 parent2_segment in
  let child2_x := slice_assign child2_x p1 p2 parent1_segment in
  child1_x ← pmx_fill p1 p2 mappings child1_x parent1;
  child2_x ← pmx_fill p1 p2 mappings child2_x parent2;
  mret (child1_x, child2_x).

(** *** Cycle crossover *)

(** The [while not cycled] loop; [fuel] bounds the number of rounds. *)
Fixpoint cycle_loop (fuel : nat) (parent1 parent2 : Chromosome)
    (parent1_first_gene : Gene) (index : nat) (parent1_gene : Gene)
    (child1_x child2_x : Chromosome) : result (Chromosome * Chromosome) :=
  match fuel with
  | 0 => Hang
  | S fuel' =>
      parent2_gene ← getitem parent2 index;
      child1_x ← setitem child1_x index parent1_gene;
      child2_x ← setitem child2_x index parent2_gene;
      index ← py_index parent2 parent1_gene;
      parent1_gene ← getitem parent1 index;
      if decide (parent1_gene = parent1_first_gene)
      then Ok (child1_x, child2_x)
      else cycle_loop fuel' parent1 parent2 parent1_first_gene
                      index parent1_gene child1_x child2_x
  end.

(** [fill_chromosome] of the cycle crossover, over the positions
    [indices] still to visit. *)
Fixpoint cx_fill_loop (parent_x : Chromosome) (indices : list nat)
    (chromosome : Chromosome) : result Chromosome :=
  match indices with
  | [] => Ok chromosome
  | i :: rest =>
      gene ← getitem chromosome i;
      match gene with
      | None =>
          g ← getitem parent_x i;
          chromosome ← setitem chromosome i g;
          cx_fill_loop parent_x rest chromosome
      | Some _ => cx_fill_loop parent_x rest chromosome
      end
  end.

Definition cx_fill (chromosome parent_x : Chromosome) : result Chromosome :=
  cx_fill_loop parent_x (seq 0 (length chromosome)) chromosome.

Definition cycle_crossover_at (parent1 parent2 : Chromosome)
  : result (Chromosome * Chromosome) :=
  let index := 0 in
  let child1_x := replicate (length parent1) None in
  let child2_x := replicate (length parent1) None in
  parent1_first_gene ← getitem parent1 index;
  children ←
    cycle_loop (length parent1) parent1 parent2 parent1_first_gene
               index parent1_first_gene child1_x child2_x;
  child1_x ← cx_fill children.1 parent2;
  child2_x ← cx_fill children.2 parent1;
  mret (child1_x, child2_x).

(** *** The crossovers as methods *)

Definition order_crossover (parent1 parent2 : Genome) : M (Genome * Genome) :=
  c1 ← get_chromosome parent1;
  c2 ← get_chromosome parent2;
  points ← sample2 (length c1);
  let points := sort2 points in
  children ← lift (order_crossover_at points.1 points.2 c1 c2);
  child1 ← new_Genome children.1;
  child2 ← new_Genome children.2;
  mret (child1, child2).

Definition partially_mapped_crossover (parent1 parent2 : Genome)
  : M (Genome * Genome) :=
  c1 ← get_chromosome parent1;
  c2 ← get_chromosome parent2;
  points ← sample2 (length c1);
  let points := sort2 points in
  children ← lift (partially_mapped_crossover_at points.1 points.2 c1 c2);
  child1 ← new_Genome children.1;
  child2 ← new_Genome children.2;
  mret (child1, child2).

Definition cycle_crossover (parent1 parent2 : Genome) : M (Genome * Genome) :=
  c1 ← get_chromosome parent1;
  c2 ← get_chromosome parent2;
  children ← lift (cycle_crossover_at c1 c2);
  child1 ← new_Genome children.1;
  child2 ← new_Genome children.2;
  mret (child1, child2).

(** [Genome.crossover]. The [if]/[elif] chain has no [else]: for any
    other [c_type] the method falls off its end and returns [None]. *)
Definition crossover (parent1 parent2 : Genome) (c_type : string)
  : M (option (Genome * Genome)) :=
  if decide (c_type = "ox") then
    children ← order_crossover parent1 parent2; mret (Some children)
  else if decide (c_type = "pmx") then
    children ← partially_mapped_crossover parent1 parent2; mret (Some children)
  else if decide (c_type = "cx") then
    children ← cycle_crossover parent1 parent2; mret (Some children)
  else mret None.

(** ** Population *)

(** The module-level variables read by [generate_next_generation]. *)
Class Globals : Type := {
  ELITISM : Z;
  TOP_K : Z
}.

(** Their values in the source: [ELITISM = 10], and [TOP_K =
    POPULATION // 4] with [POPULATION = 100]. *)
Definition source_globals : Globals := {|
  ELITISM := 10;
  TOP_K := 100 / 4
|}.

(** A [Population] object: [size] and [members] (the [map] attribute is
    read by [__initialize] only). The object is passed explicitly:
    [generate_next_generation] assigns [self.members] once, at its end. *)
Record Population : Type := {
  size : Z;
  members : list Genome
}.

(** [range(0, n, 2)]. *)
Definition range_step2 (n : Z) : list nat :=
  (λ k, 2 * k) <$> seq 0 (Z.to_nat ((n + 1) / 2)).

Section Population.
Context {AR : Arith} {GL : Globals}.
Variable position : City → num * num.

(** [sorted(..., key=key)] computes the key of every member first. *)
Fixpoint with_keys (l : list Genome) : M (list (num * Genome)) :=
  match l with
  | [] => mret []
  | x :: l' =>
      c ← get_chromosome x;
      k ← lift (get_fitness position c);
      rest ← with_keys l';
      mret ((k, x) :: rest)
  end.

(** [sorted] is stable and compares keys with [<] only: an element is
    put behind those with a strictly smaller key, and before its equals
    that came later in the input. *)
Fixpoint insert_by_key (x : num * Genome) (sorted : list (num * Genome))
  : list (num * Genome) :=
  match sorted with
  | [] => [x]
  | y :: rest =>
      if num_lt y.1 x.1 then y :: insert_by_key x rest else x :: y :: rest
  end.

Definition sort_by_key (l : list (num * Genome)) : list (num * Genome) :=
  foldr insert_by_key [] l.

Definition sort_members (self : Population) : M (list Genome) :=
  keyed ← with_keys (members self);
  mret (snd <$> sort_by_key keyed).

Definition top_k_selection (self : Population) (n k : Z) : M (list Genome) :=
  members ← sort_members self;
  let top_k := py_slice_from members (- k) in
  choices top_k n.

(** The [for i in range(0, parents_n, 2)] loop. Unpacking the [None]
    that [crossover] returns for an unknown kind is a [TypeError]. *)
Fixpoint breed (parents : list Genome) (indices : list nat)
    (c_type m_type : string) (next_gen_members : list Genome)
  : M (list Genome) :=
  match indices with
  | [] => mret next_gen_members
  | i :: rest =>
      parent1 ← lift (getitem parents i);
      parent2 ← lift (getitem parents (i + 1));
      children ← crossover parent1 parent2 c_type;
      match children with
      | None => raise TypeError
      | Some (child1, child2) =>
          _ ← mutate child1 m_type;
          _ ← mutate child2 m_type;
          breed parents rest c_type m_type (next_gen_members ++ [child1; child2])
      end
  end.

Definition generate_next_generation (self : Population)
    (c_type m_type : string) : M (Genome * Population) :=
  let next_gen_members := [] in
  let parents_n := (size self - ELITISM)%Z in
  parents ← top_k_selection self parents_n TOP_K;
  next_gen_members ←
    breed parents (range_step2 parents_n) c_type m_type next_gen_members;
  sorted_members ← sort_members self;
  let next_gen_members :=
    next_gen_members ++ py_slice_from sorted_members (- ELITISM) in
  best ← lift (py_last sorted_members);
  mret (best, {| size := size self; members := next_gen_members |}).

End Population.

(** ** Notions used by the statements *)

(** The chromosome that visits [cities] in the order given. *)
Definition chromosome_of (cities : list City) : Chromosome := Some <$> cities.

(** The three mutation methods have one shape: read the chromosome,
    sample two positions, write the chromosome back. *)
Definition mutation_method (f : nat * nat → Chromosome → Chromosome)
    (self : Genome) : M unit :=
  c ← get_chromosome self;
  points ← sample2 (length c);
  set_chromosome self (f points c).

(** What a run of [mutate] does to the store: the genome it is called on
    gets a rearrangement of its chromosome, and nothing else changes. *)
Definition rearranges (self : Genome) (w w' : world) : Prop :=
  ∃ c c', genomes w !! self = Some c ∧ c' ≡ₚ c ∧
          genomes w' = <[self := c']> (genomes w).

(** ** The recursion limit of the interpreter

    Each call of a Python function takes a frame of the interpreter's
    stack, and [get_gene_counterpart] calls itself once for every pair
    that it consumes. CPython raises [RecursionError] on the call that
    would make the stack deeper than [sys.getrecursionlimit()], which is
    1000 unless the program changes it, and this program does not. In
    the definitions below [frames] is the number of frames that are
    still free while [fill_chromosome] runs: the recursion limit less
    the depth of the stack at that point, hence less than 1000 in the
    program as it is. *)

(** [get_gene_counterpart(gene, mappings)] called with [frames] free
    frames: the call takes one of them. *)
Fixpoint get_gene_counterpart_frames (frames : nat) (gene : Gene)
    (mappings : list (Gene * Gene)) : result Gene :=
  match frames with
  | 0 => Raise RecursionError
  | S frames =>
      match first_mapping gene mappings with
      | Some mapped_values =>
          get_gene_counterpart_frames frames (other_gene gene mapped_values)
                                      (py_remove mapped_values mappings)
      | None => Ok gene
      end
  end.

(** [fill_chromosome] with [frames] free frames. *)
Fixpoint pmx_fill_loop_frames (frames p1 p2 : nat)
    (mappings : list (Gene * Gene)) (parent_x : Chromosome)
    (indices : list nat) (chromosome : Chromosome) : result Chromosome :=
  match indices with
  | [] => Ok chromosome
  | i :: rest =>
      if decide (i < p1 ∨ p2 ≤ i) then
        gene ← getitem parent_x i;
        value ← (if decide (gene ∈ chromosome)
                 then get_gene_counterpart_frames frames gene mappings
                 else Ok gene);
        chromosome ← setitem chromosome i value;
        pmx_fill_loop_frames frames p1 p2 mappings parent_x rest chromosome
      else pmx_fill_loop_frames frames p1 p2 mappings parent_x rest chromosome
  end.

Definition pmx_fill_frames (frames p1 p2 : nat) (mappings : list (Gene * Gene))
    (chromosome parent_x : Chromosome) : result Chromosome :=
  pmx_fill_loop_frames frames p1 p2 mappings parent_x
    (seq 0 (length parent_x)) chromosome.

(** The partially-mapped crossover with [frames] free frames in
    [fill_chromosome]. *)
Definition partially_mapped_crossover_at_frames (frames p1 p2 : nat)
    (parent1 parent2 : Chromosome) : result (Chromosome * Chromosome) :=
  let parent1_segment := py_slice parent1 p1 p2 in
  let parent2_segment := py_slice parent2 p1 p2 in
  let mappings := zip parent1_segment parent2_segment in
  let child1_x := replicate (length parent1) None in
  let child2_x := replicate (length parent1) None in
  let child1_x := slice_assign child1_x p1 p2 parent2_segment in
  let child2_x := slice_assign child2_x p1 p2 parent1_segment in
  child1_x ← pmx_fill_frames frames p1 p2 mappings child1_x parent1;
  child2_x ← pmx_fill_frames frames p1 p2 mappings child2_x parent2;
  mret (child1_x, child2_x).

(** The mapping pairs (0, 1), (1, 2), ..., ([k] - 1, [k]). *)
Definition chain (k : nat) : list (Gene * Gene) :=
  zip (Some <$> seq 0 k) (Some <$> seq 1 k).

(** Two tours whose mapping pairs are [chain m]: the cities [0 .. m] in
    order, and the same tour started at city 1, cut at 0 and [m]. *)
Definition chain_parent1 (m : nat) : Chromosome := chromosome_of (seq 0 (S m)).
Definition chain_parent2 (m : nat) : Chromosome := chromosome_of (seq 1 m ++ [0]).

(** The pairs of a mapping list read backwards from a resolved gene:
    [resolves_back ms r g] when [r] is [g], or [r] is paired with some
    [x] and [x] resolves back to [g]. *)
Inductive resolves_back (mappings : list (Gene * Gene)) : Gene → Gene → Prop :=
| resolves_back_refl r : resolves_back mappings r r
| resolves_back_step r x g :
    (r, x) ∈ mappings → resolves_back mappings x g → resolves_back mappings r g.

(** The gene that [fill_chromosome] of the partially-mapped crossover
    writes for the parent's gene [g], given the other parent's segment. *)
Definition pmx_gene (mappings : list (Gene * Gene)) (segment : list Gene)
    (g : Gene) : Gene :=
  if decide (g ∈ segment) then get_gene_counterpart g mappings else g.

(** The child of the partially-mapped crossover while [fill_chromosome]
    has visited the positions below [i], read at position [j]. *)
Definition pmx_state (p1 p2 : nat) (parent_x other : Chromosome)
    (mappings : list (Gene * Gene)) (i j : nat) : Gene :=
  if decide (p1 ≤ j < p2) then other !!! j
  else if decide (j < i)
       then pmx_gene mappings (py_slice other p1 p2) (parent_x !!! j)
       else None.

(** One step of the cycle crossover's walk: the gene of [parent1] at
    position [x] stands at position [y] in [parent2]. *)
Definition follows (parent1 parent2 : Chromosome) (x y : nat) : Prop :=
  ∃ g, parent1 !! x = Some g ∧ parent2 !! y = Some g.

(** The walk of the cycle crossover: [walk p1 p2 path index] when the
    loop, started at position 0, has visited [path] and stands at
    [index]. *)
Inductive walk (parent1 parent2 : Chromosome) : list nat → nat → Prop :=
| walk_start : walk parent1 parent2 [] 0
| walk_next path index index' :
    walk parent1 parent2 path index →
    follows parent1 parent2 index index' →
    walk parent1 parent2 (path ++ [index]) index'.

(** A child of the cycle crossover after the walk over the positions
    [visited], read at position [j]: the parent's gene on the walk,
    [None] elsewhere. *)
Definition visited_state (visited : list nat) (parent_x : Chromosome)
    (j : nat) : Gene :=
  if decide (j ∈ visited) then parent_x !!! j else None.

(** The children of a crossover are new objects, stored after the
    genomes that exist; no existing genome changes. *)
Definition allocates (child1 child2 : Genome) (d1 d2 : Chromosome)
    (w w' : world) : Prop :=
  child1 = length (genomes w) ∧ child2 = S (length (genomes w)) ∧
  genomes w' = genomes w ++ [d1; d2].

Section Ranking.
Context {AR : Arith}.

(** [x] does not rank above [y]: the key of [y] is not smaller. *)
Definition not_above (x y : num * Genome) : Prop := num_lt y.1 x.1 = false.

(** A ranking by ascending key: nothing ranks above what comes later. *)
Definition ascending (l : list (num * Genome)) : Prop :=
  ∀ i j x y, i < j → l !! i = Some x → l !! j = Some y → not_above x y.

(** The comparison [<] orders the keys [ks]: it is asymmetric on them,
    and "not smaller than" is transitive on them, as it is for floats
    that are numbers. The check is a computation. *)
Definition keys_ordered (ks : list num) : bool :=
  forallb (λ a,
    forallb (λ b,
      implb (num_lt a b) (negb (num_lt b a)) &&
      forallb (λ c,
        implb (negb (num_lt b a) && negb (num_lt c b)) (negb (num_lt c a)))
        ks)
      ks)
    ks.

End Ranking.

(** ** An example run *)

(** Four cities at integer coordinates. *)
Definition example_position (c : City) : float * float :=
  nth c [(0, 0); (1, 1); (3, 2); (0, 5)]%float (0, 0)%float.

(** Twelve genomes: the genomes 3 and 7 hold the tour [[0; 1; 3; 2]],
    the others the longer tour [[0; 2; 1; 3]]. The tape of draws: two for
    the selection (the ranks 10 and 11, the two fittest), two for the cut
    points, two for each mutation. *)
Definition example_world : world :=
  World ((λ g, if decide (g = 3 ∨ g = 7)
               then chromosome_of [0; 1; 3; 2]
               else chromosome_of [0; 2; 1; 3]) <$> seq 0 12)
        [10; 11; 0; 1; 2; 2; 2; 2].

Definition example_population : Population :=
  {| size := 12; members := seq 0 12 |}.

(** The genome [g] holds a tour of [cities]: each city exactly once
    (for [cities] without duplicates). *)
Definition holds_tour (cities : list City) (w : world) (g : Genome) : Prop :=
  ∃ c, genomes w !! g = Some c ∧ c ≡ₚ chromosome_of cities.

(** ** The tour as a list of edges *)

Section Edges.
Context {AR : Arith}.
Variable position : City → num * num.

(** The edges of the cyclic tour, in the order in which [get_fitness]
    adds their lengths: each gene with its successor, wrapping. *)
Definition edges (c : Chromosome) : list (Gene * Gene) :=
  (λ i, (c !!! i, c !!! ((i + 1) mod length c))) <$> seq 0 (length c).

(** The length of an edge between two cities. *)
Definition edge_length (e : Gene * Gene) : option num :=
  match e with
  | (Some a, Some b) => Some (math_dist (position a) (position b))
  | _ => None
  end.

End Edges.

(** Three cities at integer coordinates, in the real plane. *)
Definition real_position (c : City) : Rdefinitions.R * Rdefinitions.R :=
  nth c [(Rdefinitions.IZR 0, Rdefinitions.IZR 0);
         (Rdefinitions.IZR 0, Rdefinitions.IZR 3);
         (Rdefinitions.IZR 4, Rdefinitions.IZR 0)]
      (Rdefinitions.IZR 0, Rdefinitions.IZR 0).

(** Two parents over five cities, and the draws 1 and 2: the cut points
    1 and 3. *)
Definition example_parents : world :=
  World [chromosome_of [0; 1; 2; 3; 4]; chromosome_of [2; 4; 0; 1; 3]] [1; 2].

(** Two parents that hold the same tour. *)
Definition example_twins : world :=
  World [chromosome_of [0; 1; 2; 3; 4]; chromosome_of [0; 1; 2; 3; 4]] [1; 2].

(** ** Sampling without replacement *)

(** [random.sample(population, k)]: [k] elements at distinct positions,
    in the order drawn; each draw picks among the elements left. *)
Fixpoint sample_loop {A} (pool : list A) (k : nat) : M (list A) :=
  match k with
  | 0 => mret []
  | S k' =>
      d ← draw;
      let j := d mod length pool in
      x ← lift (getitem pool j);
      rest ← sample_loop (delete j pool) k';
      mret (x :: rest)
  end.

Definition sample {A} (population : list A) (k : Z) : M (list A) :=
  if decide (0 ≤ k ≤ Z.of_nat (length population))%Z
  then sample_loop population (Z.to_nat k)
  else raise ValueError.

(** ** Population: the constructor *)

(** The [for i in range(self.size)] loop of [__initialize]; [cities] and
    [cities_n] are [self.map.cities] and [self.map.cities_n]. *)
Fixpoint initialize_loop (cities : list City) (cities_n : Z) (count : nat)
    (members : list Genome) : M (list Genome) :=
  match count with
  | 0 => mret members
  | S count' =>
      chromosome ← sample cities cities_n;
      genome ← new_Genome (Some <$> chromosome);
      initialize_loop cities cities_n count' (members ++ [genome])
  end.

(** [Population(size, map)]. *)
Definition Population_init (size : Z) (cities : list City) (cities_n : Z)
  : M Population :=
  members ← initialize_loop cities cities_n (Z.to_nat size) [];
  mret {| size := size; members := members |}.

(** ** Genome: the solution *)

(** [get_solution]: the [idx] of every city of the chromosome; [None]
    has no [idx]. *)
Fixpoint get_solution {I} (idx : City → I) (c : Chromosome) : result (list I) :=
  match c with
  | [] => Ok []
  | Some city :: rest => sol ← get_solution idx rest; Ok (idx city :: sol)
  | None :: _ => Raise AttributeError
  end.

(** ** Cities and maps *)

(** The coordinates of a city: [int]s in a generated map, [float]s in a
    map made from a list of coordinates. *)
Inductive py_number : Type :=
| PyZ (z : Z)
| PyFloat (f : float).

(** The [idx] of a city: an [int] in a generated map, the name in a map
    made from a list of coordinates. *)
Inductive py_value : Type :=
| PyInt (z : Z)
| PyStr (s : string).

(** [f'{v}']. *)
Definition py_format (v : py_value) : string :=
  match v with
  | PyInt z => pretty z
  | PyStr s => s
  end.

(** A [City] object, by its attributes. *)
Record CityObj : Type := {
  city_position : py_number * py_number;
  city_idx : py_value;
  city_name : string
}.

(** [City(x, y, idx, name)]: [name if name else f'City{idx}'], where the
    empty string is as false as [None]. *)
Definition City_init (x y : py_number) (idx : py_value) (name : option string)
  : CityObj :=
  {| city_position := (x, y);
     city_idx := idx;
     city_name :=
       match name with
       | Some s => if decide (s = "") then "City" +:+ py_format idx else s
       | None => "City" +:+ py_format idx
       end |}.

(** [repr(city)]: [__repr__] returns [self.idx], and [repr] refuses
    what is not a string. *)
Definition City_repr (city : CityObj) : result string :=
  match city_idx city with
  | PyStr s => Ok s
  | PyInt _ => Raise TypeError
  end.

(** A [Map] object. *)
Record Map : Type := {
  map_cities_n : Z;
  map_size : Z * Z;
  map_cities : list CityObj
}.

Definition MAP_SIZE : Z * Z := (300, 300)%Z.

(** The [for i in range(self.cities_n)] loop of [__generate]. *)
Fixpoint generate_loop (size : Z * Z) (indices : list nat)
    (cities : list CityObj) : M (list CityObj) :=
  match indices with
  | [] => mret cities
  | i :: rest =>
      x ← randrange (Z.to_nat size.1);
      y ← randrange (Z.to_nat size.2);
      let city :=
        City_init (PyZ (Z.of_nat x)) (PyZ (Z.of_nat y))
                  (PyInt (Z.of_nat i)) None in
      generate_loop size rest (cities ++ [city])
  end.

Definition Map_generate (cities_n : Z) (size : Z * Z) : M (list CityObj) :=
  generate_loop size (seq 0 (Z.to_nat cities_n)) [].

(** [Map(cities, size)]. *)
Definition Map_init (cities_n : Z) (size : Z * Z) : M Map :=
  cities ← Map_generate cities_n size;
  mret {| map_cities_n := cities_n; map_size := size; map_cities := cities |}.

(** The body of the [for name, longitude, latitude in tuples_list] loop
    of [from_coordinates_tuples]. *)
Definition append_city (map : Map) (t : string * py_number * py_number) : Map :=
  let '(name, longitude, latitude) := t in
  let x := latitude in
  let y := longitude in
  let city := City_init x y (PyStr name) (Some name) in
  {| map_cities_n := map_cities_n map;
     map_size := map_size map;
     map_cities := map_cities map ++ [city] |}.

(** [Map.from_coordinates_tuples(tuples_list)]. *)
Definition from_coordinates_tuples
    (tuples_list : list (string * py_number * py_number)) : M Map :=
  map ← Map_init 0 MAP_SIZE;
  let map :=
    {| map_cities_n := Z.of_nat (length tuples_list);
       map_size := map_size map;
       map_cities := map_cities map |} in
  mret (foldl append_city map tuples_list).

(** ** The summary of an experiment *)

Section Summary.
Context {AR : Arith}.

(** [sorted(l, key=key)] for any elements. *)
Fixpoint insert_by {A} (key : A → num) (x : A) (sorted : list A) : list A :=
  match sorted with
  | [] => [x]
  | y :: rest =>
      if num_lt (key y) (key x) then y :: insert_by key x rest
      else x :: y :: rest
  end.

Definition sort_by {A} (key : A → num) (l : list A) : list A :=
  foldr (insert_by key) [] l.

(** [sorted(l, key=key, reverse=rev)]: with [reverse=True] the list is
    reversed, sorted, and reversed again, so that elements with equal
    keys keep the order they had. *)
Definition py_sorted {A} (key : A → num) (rev : bool) (l : list A) : list A :=
  if rev then reverse (sort_by key (reverse l)) else sort_by key l.

(** What the summary reads of a value of [exp_dict]: [data['best']],
    [data['best_fitness']] and [data['best_fitness_gen']]. *)
Record run_data : Type := {
  data_best : Genome;
  data_best_fitness : num;
  data_best_fitness_gen : Z
}.

(** The tuples of [run_list]: title, best, best fitness, generation. *)
Definition run_tuple : Type := string * Genome * num * Z.

(** What the function has written: the lines on the standard output,
    and the lines of the summary file if it was opened. *)
Record printed : Type := {
  stdout : list string;
  summary_file : option (list string)
}.

(** How the function ends: as a computation does, or on reading the
    local variable [summary_file] that was never assigned. *)
Inductive ending : Type :=
| EndsWith (r : result unit)
| UnboundLocalError.

(** [str(genome)], which [print] calls: [Genome.__repr__]. *)
Variable str_Genome : Genome → result string.

(** The text of [print(i, run[3], run[1], run[0])]. *)
Definition summary_line (i : nat) (run : run_tuple) : result string :=
  s ← str_Genome run.1.1.2;
  Ok (pretty i +:+ " " +:+ pretty run.2 +:+ " " +:+ s +:+ " " +:+ run.1.1.1).

(** The [for i, run in enumerate(run_list, start=1)] loop. *)
Fixpoint print_runs (save : bool) (rows : list (nat * run_tuple)) (p : printed)
  : printed * result unit :=
  match rows with
  | [] => (p, Ok tt)
  | (i, run) :: rest =>
      match summary_line i run with
      | Ok line =>
          print_runs save rest
            {| stdout := stdout p ++ [line];
               summary_file :=
                 if save then (λ f, f ++ [line]) <$> summary_file p
                 else summary_file p |}
      | Raise e => (p, Raise e)
      | Hang => (p, Hang)
      end
  end.

(** [if save_path:] for a path that is a string or [None]. *)
Definition truthy (save_path : option string) : bool :=
  match save_path with
  | Some s => if decide (s = "") then false else true
  | None => false
  end.

(** [open(save_path, 'w')] depends on the file system: [opens path]
    tells whether the path can be opened for writing. When it cannot,
    [open] raises [OSError] (a missing directory, a directory in place
    of the file, no permission). *)
Variable opens : string → bool.

(** [if save_path: summary_file = open(save_path, 'w')]: the lines of
    the file just opened, or [None] when the variable stays unassigned. *)
Definition open_summary (save_path : option string)
  : result (option (list string)) :=
  match save_path with
  | Some path =>
      if truthy save_path
      then if opens path then Ok (Some []) else Raise OSError
      else Ok None
  | None => Ok None
  end.

(** [print_experiment_summary(exp_dict, save_path)]; the dictionary is
    the list of its items, in insertion order. The file is opened
    first: when that fails nothing has been printed yet. *)
Definition print_experiment_summary (exp_dict : list (string * run_data))
    (save_path : option string) : printed * ending :=
  let save := truthy save_path in
  match open_summary save_path with
  | Ok file =>
      let p := {| stdout := []; summary_file := file |} in
      let run_list : list run_tuple :=
        (λ item, (item.1, data_best item.2, data_best_fitness item.2,
                  data_best_fitness_gen item.2)) <$> exp_dict in
      let key (x : run_tuple) := x.1.2 in
      let run_list := py_sorted key true run_list in
      let p := {| stdout := stdout p ++ ["Best Solutions"];
                  summary_file := summary_file p |} in
      match print_runs save (zip (seq 1 (length run_list)) run_list) p with
      | (p, Ok _) => if save then (p, EndsWith (Ok tt)) else (p, UnboundLocalError)
      | (p, r) => (p, EndsWith r)
      end
  | Raise e => ({| stdout := []; summary_file := None |}, EndsWith (Raise e))
  | Hang => ({| stdout := []; summary_file := None |}, EndsWith Hang)
  end.

End Summary.

(** The results of two runs, and a text for each genome. *)
Definition example_experiment : list (string * run_data (AR := float_arith)) :=
  [("ox swap", @Build_run_data float_arith 3 0.5%float 7);
   ("pmx swap", @Build_run_data float_arith 5 0.75%float 2)].

Definition example_str_Genome (g : Genome) : result string :=
  Ok ("genome " +:+ pretty g).

(** A file system in which only [summary.txt] can be opened for
    writing. *)
Definition example_opens (path : string) : bool :=
  bool_decide (path = "summary.txt").

(** * Properties *)

(** ** Reasoning about results and the state monad *)

Lemma result_bind_Ok {A B} (r : result A) (k : A → result B) (b : B) :
  r ≫= k = Ok b ↔ ∃ a, r = Ok a ∧ k a = Ok b.
Proof.
  destruct r as [a|e|]; simpl; split; try naive_solver.
Qed.

Lemma M_bind_Ok {A B} (m : M A) (k : A → M B) (w w' : world) (b : B) :
  (m ≫= k) w = (Ok b, w') ↔ ∃ a w1, m w = (Ok a, w1) ∧ k a w1 = (Ok b, w').
Proof.
  unfold mbind, M_bind. destruct (m w) as [[a|e|] w1]; split; naive_solver.
Qed.

Lemma M_bind_run {A B} (m : M A) (k : A → M B) (w w1 : world) (a : A) :
  m w = (Ok a, w1) → (m ≫= k) w = k a w1.
Proof. unfold mbind, M_bind. by intros ->. Qed.

Lemma M_ret_Ok {A} (a b : A) (w w' : world) :
  mret (M := M) a w = (Ok b, w') ↔ b = a ∧ w' = w.
Proof. unfold mret, M_ret. naive_solver. Qed.

Lemma lift_Ok {A} (x : result A) (w w' : world) (a : A) :
  lift x w = (Ok a, w') ↔ x = Ok a ∧ w' = w.
Proof. unfold lift. naive_solver. Qed.

Lemma getitem_Ok {A} (l : list A) (i : nat) (x : A) :
  getitem l i = Ok x ↔ l !! i = Some x.
Proof. unfold getitem. destruct (l !! i); naive_solver. Qed.

Lemma getitem_Some {A} (l : list A) (i : nat) (x : A) :
  l !! i = Some x → getitem l i = Ok x.
Proof. by apply getitem_Ok. Qed.

Lemma setitem_lt {A} (l : list A) (i : nat) (x : A) :
  i < length l → setitem l i x = Ok (<[i:=x]> l).
Proof. intros ?. unfold setitem. by rewrite decide_True. Qed.

Lemma setitem_Ok {A} (l l' : list A) (i : nat) (x : A) :
  setitem l i x = Ok l' ↔ i < length l ∧ l' = <[i:=x]> l.
Proof. unfold setitem. case_decide; naive_solver. Qed.

Lemma get_chromosome_Ok (g : Genome) (w w' : world) (c : Chromosome) :
  get_chromosome g w = (Ok c, w') ↔ genomes w !! g = Some c ∧ w' = w.
Proof. unfold get_chromosome. destruct (genomes w !! g); naive_solver. Qed.

Lemma get_chromosome_run (g : Genome) (w : world) (c : Chromosome) :
  genomes w !! g = Some c → get_chromosome g w = (Ok c, w).
Proof. intros ?. by apply get_chromosome_Ok. Qed.

Lemma set_chromosome_Ok (g : Genome) (c : Chromosome) (w w' : world) (u : unit) :
  set_chromosome g c w = (Ok u, w') ↔
  g < length (genomes w) ∧ w' = World (<[g:=c]> (genomes w)) (tape w).
Proof. unfold set_chromosome. destruct u. case_decide; naive_solver. Qed.

Lemma new_Genome_Ok (c : Chromosome) (w w' : world) (g : Genome) :
  new_Genome c w = (Ok g, w') ↔
  g = length (genomes w) ∧ w' = World (genomes w ++ [c]) (tape w).
Proof. unfold new_Genome. naive_solver. Qed.

Lemma draw_Ok (w w' : world) (d : nat) :
  draw w = (Ok d, w') → genomes w' = genomes w.
Proof. unfold draw. destruct (tape w); intros [= <- <-]; done. Qed.

Lemma draw_total (w : world) : ∃ d w', draw w = (Ok d, w').
Proof. unfold draw. destruct (tape w); eauto. Qed.

(** Turn a successful run of a monadic program into the runs of its steps. *)
Ltac inv_run :=
  repeat match goal with
  | H : (_ ≫= _) _ = (Ok _, _) |- _ =>
      apply M_bind_Ok in H as (? & ? & ? & H)
  | H : _ ≫= _ = Ok _ |- _ =>
      apply result_bind_Ok in H as (? & ? & H)
  | H : mret _ _ = (Ok _, _) |- _ => apply M_ret_Ok in H as [? ?]
  | H : mret _ = Ok _ |- _ => injection H as H
  | H : lift _ _ = (Ok _, _) |- _ => apply lift_Ok in H as [H ?]
  | H : get_chromosome _ _ = (Ok _, _) |- _ =>
      apply get_chromosome_Ok in H as [H ?]
  | H : set_chromosome _ _ _ = (Ok _, _) |- _ =>
      apply set_chromosome_Ok in H as [? H]
  | H : new_Genome _ _ = (Ok _, _) |- _ =>
      apply new_Genome_Ok in H as [? H]
  | H : getitem _ _ = Ok _ |- _ => apply getitem_Ok in H
  | H : setitem _ _ _ = Ok _ |- _ => apply setitem_Ok in H as [? H]
  | H : raise _ _ = (Ok _, _) |- _ => discriminate H
  | H : Raise _ = Ok _ |- _ => discriminate H
  | H : Hang = Ok _ |- _ => discriminate H
  end; simplify_eq/=.

(** ** The random module: what a draw can be *)

Lemma randrange_Ok (n : nat) (w w' : world) (r : nat) :
  randrange n w = (Ok r, w') → r < n ∧ genomes w' = genomes w.
Proof.
  unfold randrange. case_decide; [done|]. intros Hrun. inv_run.
  match goal with H : draw _ = _ |- _ => apply draw_Ok in H end.
  split; [by apply Nat.mod_upper_bound|done].
Qed.

Lemma sample2_Ok (n : nat) (w w' : world) (p : nat * nat) :
  sample2 n w = (Ok p, w') →
  p.1 < n ∧ p.2 < n ∧ p.1 ≠ p.2 ∧ genomes w' = genomes w.
Proof.
  unfold sample2. case_decide; [done|]. intros Hrun. inv_run.
  repeat match goal with H : draw _ = _ |- _ => apply draw_Ok in H end.
  simpl in *.
  match goal with |- context [?a mod n] =>
    pose proof (Nat.mod_upper_bound a n) end.
  match goal with |- context [?b mod (n - 1)] =>
    pose proof (Nat.mod_upper_bound b (n - 1)) end.
  split_and!; [lia|case_decide; lia|case_decide; lia|congruence].
Qed.

Lemma sample2_total (n : nat) (w : world) :
  2 ≤ n → ∃ p w', sample2 n w = (Ok p, w').
Proof.
  intros Hn. unfold sample2. rewrite decide_False by lia.
  unfold mbind, M_bind, draw, mret, M_ret.
  destruct (tape w) as [|a [|b t]] eqn:E; simpl; rewrite ?E; simpl; eauto.
Qed.

(** Every ordered pair of distinct positions is an outcome of [sample2]. *)
Lemma sample2_any (n i j : nat) (gs : list Chromosome) :
  i < n → j < n → i ≠ j →
  ∃ t, sample2 n (World gs t) = (Ok (i, j), World gs []).
Proof.
  intros Hi Hj Hij. exists [i; if decide (j < i) then j else j - 1].
  unfold sample2. rewrite decide_False by lia.
  unfold mbind, M_bind, draw, mret, M_ret. simpl.
  rewrite (Nat.mod_small i n) by lia.
  rewrite (Nat.mod_small _ (n - 1)) by (case_decide; lia).
  do 3 f_equal. repeat case_decide; lia.
Qed.

(** ** Mutation *)

Lemma swap_genes_length (c : Chromosome) (i j : nat) :
  length (swap_genes c i j) = length c.
Proof. unfold swap_genes. by rewrite !length_insert. Qed.

Lemma swap_genes_lookup (c : Chromosome) (i j k : nat) :
  i < length c → j < length c →
  swap_genes c i j !! k =
    if decide (k = j) then c !! i else if decide (k = i) then c !! j else c !! k.
Proof.
  intros Hi Hj. unfold swap_genes.
  destruct (lookup_lt_is_Some_2 c i Hi) as [x Hx].
  destruct (lookup_lt_is_Some_2 c j Hj) as [y Hy].
  rewrite (list_lookup_total_correct _ _ _ Hx), (list_lookup_total_correct _ _ _ Hy).
  case_decide as Hkj.
  - subst k. rewrite list_lookup_insert_eq by (by rewrite length_insert). done.
  - rewrite list_lookup_insert_ne by done. case_decide as Hki.
    + subst k. by rewrite list_lookup_insert_eq.
    + by rewrite list_lookup_insert_ne.
Qed.

(** Exchanging two positions keeps every gene, once each. *)
Lemma swap_genes_perm (c : Chromosome) (i j : nat) :
  i < length c → j < length c → swap_genes c i j ≡ₚ c.
Proof.
  intros Hi Hj. apply Permutation_inj. split; [apply swap_genes_length|].
  exists (λ k, if decide (k = j) then i else if decide (k = i) then j else k).
  split.
  - intros a b. repeat case_decide; lia.
  - intros k. rewrite swap_genes_lookup by done. by repeat case_decide.
Qed.

Lemma py_slice_take_drop {A} (l : list A) (i j : nat) :
  i ≤ j → take i l ++ py_slice l i j ++ drop j l = l.
Proof.
  intros Hij. unfold py_slice.
  replace (drop j l) with (drop (j - i) (drop i l))
    by (rewrite drop_drop; f_equal; lia).
  by rewrite take_drop, take_drop.
Qed.

Lemma inversion_at_perm (p1 p2 : nat) (c : Chromosome) :
  p1 ≤ p2 → inversion_at p1 p2 c ≡ₚ c.
Proof.
  intros Hp. unfold inversion_at. simpl.
  rewrite reverse_Permutation. by rewrite py_slice_take_drop.
Qed.

Lemma two_opt_at_perm (p1 p2 : nat) (c : Chromosome) :
  p2 < length c → two_opt_at p1 p2 c ≡ₚ c.
Proof.
  intros Hp. unfold two_opt_at. simpl. apply swap_genes_perm; [|done].
  apply Nat.mod_upper_bound. lia.
Qed.

Lemma mutation_method_Ok f self w w' :
  mutation_method f self w = (Ok tt, w') →
  ∃ c p1 p2 w1,
    genomes w !! self = Some c ∧
    sample2 (length c) w = (Ok (p1, p2), w1) ∧
    p1 < length c ∧ p2 < length c ∧ p1 ≠ p2 ∧
    genomes w' = <[self := f (p1, p2) c]> (genomes w).
Proof.
  unfold mutation_method. intros Hrun. inv_run.
  rename select (nat * nat)%type into p. destruct p as [p1 p2].
  match goal with H : sample2 _ _ = _ |- _ =>
    pose proof H as (? & ? & ? & Hg)%sample2_Ok end.
  simpl in *. eexists _, p1, p2, _. split_and!; try done. by rewrite Hg.
Qed.

Lemma mutation_method_total f self w c :
  genomes w !! self = Some c → 2 ≤ length c →
  ∃ w', mutation_method f self w = (Ok tt, w').
Proof.
  intros Hc Hlen. unfold mutation_method.
  destruct (sample2_total (length c) w Hlen) as (p & w1 & Hs).
  pose proof Hs as (_ & _ & _ & Hg)%sample2_Ok.
  eexists. unfold mbind at 1, M_bind at 1, get_chromosome. rewrite Hc.
  unfold mbind, M_bind. rewrite Hs. unfold set_chromosome.
  rewrite decide_True; [done|]. rewrite Hg. by eapply lookup_lt_Some.
Qed.

Lemma swap_mutation_method self :
  swap_mutation self = mutation_method (λ p, swap_at p.1 p.2) self.
Proof. done. Qed.

Lemma inversion_mutation_method self :
  inversion_mutation self =
  mutation_method (λ p, inversion_at (sort2 p).1 (sort2 p).2) self.
Proof. done. Qed.

Lemma two_opt_mutation_method self :
  two_opt_mutation self = mutation_method (λ p, two_opt_at p.1 p.2) self.
Proof. done. Qed.

Lemma mutation_method_rearranges f self w w' :
  (∀ p1 p2 c, p1 < length c → p2 < length c → p1 ≠ p2 → f (p1, p2) c ≡ₚ c) →
  mutation_method f self w = (Ok tt, w') → rearranges self w w'.
Proof.
  intros Hf (c & p1 & p2 & w1 & Hc & _ & H1 & H2 & Hne & Hg)%mutation_method_Ok.
  exists c, (f (p1, p2) c). split_and!; [done| |done]. by apply Hf.
Qed.

Lemma rearranges_refl self w c : genomes w !! self = Some c → rearranges self w w.
Proof. intros Hc. exists c, c. split_and!; [done..|]. by rewrite list_insert_id. Qed.

Lemma mutate_rearranges self type w w' c :
  genomes w !! self = Some c →
  mutate self type w = (Ok tt, w') → rearranges self w w'.
Proof.
  intros Hc. unfold mutate.
  assert (Hswap : ∀ w w', swap_mutation self w = (Ok tt, w') → rearranges self w w').
  { intros ??. rewrite swap_mutation_method. apply mutation_method_rearranges.
    intros. by apply swap_genes_perm. }
  assert (Hinv : ∀ w w', inversion_mutation self w = (Ok tt, w') → rearranges self w w').
  { intros ??. rewrite inversion_mutation_method. apply mutation_method_rearranges.
    intros. apply inversion_at_perm. simpl. lia. }
  assert (Hopt : ∀ w w', two_opt_mutation self w = (Ok tt, w') → rearranges self w w').
  { intros ??. rewrite two_opt_mutation_method. apply mutation_method_rearranges.
    intros. by apply two_opt_at_perm. }
  repeat case_decide; eauto; [|done].
  intros Hrun. apply M_bind_Ok in Hrun as (rand & w1 & Hr & Hrun).
  apply randrange_Ok in Hr as [_ Hg]. simpl in Hg.
  assert (rearranges self w1 w' → rearranges self w w') as Hw1.
  { intros (c1 & c' & ? & ? & ?). exists c1, c'. by rewrite <-Hg. }
  repeat case_decide; eauto. apply M_ret_Ok in Hrun as [_ ->].
  apply Hw1. eapply rearranges_refl. by rewrite Hg.
Qed.


(** *** The edge-exchange mutation *)

(** On the chromosome, the mutation is the exchange of position
    [(p1 + 1) mod n] with position [p2]. *)
Lemma two_opt_at_lookup (p1 p2 : nat) (c : Chromosome) :
  p2 < length c →
  two_opt_at p1 p2 c !! ((p1 + 1) mod length c) = c !! p2 ∧
  two_opt_at p1 p2 c !! p2 = c !! ((p1 + 1) mod length c) ∧
  ∀ i, i ≠ (p1 + 1) mod length c → i ≠ p2 → two_opt_at p1 p2 c !! i = c !! i.
Proof.
  intros Hp2. unfold two_opt_at. simpl.
  assert ((p1 + 1) mod length c < length c) by (apply Nat.mod_upper_bound; lia).
  generalize dependent ((p1 + 1) mod length c). intros s1 Hs1. split_and!.
  - rewrite swap_genes_lookup by done. repeat case_decide; congruence.
  - rewrite swap_genes_lookup by done. by rewrite decide_True.
  - intros i ??. rewrite swap_genes_lookup by done. by rewrite !decide_False.
Qed.

(** C3, as amended: on a chromosome [c] of length [n ≥ 2], whatever the
    random draws, the edge-exchange mutation succeeds, with two distinct
    positions [p1], [p2] below [n], and it exchanges the cities at
    positions [(p1 + 1) mod n] and [p2]: the successor of the first
    position and the second position itself. All other positions are
    unchanged. *)
Theorem two_opt_mutation_exchanges (self : Genome) (c : Chromosome) (w : world) :
  genomes w !! self = Some c → 2 ≤ length c →
  ∃ p1 p2 w1 c' w',
    sample2 (length c) w = (Ok (p1, p2), w1) ∧
    two_opt_mutation self w = (Ok tt, w') ∧
    p1 < length c ∧ p2 < length c ∧ p1 ≠ p2 ∧
    genomes w' !! self = Some c' ∧
    c' !! ((p1 + 1) mod length c) = c !! p2 ∧
    c' !! p2 = c !! ((p1 + 1) mod length c) ∧
    ∀ i, i ≠ (p1 + 1) mod length c → i ≠ p2 → c' !! i = c !! i.
Proof.
  intros Hc Hlen. rewrite two_opt_mutation_method.
  destruct (mutation_method_total (λ p, two_opt_at p.1 p.2) self w c Hc Hlen)
    as [w' Hrun].
  pose proof Hrun
    as (c0 & p1 & p2 & w1 & Hc0 & Hs & H1 & H2 & Hne & Hg)%mutation_method_Ok.
  simplify_eq. simpl in Hg.
  destruct (two_opt_at_lookup p1 p2 c H2) as (Ha & Hb & Hrest).
  exists p1, p2, w1, (two_opt_at p1 p2 c), w'. split_and!; try done.
  rewrite Hg. apply list_lookup_insert_eq. by eapply lookup_lt_Some.
Qed.

Lemma two_opt_mutation_exchanges_witness :
  ∃ p1 p2 w1 c' w',
    sample2 4 (World [chromosome_of [0; 1; 2; 3]] [0; 1]) = (Ok (p1, p2), w1) ∧
    two_opt_mutation 0 (World [chromosome_of [0; 1; 2; 3]] [0; 1]) = (Ok tt, w') ∧
    p1 < 4 ∧ p2 < 4 ∧ p1 ≠ p2 ∧
    genomes w' !! 0 = Some c' ∧
    c' !! ((p1 + 1) mod 4) = chromosome_of [0; 1; 2; 3] !! p2 ∧
    c' !! p2 = chromosome_of [0; 1; 2; 3] !! ((p1 + 1) mod 4) ∧
    ∀ i, i ≠ (p1 + 1) mod 4 → i ≠ p2 → c' !! i = chromosome_of [0; 1; 2; 3] !! i.
Proof.
  apply (two_opt_mutation_exchanges 0 (chromosome_of [0; 1; 2; 3])
           (World [chromosome_of [0; 1; 2; 3]] [0; 1])).
  - reflexivity.
  - simpl. lia.
Defined.

(** C3, as stated, fails. With the draws [p1 = 0] and [p2 = 2] on
    [[0; 1; 2; 3]] the mutation exchanges positions 1 and 2, where the
    claim exchanges positions 1 and 3. With [p1 = 0] and [p2 = 1] it
    changes nothing, which is no exchange of the successors of any two
    distinct positions. *)
Lemma two_opt_mutation_not_successors :
  (two_opt_mutation 0 (World [chromosome_of [0; 1; 2; 3]] [0; 1])
     = (Ok tt, World [chromosome_of [0; 2; 1; 3]] []) ∧
   sample2 4 (World [chromosome_of [0; 1; 2; 3]] [0; 1])
     = (Ok (0, 2), World [chromosome_of [0; 1; 2; 3]] []) ∧
   swap_genes (chromosome_of [0; 1; 2; 3]) ((0 + 1) mod 4) ((2 + 1) mod 4)
     = chromosome_of [0; 3; 2; 1]) ∧
  (two_opt_mutation 0 (World [chromosome_of [0; 1; 2; 3]] [0; 0])
     = (Ok tt, World [chromosome_of [0; 1; 2; 3]] []) ∧
   ∀ p1 p2, p1 < 4 → p2 < 4 → p1 ≠ p2 →
     swap_genes (chromosome_of [0; 1; 2; 3]) ((p1 + 1) mod 4) ((p2 + 1) mod 4)
       ≠ chromosome_of [0; 1; 2; 3]).
Proof.
  split; [by vm_compute|]. split; [by vm_compute|].
  intros p1 p2 H1 H2 Hne.
  destruct p1 as [|[|[|[|p1]]]]; try lia;
    destruct p2 as [|[|[|[|p2]]]]; try lia; by vm_compute.
Qed.

(** *** The random mutation *)

(** [mutate] with type ["random"] draws one of four values; three of
    them select a mutation and the fourth selects nothing. *)
Lemma mutate_random_by_draw (self : Genome) (w w1 : world) (rand : nat) :
  randrange 4 w = (Ok rand, w1) →
  mutate self "random" w =
    match rand with
    | 0 => swap_mutation self w1
    | 1 => inversion_mutation self w1
    | 2 => two_opt_mutation self w1
    | _ => (Ok tt, w1)
    end.
Proof.
  intros Hr. unfold mutate. simpl. erewrite M_bind_run by done.
  destruct rand as [|[|[|r]]]; done.
Qed.

(** C4 fails on the code: when [random.randrange(4)] returns 3, here on
    the tape that starts with the draw 3, [mutate] with type ["random"]
    returns without having applied any mutation. *)
Theorem mutate_random_applies_nothing :
  mutate 0 "random" (World [chromosome_of [0; 1; 2; 3]] [3])
    = (Ok tt, World [chromosome_of [0; 1; 2; 3]] []) ∧
  randrange 4 (World [chromosome_of [0; 1; 2; 3]] [3])
    = (Ok 3, World [chromosome_of [0; 1; 2; 3]] []).
Proof. by vm_compute. Qed.

(** *** Unknown kinds *)

(** C9 on the code: an unknown mutation type makes [mutate] raise at
    once, in the state it was called in; an unknown crossover type makes
    [crossover] return [None]: it raises nothing. *)
Theorem unknown_kinds (self parent1 parent2 : Genome) (kind : string) (w : world) :
  (kind ∉ ["swap"; "inverse"; "2-opt"; "random"] →
   mutate self kind w = (Raise (Exception "Invalid mutation type"), w)) ∧
  (kind ∉ ["ox"; "pmx"; "cx"] →
   crossover parent1 parent2 kind w = (Ok None, w)).
Proof.
  split; intros Hk; rewrite !not_elem_of_cons in Hk.
  - unfold mutate. repeat case_decide; naive_solver.
  - unfold crossover. repeat case_decide; naive_solver.
Qed.

Lemma unknown_kinds_witness :
  mutate 0 "inversion" (World [chromosome_of [0; 1; 2]] [1; 2])
    = (Raise (Exception "Invalid mutation type"),
       World [chromosome_of [0; 1; 2]] [1; 2]) ∧
  crossover 0 0 "order" (World [chromosome_of [0; 1; 2]] [1; 2])
    = (Ok None, World [chromosome_of [0; 1; 2]] [1; 2]).
Proof.
  destruct (unknown_kinds 0 0 0 "inversion" (World [chromosome_of [0; 1; 2]] [1; 2]))
    as [Hm _].
  destruct (unknown_kinds 0 0 0 "order" (World [chromosome_of [0; 1; 2]] [1; 2]))
    as [_ Hc].
  split; [apply Hm|apply Hc]; rewrite !not_elem_of_cons; split_and!;
    try discriminate; apply not_elem_of_nil.
Defined.

(** *** The order crossover on the example of the specification *)

(** C5, as amended: on the parents [[1; 2; 3; 4; 5]] and
    [[5; 4; 3; 2; 1]] with the cut points 1 and 3, the first child of
    the order crossover is [[2; 4; 3; 5; 1]]. It holds the segment
    [[4; 3]] of the second parent at positions 1 and 2; the first parent
    read from index 3 on is [[4; 5; 1; 2; 3]], of which 5, 1 and 2 are
    new and are written from position 3 on, wrapping: 5 at position 3, 1
    at position 4, 2 at position 0. *)
Theorem order_crossover_example :
  order_crossover_at 1 3 (chromosome_of [1; 2; 3; 4; 5]) (chromosome_of [5; 4; 3; 2; 1])
    = Ok (chromosome_of [2; 4; 3; 5; 1], chromosome_of [4; 2; 3; 1; 5]) ∧
  slice_assign (replicate 5 None) 1 3 (py_slice (chromosome_of [5; 4; 3; 2; 1]) 1 3)
    = [None; Some 4; Some 3; None; None] ∧
  swapped_parent (chromosome_of [1; 2; 3; 4; 5]) 3 = chromosome_of [4; 5; 1; 2; 3].
Proof. by vm_compute. Qed.

(** C5, as stated, fails: the first child is not [[5; 4; 3; 1; 2]]. *)
Lemma order_crossover_example_not_as_stated :
  ¬ ∃ child2,
    order_crossover_at 1 3 (chromosome_of [1; 2; 3; 4; 5])
                           (chromosome_of [5; 4; 3; 2; 1])
    = Ok (chromosome_of [5; 4; 3; 1; 2], child2).
Proof. intros [child2 H]. vm_compute in H. discriminate. Qed.

(** ** The counterpart of a gene in the partially-mapped crossover *)

Lemma get_gene_counterpart_step (gene : Gene) (mappings : list (Gene * Gene)) :
  get_gene_counterpart gene mappings =
    match first_mapping gene mappings with
    | Some mapped_values =>
        get_gene_counterpart (other_gene gene mapped_values)
                             (py_remove mapped_values mappings)
    | None => gene
    end.
Proof.
  funelim (get_gene_counterpart gene mappings);
    match goal with H : first_mapping _ _ = _ |- _ => by rewrite H end.
Qed.

Lemma first_mapping_Some (gene : Gene) (mappings : list (Gene * Gene))
    (mv : Gene * Gene) :
  first_mapping gene mappings = Some mv → mv ∈ mappings ∧ in_pair gene mv.
Proof.
  intros H. split; [by eapply first_mapping_elem|].
  unfold first_mapping in H. apply fmap_Some in H as ([i x] & E & ->).
  by apply list_find_Some in E as (_ & ? & _).
Qed.

Lemma first_mapping_None (gene : Gene) (mappings : list (Gene * Gene)) :
  first_mapping gene mappings = None ↔ ∀ mv, mv ∈ mappings → ¬ in_pair gene mv.
Proof.
  unfold first_mapping. rewrite fmap_None, list_find_None, Forall_forall. done.
Qed.

(** Each recursive call works on a list that is one pair shorter. *)
Lemma first_mapping_removed (gene : Gene) (mappings : list (Gene * Gene))
    (mv : Gene * Gene) :
  first_mapping gene mappings = Some mv →
  S (length (py_remove mv mappings)) = length mappings.
Proof. intros [? _]%first_mapping_Some. by apply py_remove_length. Qed.

(** With more free frames than pairs, the calls fit on the stack. *)
Lemma get_gene_counterpart_frames_enough (frames : nat) (gene : Gene)
    (mappings : list (Gene * Gene)) :
  length mappings < frames →
  get_gene_counterpart_frames frames gene mappings
    = Ok (get_gene_counterpart gene mappings).
Proof.
  revert gene mappings. induction frames as [|frames IH];
    intros gene mappings Hlen; [lia|].
  rewrite get_gene_counterpart_step. simpl.
  destruct (first_mapping gene mappings) as [mv|] eqn:E; [|done].
  apply IH. apply first_mapping_removed in E. lia.
Qed.

(** Whatever the number of free frames, the resolution ends: with the
    counterpart, or with [RecursionError]. *)
Lemma get_gene_counterpart_frames_ends (frames : nat) (gene : Gene)
    (mappings : list (Gene * Gene)) :
  get_gene_counterpart_frames frames gene mappings
    = Ok (get_gene_counterpart gene mappings) ∨
  get_gene_counterpart_frames frames gene mappings = Raise RecursionError.
Proof.
  revert gene mappings. induction frames as [|frames IH];
    intros gene mappings; [by right|].
  rewrite get_gene_counterpart_step. simpl.
  destruct (first_mapping gene mappings) as [mv|]; [apply IH|by left].
Qed.

Lemma length_py_slice_le {A} (l : list A) (i j : nat) : length (py_slice l i j) ≤ j - i.
Proof. unfold py_slice. rewrite length_take. lia. Qed.

Lemma length_py_slice {A} (l : list A) (i j : nat) :
  j ≤ length l → length (py_slice l i j) = j - i.
Proof. intros ?. unfold py_slice. rewrite length_take, length_drop. lia. Qed.

Lemma length_slice_assign {A} (l new : list A) (i j : nat) :
  i ≤ j → j ≤ length l → length new = j - i →
  length (slice_assign l i j new) = length l.
Proof.
  intros ???. unfold slice_assign.
  rewrite !length_app, length_take, length_drop. lia.
Qed.

Lemma pmx_fill_loop_total (p1 p2 : nat) (mappings : list (Gene * Gene))
    (parent_x : Chromosome) (indices : list nat) (chromosome : Chromosome) :
  (∀ i, i ∈ indices → i < length parent_x) →
  length parent_x ≤ length chromosome →
  ∃ c, pmx_fill_loop p1 p2 mappings parent_x indices chromosome = Ok c ∧
       length c = length chromosome.
Proof.
  revert chromosome. induction indices as [|i rest IH]; intros chromosome Hin Hlen.
  - by eexists.
  - simpl. assert (i < length parent_x) as Hi by (apply Hin; left).
    assert (∀ j, j ∈ rest → j < length parent_x) as Hrest
      by (intros; apply Hin; by right).
    case_decide; [|by apply IH].
    destruct (lookup_lt_is_Some_2 parent_x i Hi) as [gene Hg].
    unfold getitem at 1. rewrite Hg. simpl.
    unfold setitem. rewrite decide_True by lia. simpl.
    match goal with |- context [<[i:=?v]> chromosome] =>
      destruct (IH (<[i:=v]> chromosome)) as (c & -> & Hc);
        [done|by rewrite length_insert|]
    end.
    eexists. split; [done|]. by rewrite Hc, length_insert.
Qed.

Lemma pmx_fill_loop_frames_enough (frames p1 p2 : nat)
    (mappings : list (Gene * Gene)) (parent_x : Chromosome)
    (indices : list nat) (chromosome : Chromosome) :
  length mappings < frames →
  pmx_fill_loop_frames frames p1 p2 mappings parent_x indices chromosome
    = pmx_fill_loop p1 p2 mappings parent_x indices chromosome.
Proof.
  intros Hlen. revert chromosome.
  induction indices as [|i rest IH]; intros chromosome; [done|]. simpl.
  case_decide; [|apply IH].
  destruct (getitem parent_x i) as [gene| |]; [|done..]. simpl.
  rewrite get_gene_counterpart_frames_enough by done.
  destruct (decide (gene ∈ chromosome)); simpl;
    (destruct (setitem chromosome i _); [apply IH|done..]).
Qed.

(** When the segment is shorter than the number of free frames the
    recursion limit is not reached, and the crossover is the one on a
    stack that is deep enough. *)
Lemma partially_mapped_crossover_at_frames_enough (frames p1 p2 : nat)
    (parent1 parent2 : Chromosome) :
  p2 - p1 < frames →
  partially_mapped_crossover_at_frames frames p1 p2 parent1 parent2
    = partially_mapped_crossover_at p1 p2 parent1 parent2.
Proof.
  intros Hlen.
  unfold partially_mapped_crossover_at_frames, partially_mapped_crossover_at,
    pmx_fill_frames, pmx_fill. cbv zeta.
  assert (length (zip (py_slice parent1 p1 p2) (py_slice parent2 p1 p2)) < frames).
  { rewrite length_zip. pose proof (length_py_slice_le parent1 p1 p2). lia. }
  by rewrite !pmx_fill_loop_frames_enough.
Qed.

Lemma partially_mapped_crossover_at_total (p1 p2 : nat)
    (parent1 parent2 : Chromosome) :
  length parent1 = length parent2 → p1 ≤ p2 → p2 ≤ length parent1 →
  ∃ child1_x child2_x,
    partially_mapped_crossover_at p1 p2 parent1 parent2 = Ok (child1_x, child2_x).
Proof.
  intros Hlen Hp Hp2. unfold partially_mapped_crossover_at. simpl.
  set (ms := zip _ _).
  edestruct (pmx_fill_loop_total p1 p2 ms parent1 (seq 0 (length parent1)))
    as (c1 & Hc1 & _); [by intros i [_ ?]%elem_of_seq| |].
  2: { unfold pmx_fill. rewrite Hc1. simpl.
    edestruct (pmx_fill_loop_total p1 p2 ms parent2 (seq 0 (length parent2)))
      as (c2 & Hc2 & _); [by intros i [_ ?]%elem_of_seq| |].
    2: { rewrite Hc2. simpl. by eexists _, _. }
    rewrite length_slice_assign; rewrite ?length_replicate; try lia.
    rewrite length_py_slice; lia. }
  rewrite length_slice_assign; rewrite ?length_replicate; try lia.
  rewrite length_py_slice; lia.
Qed.

(** *** A chain of mapping pairs *)

Lemma chain_S (k : nat) : chain (S k) = chain k ++ [(Some k, Some (S k))].
Proof.
  unfold chain. rewrite !seq_S, !fmap_app. simpl.
  rewrite zip_with_app by (by rewrite !length_fmap, !length_seq). done.
Qed.

Lemma elem_of_chain (k : nat) (mv : Gene * Gene) :
  mv ∈ chain k ↔ ∃ i, i < k ∧ mv = (Some i, Some (S i)).
Proof.
  induction k as [|k IH].
  - split; [by intros ?%elem_of_nil|intros (i & ? & _); lia].
  - rewrite chain_S, elem_of_app, IH, list_elem_of_singleton. split.
    + intros [(i & ? & ->)| ->]; [exists i|exists k]; split; (lia || done).
    + intros (i & Hi & ->). destruct (decide (i = k)) as [->|]; [by right|].
      left. exists i. split; [lia|done].
Qed.

Lemma py_remove_snoc {A} `{EqDecision A} (x : A) (l : list A) :
  x ∉ l → py_remove x (l ++ [x]) = l.
Proof.
  induction l as [|y l IH]; intros Hx; simpl.
  - by rewrite decide_True.
  - apply not_elem_of_cons in Hx as [Hne Hx].
    rewrite decide_False by done. by rewrite IH.
Qed.

(** The last city of the chain is found in the last pair only. *)
Lemma first_mapping_chain (k : nat) :
  first_mapping (Some (S k)) (chain (S k)) = Some (Some k, Some (S k)).
Proof.
  unfold first_mapping. rewrite chain_S, list_find_app_r.
  - simpl. rewrite decide_True by (by right). done.
  - apply list_find_None, Forall_forall. intros mv (i & Hi & ->)%elem_of_chain.
    intros [[=]|[=]]; simpl in *; lia.
Qed.

(** Resolving the last city of a chain of [k] pairs takes [k] + 1
    frames. *)
Lemma get_gene_counterpart_frames_chain (frames k : nat) :
  frames ≤ k →
  get_gene_counterpart_frames frames (Some k) (chain k) = Raise RecursionError.
Proof.
  revert k. induction frames as [|frames IH]; intros k Hk; [done|].
  destruct k as [|k]; [lia|].
  cbn [get_gene_counterpart_frames]. rewrite first_mapping_chain.
  unfold other_gene. cbn [fst snd]. rewrite decide_True by (intros [=]; lia).
  rewrite chain_S, py_remove_snoc; [apply IH; lia|].
  intros (i & Hi & [=])%elem_of_chain. lia.
Qed.

Lemma pmx_fill_loop_frames_inside (frames p1 p2 : nat)
    (mappings : list (Gene * Gene)) (parent_x : Chromosome)
    (inside rest : list nat) (chromosome : Chromosome) :
  (∀ i, i ∈ inside → p1 ≤ i < p2) →
  pmx_fill_loop_frames frames p1 p2 mappings parent_x (inside ++ rest) chromosome
    = pmx_fill_loop_frames frames p1 p2 mappings parent_x rest chromosome.
Proof.
  induction inside as [|i inside IH]; intros Hin; [done|]. simpl.
  rewrite decide_False by (specialize (Hin i ltac:(left)); lia).
  apply IH. intros j Hj. apply Hin. by right.
Qed.

(** On the two chain tours of [m] + 1 cities, cut at 0 and [m], the
    first call of [fill_chromosome] has one position to fill, the last,
    and the city it finds there is resolved through all [m] pairs. *)
Lemma chain_crossover_recursion_error (frames m : nat) :
  1 ≤ m → frames ≤ m →
  partially_mapped_crossover_at_frames frames 0 m
    (chain_parent1 m) (chain_parent2 m) = Raise RecursionError.
Proof.
  intros Hm Hframes.
  unfold partially_mapped_crossover_at_frames, pmx_fill_frames. cbv zeta.
  assert (py_slice (chain_parent1 m) 0 m = Some <$> seq 0 m) as ->.
  { unfold py_slice, chain_parent1, chromosome_of.
    rewrite Nat.sub_0_r, drop_0, seq_S, fmap_app.
    by rewrite take_app_length' by (by rewrite length_fmap, length_seq). }
  assert (py_slice (chain_parent2 m) 0 m = Some <$> seq 1 m) as ->.
  { unfold py_slice, chain_parent2, chromosome_of.
    rewrite Nat.sub_0_r, drop_0, fmap_app.
    by rewrite take_app_length' by (by rewrite length_fmap, length_seq). }
  fold (chain m).
  assert (length (chain_parent1 m) = S m) as Hlen
    by (unfold chain_parent1, chromosome_of; by rewrite length_fmap, length_seq).
  rewrite Hlen.
  assert (slice_assign (replicate (S m) None) 0 m (Some <$> seq 1 m)
            = (Some <$> seq 1 m) ++ [None : Gene]) as ->.
  { unfold slice_assign. rewrite take_0, drop_replicate.
    by replace (S m - m) with 1 by lia. }
  rewrite seq_S, pmx_fill_loop_frames_inside
    by (intros i [_ ?]%elem_of_seq; lia).
  simpl. rewrite decide_True by lia.
  assert (chain_parent1 m !! m = Some (Some m)) as Hlast.
  { unfold chain_parent1, chromosome_of.
    rewrite list_lookup_fmap, lookup_seq_lt by lia. done. }
  unfold getitem. rewrite Hlast. simpl.
  rewrite decide_True.
  - by rewrite get_gene_counterpart_frames_chain.
  - apply elem_of_app. left. apply list_elem_of_fmap. exists m.
    split; [done|]. apply elem_of_seq. lia.
Qed.

(** C10: the resolution of a gene's counterpart ends, and on the
    interpreter it does not always end with the counterpart. Each
    recursive call of [get_gene_counterpart] works on a mapping list
    that is one pair shorter, so the calls are nested at most
    [length mappings] + 1 deep, and in the partially-mapped crossover
    the mapping list has at most [p2 - p1] pairs, the length of the
    segment. Each nested call takes a frame of the interpreter's stack:
    with more free frames than pairs the resolution returns the
    counterpart, and the crossover of two parents of one length returns
    two children; with fewer it may raise [RecursionError] instead. It
    does so on the two chain tours of [m] + 1 cities cut at 0 and [m],
    whenever no more than [m] frames are free; 1000 frames, the whole
    default limit, are too few for 1200 cities. *)
Theorem get_gene_counterpart_recursion_depth (frames : nat) (gene : Gene)
    (mappings : list (Gene * Gene)) (p1 p2 : nat) (parent1 parent2 : Chromosome)
    (m : nat) :
  (∀ mapped_values, first_mapping gene mappings = Some mapped_values →
     S (length (py_remove mapped_values mappings)) = length mappings) ∧
  (get_gene_counterpart_frames frames gene mappings
     = Ok (get_gene_counterpart gene mappings) ∨
   get_gene_counterpart_frames frames gene mappings = Raise RecursionError) ∧
  (length mappings < frames →
   get_gene_counterpart_frames frames gene mappings
     = Ok (get_gene_counterpart gene mappings)) ∧
  length (zip (py_slice parent1 p1 p2) (py_slice parent2 p1 p2)) ≤ p2 - p1 ∧
  (length parent1 = length parent2 → p1 ≤ p2 → p2 ≤ length parent1 →
   p2 - p1 < frames →
   ∃ child1_x child2_x,
     partially_mapped_crossover_at_frames frames p1 p2 parent1 parent2
       = Ok (child1_x, child2_x) ∧
     partially_mapped_crossover_at p1 p2 parent1 parent2
       = Ok (child1_x, child2_x)) ∧
  (1 ≤ m → frames ≤ m →
   partially_mapped_crossover_at_frames frames 0 m
     (chain_parent1 m) (chain_parent2 m) = Raise RecursionError).
Proof.
  split_and!.
  - intros mv. apply first_mapping_removed.
  - apply get_gene_counterpart_frames_ends.
  - apply get_gene_counterpart_frames_enough.
  - rewrite length_zip. pose proof (length_py_slice_le parent1 p1 p2). lia.
  - intros Hlen Hp Hp2 Hframes.
    destruct (partially_mapped_crossover_at_total p1 p2 parent1 parent2)
      as (c1 & c2 & Hrun); [done..|].
    exists c1, c2. by rewrite partially_mapped_crossover_at_frames_enough.
  - apply chain_crossover_recursion_error.
Qed.

Lemma get_gene_counterpart_recursion_depth_witness :
  (get_gene_counterpart_frames 1000 (Some 4) [(Some 2, Some 4); (Some 3, Some 3)]
     = Ok (get_gene_counterpart (Some 4) [(Some 2, Some 4); (Some 3, Some 3)])) ∧
  (∃ child1_x child2_x,
     partially_mapped_crossover_at_frames 1000 1 3
       (chromosome_of [1; 2; 3; 4; 5]) (chromosome_of [5; 4; 3; 2; 1])
       = Ok (child1_x, child2_x) ∧
     partially_mapped_crossover_at 1 3
       (chromosome_of [1; 2; 3; 4; 5]) (chromosome_of [5; 4; 3; 2; 1])
       = Ok (child1_x, child2_x)) ∧
  partially_mapped_crossover_at_frames 1000 0 1199
    (chain_parent1 1199) (chain_parent2 1199) = Raise RecursionError.
Proof.
  destruct (get_gene_counterpart_recursion_depth 1000 (Some 4)
              [(Some 2, Some 4); (Some 3, Some 3)] 1 3
              (chromosome_of [1; 2; 3; 4; 5]) (chromosome_of [5; 4; 3; 2; 1])
              1199)
    as (_ & _ & H3 & _ & H5 & H6).
  split_and!.
  - apply H3. simpl. lia.
  - apply H5; simpl; lia.
  - apply H6; lia.
Defined.

(** ** The order crossover keeps permutations *)

Lemma rotate_nat_add_mod (base offset len : nat) :
  rotate_nat_add base offset len = (base + offset) mod len.
Proof.
  unfold rotate_nat_add.
  by rewrite <-Nat2Z.inj_add, <-Nat2Z.inj_mod, Nat2Z.id.
Qed.

Lemma rotate_Permutation {A} (n : nat) (l : list A) : rotate n l ≡ₚ l.
Proof.
  unfold rotate. rewrite (Permutation_app_comm (drop _ _)). by rewrite take_drop.
Qed.

(** The parent read from [point2] on, wrapping, is the parent rotated. *)
Lemma swapped_parent_rotate (parent_x : Chromosome) (point2 : nat) :
  swapped_parent parent_x point2 = rotate point2 parent_x.
Proof.
  apply list_eq. intros k. unfold swapped_parent.
  rewrite list_lookup_fmap.
  destruct (decide (k < length parent_x)) as [Hk|Hk].
  - rewrite lookup_seq_lt by done. simpl.
    rewrite lookup_rotate_r by done. rewrite rotate_nat_add_mod.
    assert ((point2 + k) mod length parent_x < length parent_x) as Hlt
      by (apply Nat.mod_upper_bound; lia).
    destruct (lookup_lt_is_Some_2 _ _ Hlt) as [x Hx].
    by rewrite Hx, (list_lookup_total_correct _ _ _ Hx).
  - rewrite lookup_seq_ge by lia. simpl. symmetry. apply lookup_ge_None.
    rewrite length_rotate. lia.
Qed.

(** The loop of [orderly_insert], seen with the child rotated so that
    the write position [point2] comes first: the accepted genes fill the
    free slots in front of the inherited segment, in order. *)
Lemma orderly_loop_rotated (seg : list Gene) (n p2 m : nat)
    (genes acc child : Chromosome) :
  p2 < n → length child = n →
  None ∉ genes → NoDup (acc ++ genes) →
  length acc + length (filter (λ g, g ∉ seg) genes) ≤ m →
  m + length seg = n →
  rotate p2 child = acc ++ replicate (m - length acc) None ++ seg →
  ∃ child',
    orderly_loop genes child (p2 + length acc) = Ok child' ∧
    length child' = n ∧
    rotate p2 child' =
      (acc ++ filter (λ g, g ∉ seg) genes)
      ++ replicate (m - length acc - length (filter (λ g, g ∉ seg) genes)) None
      ++ seg.
Proof.
  intros Hp2 Hlen. revert acc child Hlen.
  induction genes as [|g genes IH]; intros acc child Hlen Hnone Hnd Hcap Hm Hrot.
  - exists child. simpl. rewrite app_nil_r, Nat.sub_0_r. done.
  - apply not_elem_of_cons in Hnone as [Hg Hnone].
    assert (g ∉ acc) as Hgacc.
    { intros ?. apply NoDup_app in Hnd as (_ & Hd & _). eapply Hd; [done|left]. }
    assert (NoDup (acc ++ genes)) as Hnd'.
    { apply NoDup_app in Hnd as (? & Hd & [_ ?]%NoDup_cons). apply NoDup_app.
      split_and!; [done| |done]. intros x ? ?. eapply Hd; [done|by right]. }
    assert (g ∈ child ↔ g ∈ seg) as Hin.
    { rewrite <-(elem_of_rotate child p2), Hrot, !elem_of_app, elem_of_replicate.
      naive_solver. }
    simpl. rewrite filter_cons in Hcap |- *.
    destruct (decide (g ∈ child)) as [Hgc|Hgc].
    + apply Hin in Hgc. rewrite decide_False in Hcap |- * by naive_solver.
      by apply IH.
    + assert (g ∉ seg) as Hgs by naive_solver.
      rewrite (decide_True (P := g ∉ seg)) in Hcap |- * by done. simpl in Hcap.
      rewrite (decide_False (P := length child = 0)) by lia.
      destruct (IH (acc ++ [g]) (<[(p2 + length acc) mod length child := g]> child))
        as (child' & Hrun & Hlen' & Hrot').
      * by rewrite length_insert.
      * done.
      * rewrite <-app_assoc. simpl. apply NoDup_app in Hnd as (? & Hd & ?).
        apply NoDup_app. split_and!; [done| |done]. intros x ??. by eapply Hd.
      * rewrite length_app. simpl. lia.
      * done.
      * rewrite Hlen, <-rotate_nat_add_mod, <-Hlen.
        rewrite rotate_insert_l by lia. rewrite Hrot.
        rewrite insert_app_r_alt by lia. rewrite Nat.sub_diag.
        rewrite length_app. simpl.
        replace (m - length acc) with (S (m - (length acc + 1))) by lia.
        simpl. by rewrite <-app_assoc.
      * exists child'. split_and!; [|done|].
        -- rewrite length_app in Hrun. simpl in Hrun.
           by replace (S (p2 + length acc)) with (p2 + (length acc + 1)) by lia.
        -- rewrite Hrot', length_app. simpl.
           set (F := filter _ genes).
           replace (m - (length acc + 1) - length F)
             with (m - length acc - S (length F)) by lia.
           by rewrite <-!app_assoc.
Qed.

(** A list without duplicates that swallows another one is made of that
    one and of what it holds besides. *)
Lemma filter_not_in_Permutation {A} `{EqDecision A} (l seg : list A) :
  NoDup l → NoDup seg → (∀ x, x ∈ seg → x ∈ l) →
  filter (λ x, x ∉ seg) l ++ seg ≡ₚ l.
Proof.
  intros Hl Hseg Hsub.
  rewrite <-(filter_app_complement (λ x, x ∈ seg) l) at 2.
  rewrite Permutation_app_comm. apply Permutation_app; [|done].
  apply NoDup_Permutation; [done|by apply NoDup_filter|].
  intros x. rewrite list_elem_of_filter. naive_solver.
Qed.

Lemma py_slice_sublist {A} (l : list A) (i j : nat) : py_slice l i j `sublist_of` l.
Proof.
  unfold py_slice. etrans; [apply sublist_take|apply sublist_drop].
Qed.

Lemma slice_assign_replicate (n p1 p2 : nat) (seg : Chromosome) :
  p1 ≤ p2 → p2 ≤ n →
  slice_assign (replicate n None) p1 p2 seg
    = replicate p1 None ++ seg ++ replicate (n - p2) None.
Proof.
  intros ??. unfold slice_assign.
  rewrite take_replicate, drop_replicate. by rewrite Nat.min_l by lia.
Qed.

(** One child of the order crossover: [parent_x] gives the order of the
    genes outside the segment, [other] gives the segment. *)
Lemma orderly_insert_valid (p1 p2 : nat) (parent_x other : Chromosome) :
  NoDup parent_x → parent_x ≡ₚ other → None ∉ parent_x →
  p1 ≤ p2 → p2 < length parent_x →
  ∃ child,
    orderly_insert parent_x
      (slice_assign (replicate (length parent_x) None) p1 p2 (py_slice other p1 p2))
      p2 = Ok child ∧
    child ≡ₚ parent_x.
Proof.
  intros Hnd Hperm Hnone Hp Hp2.
  set (n := length parent_x). set (seg := py_slice other p1 p2).
  assert (length other = n) as Hlo by (by rewrite <-Hperm).
  assert (length seg = p2 - p1) as Hseg by (apply length_py_slice; lia).
  assert (NoDup seg) as Hndseg.
  { eapply (sublist_NoDup _ other); [by rewrite <-Hperm|apply py_slice_sublist]. }
  assert (∀ x, x ∈ seg → x ∈ parent_x) as Hsub.
  { intros x Hx. rewrite Hperm. eapply elem_of_sublist; [done|apply py_slice_sublist]. }
  pose proof (filter_not_in_Permutation (rotate p2 parent_x) seg) as Hfilter.
  rewrite (rotate_Permutation p2 parent_x) in Hfilter at 3.
  specialize (Hfilter ltac:(by rewrite rotate_Permutation) Hndseg
                      ltac:(intros x; rewrite elem_of_rotate; apply Hsub)).
  pose proof (Permutation_length Hfilter) as Hflen. rewrite length_app in Hflen.
  fold n in Hflen.
  unfold orderly_insert. rewrite swapped_parent_rotate.
  destruct (orderly_loop_rotated seg n p2 (n - (p2 - p1)) (rotate p2 parent_x) []
              (slice_assign (replicate n None) p1 p2 seg))
    as (child & Hrun & Hlen & Hrot).
  - done.
  - rewrite length_slice_assign; rewrite ?length_replicate; lia.
  - by rewrite elem_of_rotate.
  - simpl. by rewrite rotate_Permutation.
  - simpl. lia.
  - lia.
  - simpl. rewrite Nat.sub_0_r. rewrite slice_assign_replicate by lia.
    unfold rotate. rewrite !length_app, !length_replicate, Hseg.
    replace (p1 + (p2 - p1 + (n - p2))) with n by lia.
    rewrite Nat.mod_small by lia.
    rewrite app_assoc. rewrite drop_app_length', take_app_length'
      by (rewrite length_app, length_replicate; lia).
    rewrite app_assoc, <-replicate_add. do 2 f_equal. lia.
  - exists child. simpl in Hrun, Hrot. rewrite Nat.add_0_r in Hrun.
    split; [exact Hrun|].
    rewrite <-(rotate_Permutation p2 child), Hrot.
    replace (n - (p2 - p1) - 0 - _) with 0 by lia. simpl. done.
Qed.

Lemma order_crossover_at_valid (p1 p2 : nat) (parent1 parent2 : Chromosome) :
  NoDup parent1 → parent1 ≡ₚ parent2 → None ∉ parent1 →
  p1 ≤ p2 → p2 < length parent1 →
  ∃ child1 child2,
    order_crossover_at p1 p2 parent1 parent2 = Ok (child1, child2) ∧
    child1 ≡ₚ parent1 ∧ child2 ≡ₚ parent1.
Proof.
  intros Hnd Hperm Hnone Hp Hp2.
  destruct (orderly_insert_valid p1 p2 parent1 parent2) as (c1 & Hc1 & Hp1);
    [done..|].
  destruct (orderly_insert_valid p1 p2 parent2 parent1) as (c2 & Hc2 & Hp2');
    [by rewrite <-Hperm|done|by rewrite <-Hperm|done|by rewrite <-Hperm|].
  exists c1, c2. unfold order_crossover_at. simpl.
  rewrite Hc1. simpl. rewrite Hc2. simpl. split_and!; [done..|].
  by rewrite Hp2'.
Qed.

(** ** The partially-mapped crossover keeps permutations *)

Lemma py_remove_Permutation {A} `{EqDecision A} (x : A) (l : list A) :
  x ∈ l → l ≡ₚ x :: py_remove x l.
Proof.
  induction l as [|y l IH]; [by intros ?%elem_of_nil|].
  intros Hx. simpl. destruct (decide (y = x)) as [->|Hne]; [done|].
  apply elem_of_cons in Hx as [->|Hx]; [done|].
  rewrite (IH Hx) at 1. apply Permutation_swap.
Qed.

Lemma NoDup_fst_functional {A B} (l : list (A * B)) (x : A) (y1 y2 : B) :
  NoDup (l.*1) → (x, y1) ∈ l → (x, y2) ∈ l → y1 = y2.
Proof.
  induction l as [|[a b] l IH]; [by intros _ ?%elem_of_nil|].
  csimpl. intros [Ha Hnd]%NoDup_cons H1 H2.
  apply elem_of_cons in H1 as [H1|H1]; apply elem_of_cons in H2 as [H2|H2];
    simplify_eq; [done| | |by apply IH].
  - destruct Ha. apply list_elem_of_fmap. by exists (a, y2).
  - destruct Ha. apply list_elem_of_fmap. by exists (a, y1).
Qed.

Lemma resolves_back_mono (ms ms' : list (Gene * Gene)) (r g : Gene) :
  (∀ mv, mv ∈ ms' → mv ∈ ms) → resolves_back ms' r g → resolves_back ms r g.
Proof.
  intros Hsub. induction 1 as [|r x g Hin _ IH]; [constructor|].
  eapply resolves_back_step; [by apply Hsub|done].
Qed.

Lemma resolves_back_snoc (ms : list (Gene * Gene)) (r a g : Gene) :
  resolves_back ms r a → (a, g) ∈ ms → resolves_back ms r g.
Proof.
  induction 1 as [r|r x a Hin _ IH]; intros Hag.
  - eapply resolves_back_step; [done|constructor].
  - eapply resolves_back_step; [done|by apply IH].
Qed.

(** Two genes off the first column that resolve to one gene are equal. *)
Lemma resolves_back_inj (ms : list (Gene * Gene)) (r g g' : Gene) :
  NoDup (ms.*1) → g ∉ ms.*1 → g' ∉ ms.*1 →
  resolves_back ms r g → resolves_back ms r g' → g = g'.
Proof.
  intros Hnd Hg Hg' Hb. revert g' Hg'.
  induction Hb as [r|r x g Hin _ IH]; intros g' Hg' Hb'.
  - destruct Hb' as [|r x g' Hin _]; [done|].
    destruct Hg. apply list_elem_of_fmap. by exists (r, x).
  - destruct Hb' as [r|r x' g' Hin' Hb'].
    + destruct Hg'. apply list_elem_of_fmap. by exists (r, x).
    + rewrite (NoDup_fst_functional ms r x x') in IH by done. by apply IH.
Qed.

(** The counterpart of a gene that is off the first column: it is off
    the second column, it is the gene itself or lies on the first
    column, and it resolves back to the gene. *)
Lemma get_gene_counterpart_off_first (n : nat) (g : Gene)
    (ms : list (Gene * Gene)) :
  length ms ≤ n → NoDup (ms.*1) → g ∉ ms.*1 →
  (get_gene_counterpart g ms ∉ ms.*2) ∧
  (get_gene_counterpart g ms = g ∨ get_gene_counterpart g ms ∈ ms.*1) ∧
  resolves_back ms (get_gene_counterpart g ms) g.
Proof.
  revert g ms. induction n as [|n IH]; intros g ms Hlen Hnd Hg;
    rewrite get_gene_counterpart_step.
  - destruct ms; [|simpl in Hlen; lia]. simpl. split_and!;
      [apply not_elem_of_nil|by left|constructor].
  - destruct (first_mapping g ms) as [mv|] eqn:E.
    + apply first_mapping_Some in E as [Hin Hpair].
      pose proof (py_remove_Permutation mv ms Hin) as Hperm.
      pose proof (py_remove_length mv ms Hin) as Hlen'.
      assert (mv.2 = g ∧ mv.1 ≠ g) as [H2 H1].
      { destruct Hpair as [->| ->]; [|split; [done|]].
        - destruct Hg. apply list_elem_of_fmap. by exists mv.
        - intros Heq. destruct Hg. apply list_elem_of_fmap. by exists mv. }
      assert (other_gene g mv = mv.1) as ->
        by (unfold other_gene; by rewrite decide_True).
      assert (ms.*1 ≡ₚ mv.1 :: (py_remove mv ms).*1) as Hp1
        by (by rewrite Hperm at 1).
      assert (ms.*2 ≡ₚ mv.2 :: (py_remove mv ms).*2) as Hp2
        by (by rewrite Hperm at 1).
      rewrite Hp1 in Hnd. apply NoDup_cons in Hnd as [Hfresh Hnd].
      destruct (IH mv.1 (py_remove mv ms)) as (Ha & Hb & Hc); [lia|done..|].
      set (r := get_gene_counterpart mv.1 (py_remove mv ms)) in *.
      assert (r ∈ ms.*1) as Hr.
      { rewrite Hp1. destruct Hb as [->|?]; [by left|by right]. }
      split_and!.
      * rewrite Hp2, not_elem_of_cons. split; [|done]. rewrite H2.
        intros ->. done.
      * by right.
      * eapply resolves_back_snoc.
        -- eapply resolves_back_mono; [|exact Hc].
           intros x Hx. rewrite Hperm. by right.
        -- by rewrite <-H2, <-surjective_pairing.
    + split_and!; [|by left|constructor].
      rewrite first_mapping_None in E. intros (mv & -> & Hin)%list_elem_of_fmap.
      apply (E mv Hin). by right.
Qed.

(** Reading every pair the other way round changes no counterpart. *)
Lemma first_mapping_flip (g : Gene) (ms : list (Gene * Gene)) :
  first_mapping g (prod_swap <$> ms) = prod_swap <$> first_mapping g ms.
Proof.
  unfold first_mapping. induction ms as [|mv ms IH]; [done|].
  csimpl. destruct (decide (in_pair g mv)) as [Hp|Hp].
  - rewrite decide_True; [done|]. destruct mv, Hp; [by right|by left].
  - rewrite decide_False; [|destruct mv; intros []; destruct Hp; [by right|by left]].
    destruct (list_find _ ms) as [[]|], (list_find _ (prod_swap <$> ms)) as [[]|];
      simplify_eq/=; done.
Qed.

Lemma py_remove_flip (mv : Gene * Gene) (ms : list (Gene * Gene)) :
  py_remove (prod_swap mv) (prod_swap <$> ms) = prod_swap <$> py_remove mv ms.
Proof.
  induction ms as [|x ms IH]; [done|]. csimpl.
  destruct (decide (x = mv)) as [->|Hne].
  - by rewrite decide_True.
  - rewrite decide_False; [by rewrite IH|].
    destruct x, mv. intros [= -> ->]. done.
Qed.

Lemma get_gene_counterpart_flip (g : Gene) (ms : list (Gene * Gene)) :
  get_gene_counterpart g (prod_swap <$> ms) = get_gene_counterpart g ms.
Proof.
  remember (length ms) as n eqn:Hn. revert g ms Hn.
  induction (lt_wf n) as [n _ IH]; intros g ms ->.
  rewrite (get_gene_counterpart_step g ms),
          (get_gene_counterpart_step g (prod_swap <$> ms)).
  rewrite first_mapping_flip.
  destruct (first_mapping g ms) as [mv|] eqn:E; [|done]. simpl.
  apply first_mapping_Some in E as [Hin Hpair].
  rewrite py_remove_flip.
  assert (other_gene g (prod_swap mv) = other_gene g mv) as ->.
  { unfold other_gene. destruct mv as [a b], Hpair; simplify_eq/=;
      repeat case_decide; congruence. }
  eapply IH; [|done]. apply py_remove_length in Hin. lia.
Qed.

Lemma elem_of_py_slice {A} (l : list A) (i j : nat) (x : A) :
  x ∈ py_slice l i j ↔ ∃ k, i ≤ k < j ∧ l !! k = Some x.
Proof.
  unfold py_slice. rewrite list_elem_of_lookup. split.
  - intros [m Hm]. rewrite lookup_take in Hm. case_decide; [|done].
    rewrite lookup_drop in Hm. exists (i + m). split; [lia|done].
  - intros (k & Hk & Hx). exists (k - i).
    rewrite lookup_take_lt by lia. rewrite lookup_drop.
    by replace (i + (k - i)) with k by lia.
Qed.

(** A list that has the length of [l], no duplicates and only elements
    of [l] is a rearrangement of [l]. *)
Lemma NoDup_incl_Permutation {A} (c l : list A) :
  NoDup c → (∀ x, x ∈ c → x ∈ l) → length l ≤ length c → c ≡ₚ l.
Proof.
  intros Hnd Hin Hlen. apply submseteq_length_Permutation; [|done].
  by apply NoDup_submseteq.
Qed.

Section pmx.
(** [parent_x] is the parent that [fill_chromosome] reads, [other] the
    parent whose segment the child starts with; the mapping list pairs
    the segment of [parent_x] (first) with that of [other] (second). *)
Context (p1 p2 : nat) (parent_x other : Chromosome) (ms : list (Gene * Gene)).
Hypothesis Hnd : NoDup parent_x.
Hypothesis Hperm : parent_x ≡ₚ other.
Hypothesis Hnone : None ∉ parent_x.
Hypothesis Hp1 : p1 ≤ p2.
Hypothesis Hp2 : p2 ≤ length parent_x.
Hypothesis Hms1 : ms.*1 = py_slice parent_x p1 p2.
Hypothesis Hms2 : ms.*2 = py_slice other p1 p2.

Local Abbreviation state := (pmx_state p1 p2 parent_x other ms).

Lemma pmx_outside_gene (i : nat) (g : Gene) :
  parent_x !! i = Some g → ¬ (p1 ≤ i < p2) → g ∉ ms.*1.
Proof using All.
  intros Hi Hout. rewrite Hms1, elem_of_py_slice. intros (k & Hk & Hg).
  assert (i = k) by (by eapply NoDup_lookup). lia.
Qed.

Lemma pmx_nodup_first : NoDup (ms.*1).
Proof using All.
  rewrite Hms1. eapply sublist_NoDup; [exact Hnd|apply py_slice_sublist].
Qed.

Lemma pmx_gene_spec (i : nat) (g : Gene) :
  parent_x !! i = Some g → ¬ (p1 ≤ i < p2) →
  (pmx_gene ms (py_slice other p1 p2) g ∉ py_slice other p1 p2) ∧
  (pmx_gene ms (py_slice other p1 p2) g = g ∨
   g ∈ py_slice other p1 p2 ∧
   pmx_gene ms (py_slice other p1 p2) g ∈ py_slice parent_x p1 p2).
Proof using All.
  intros Hi Hout. unfold pmx_gene. case_decide as Hin; [|by split; [|left]].
  destruct (get_gene_counterpart_off_first (length ms) g ms)
    as (Ha & Hb & _); [done|apply pmx_nodup_first|by eapply pmx_outside_gene|].
  rewrite Hms2 in Ha. rewrite Hms1 in Hb. split; [done|].
  destruct Hb as [Hb|Hb]; [by left|by right].
Qed.

Lemma pmx_gene_inj (i j : nat) (g g' : Gene) :
  parent_x !! i = Some g → ¬ (p1 ≤ i < p2) →
  parent_x !! j = Some g' → ¬ (p1 ≤ j < p2) →
  pmx_gene ms (py_slice other p1 p2) g = pmx_gene ms (py_slice other p1 p2) g' →
  g = g'.
Proof using All.
  intros Hi Hiout Hj Hjout Heq.
  pose proof (pmx_outside_gene i g Hi Hiout) as Hg.
  pose proof (pmx_outside_gene j g' Hj Hjout) as Hg'.
  destruct (pmx_gene_spec i g Hi Hiout) as [_ [Hgi|[Hgin Hgi]]];
    destruct (pmx_gene_spec j g' Hj Hjout) as [_ [Hgj|[Hgjn Hgj]]].
  - congruence.
  - rewrite <-Heq, Hgi, <-Hms1 in Hgj. done.
  - rewrite Heq, Hgj, <-Hms1 in Hgi. done.
  - unfold pmx_gene in Heq. rewrite !decide_True in Heq by done.
    destruct (get_gene_counterpart_off_first (length ms) g ms)
      as (_ & _ & Hb); [done|apply pmx_nodup_first|done|].
    destruct (get_gene_counterpart_off_first (length ms) g' ms)
      as (_ & _ & Hb'); [done|apply pmx_nodup_first|done|].
    rewrite Heq in Hb. eapply resolves_back_inj; [apply pmx_nodup_first|done..].
Qed.

Lemma pmx_fill_loop_spec (k i : nat) (c : Chromosome) :
  i + k = length parent_x → length c = length parent_x →
  (∀ j, j < length parent_x → c !! j = Some (state i j)) →
  ∃ c',
    pmx_fill_loop p1 p2 ms parent_x (seq i k) c = Ok c' ∧
    length c' = length parent_x ∧
    ∀ j, j < length parent_x → c' !! j = Some (state (length parent_x) j).
Proof using All.
  revert i c. induction k as [|k IH]; intros i c Hik Hlen Hc.
  - exists c. replace (length parent_x) with i in * by lia. done.
  - simpl. destruct (decide (i < p1 ∨ p2 ≤ i)) as [Hout|Hin].
    + assert (i < length parent_x) as Hi by lia.
      destruct (lookup_lt_is_Some_2 parent_x i Hi) as [g Hg].
      unfold getitem at 1. rewrite Hg. simpl.
      unfold setitem at 1. rewrite decide_True by lia. simpl.
      assert (g ∈ c ↔ g ∈ py_slice other p1 p2) as Hmem.
      { split.
        - intros [j Hj]%list_elem_of_lookup.
          assert (j < length parent_x) as Hjn
            by (rewrite <-Hlen; by eapply lookup_lt_Some).
          rewrite (Hc j Hjn) in Hj. injection Hj as Hj. unfold pmx_state in Hj.
          assert (length other = length parent_x) as Hlo by (by rewrite <-Hperm).
          case_decide as Hseg.
          + apply elem_of_py_slice. exists j. split; [done|].
            rewrite <-Hj. apply list_lookup_lookup_total_lt. lia.
          + case_decide as Hji; [|subst g].
            2: { destruct Hnone. by eapply list_elem_of_lookup_2. }
            destruct (lookup_lt_is_Some_2 parent_x j Hjn) as [g' Hg'].
            rewrite (list_lookup_total_correct _ _ _ Hg') in Hj.
            destruct (pmx_gene_spec j g' Hg' Hseg) as [_ [Hid|[_ Hsegx]]].
            * rewrite Hid in Hj. subst g'.
              assert (i = j) by (by eapply NoDup_lookup). lia.
            * rewrite Hj, <-Hms1 in Hsegx.
              by destruct (pmx_outside_gene i g Hg ltac:(lia)).
        - intros (j & Hj & Hx)%elem_of_py_slice.
          apply list_elem_of_lookup. exists j.
          assert (length other = length parent_x) as Hlo by (by rewrite <-Hperm).
          rewrite Hc by lia. unfold pmx_state. rewrite decide_True by done.
          by rewrite (list_lookup_total_correct _ _ _ Hx). }
      match goal with |- context [<[i:=?v]> c] =>
        assert (v = pmx_gene ms (py_slice other p1 p2) g) as ->
      end.
      { unfold pmx_gene. destruct (decide (g ∈ c)) as [Hgc|Hgc].
        - by rewrite decide_True by naive_solver.
        - by rewrite decide_False by naive_solver. }
      apply (IH (S i)); [lia|by rewrite length_insert|].
      intros j Hj. destruct (decide (j = i)) as [->|Hne].
      * rewrite list_lookup_insert_eq by lia. unfold pmx_state.
        rewrite decide_False by lia. rewrite decide_True by lia.
        by rewrite (list_lookup_total_correct _ _ _ Hg).
      * rewrite list_lookup_insert_ne by done. rewrite Hc by done.
        unfold pmx_state. repeat case_decide; try done; lia.
    + apply (IH (S i)); [lia|done|].
      intros j Hj. rewrite Hc by done. unfold pmx_state.
      repeat case_decide; try done; lia.
Qed.

(** One child of the partially-mapped crossover is a rearrangement of
    the parent it was filled from. *)
Lemma pmx_fill_valid :
  ∃ child,
    pmx_fill p1 p2 ms
      (slice_assign (replicate (length parent_x) None) p1 p2 (py_slice other p1 p2))
      parent_x = Ok child ∧
    child ≡ₚ parent_x.
Proof using All.
  assert (length other = length parent_x) as Hlo by (by rewrite <-Hperm).
  unfold pmx_fill.
  destruct (pmx_fill_loop_spec (length parent_x) 0
    (slice_assign (replicate (length parent_x) None) p1 p2 (py_slice other p1 p2)))
    as (child & Hrun & Hlen & Hchild).
  - done.
  - rewrite length_slice_assign; rewrite ?length_replicate; try lia.
    rewrite length_py_slice; lia.
  - intros j Hj. rewrite slice_assign_replicate by lia. unfold pmx_state.
    destruct (decide (p1 ≤ j < p2)) as [Hseg|Hseg].
    + rewrite lookup_app_r by (rewrite length_replicate; lia).
      rewrite length_replicate.
      rewrite lookup_app_l by (rewrite length_py_slice; lia).
      unfold py_slice. rewrite lookup_take_lt by lia. rewrite lookup_drop.
      replace (p1 + (j - p1)) with j by lia.
      apply list_lookup_lookup_total_lt. lia.
    + rewrite decide_False by lia.
      destruct (decide (j < p1)).
      * rewrite lookup_app_l by (rewrite length_replicate; lia).
        by apply lookup_replicate_2.
      * rewrite lookup_app_r by (rewrite length_replicate; lia).
        rewrite lookup_app_r by (rewrite length_replicate, length_py_slice; lia).
        apply lookup_replicate_2.
        rewrite length_replicate, length_py_slice by lia. lia.
  - exists child. split; [done|].
    assert (∀ j x, child !! j = Some x → j < length parent_x ∧
        x = state (length parent_x) j) as Hget.
    { intros j x Hx. assert (j < length parent_x) as Hj
        by (rewrite <-Hlen; by eapply lookup_lt_Some).
      rewrite (Hchild j Hj) in Hx. by injection Hx as <-. }
    assert (∀ j, j < length parent_x → ¬ (p1 ≤ j < p2) →
        ∃ g, parent_x !! j = Some g ∧
             state (length parent_x) j = pmx_gene ms (py_slice other p1 p2) g)
      as Hout.
    { intros j Hj Hseg. destruct (lookup_lt_is_Some_2 parent_x j Hj) as [g Hg].
      exists g. split; [done|]. unfold pmx_state.
      rewrite decide_False, decide_True by done.
      by rewrite (list_lookup_total_correct _ _ _ Hg). }
    assert (∀ j, p1 ≤ j < p2 →
        other !! j = Some (state (length parent_x) j) ∧
        state (length parent_x) j ∈ py_slice other p1 p2) as Hin.
    { intros j Hseg. unfold pmx_state. rewrite decide_True by done.
      assert (other !! j = Some (other !!! j)) as Hj
        by (apply list_lookup_lookup_total_lt; lia).
      split; [done|]. apply elem_of_py_slice. by exists j. }
    apply NoDup_incl_Permutation; [| |lia].
    + apply NoDup_alt. intros i j x [Hi ->]%Hget [Hj Heq]%Hget.
      destruct (decide (p1 ≤ i < p2)) as [Hsi|Hsi];
        destruct (decide (p1 ≤ j < p2)) as [Hsj|Hsj].
      * destruct (Hin i Hsi) as [Hoi _], (Hin j Hsj) as [Hoj _].
        rewrite <-Heq in Hoj. rewrite Hperm in Hnd. by eapply NoDup_lookup.
      * destruct (Hin i Hsi) as [_ Hoi], (Hout j Hj Hsj) as (g & Hg & Hgj).
        rewrite Heq, Hgj in Hoi. by destruct (pmx_gene_spec j g Hg Hsj) as [? _].
      * destruct (Hin j Hsj) as [_ Hoj], (Hout i Hi Hsi) as (g & Hg & Hgi).
        rewrite <-Heq, Hgi in Hoj. by destruct (pmx_gene_spec i g Hg Hsi) as [? _].
      * destruct (Hout i Hi Hsi) as (g & Hg & Hgi), (Hout j Hj Hsj) as (g' & Hg' & Hgj).
        rewrite Hgi, Hgj in Heq.
        assert (g = g') as <- by (by eapply pmx_gene_inj).
        by eapply NoDup_lookup.
    + intros x [j Hx]%list_elem_of_lookup. apply Hget in Hx as [Hj ->].
      destruct (decide (p1 ≤ j < p2)) as [Hseg|Hseg].
      * destruct (Hin j Hseg) as [Hoj _].
        assert (∀ y, y ∈ other → y ∈ parent_x) as Hsub
          by (intros y; by rewrite Hperm).
        apply Hsub. by eapply list_elem_of_lookup_2.
      * destruct (Hout j Hj Hseg) as (g & Hg & ->).
        destruct (pmx_gene_spec j g Hg Hseg) as [_ [->|[_ Hsx]]].
        -- by eapply list_elem_of_lookup_2.
        -- eapply elem_of_sublist; [done|apply py_slice_sublist].
Qed.

End pmx.

Lemma pmx_fill_loop_flip (p1 p2 : nat) (ms : list (Gene * Gene))
    (parent_x : Chromosome) (indices : list nat) (c : Chromosome) :
  pmx_fill_loop p1 p2 (prod_swap <$> ms) parent_x indices c
    = pmx_fill_loop p1 p2 ms parent_x indices c.
Proof.
  revert c. induction indices as [|i rest IH]; intros c; [done|]. simpl.
  case_decide; [|done]. destruct (getitem parent_x i) as [g| |]; simpl; [|done..].
  rewrite get_gene_counterpart_flip.
  destruct (setitem c i _); simpl; done.
Qed.

Lemma partially_mapped_crossover_at_valid (p1 p2 : nat)
    (parent1 parent2 : Chromosome) :
  NoDup parent1 → parent1 ≡ₚ parent2 → None ∉ parent1 →
  p1 ≤ p2 → p2 ≤ length parent1 →
  ∃ child1 child2,
    partially_mapped_crossover_at p1 p2 parent1 parent2 = Ok (child1, child2) ∧
    child1 ≡ₚ parent1 ∧ child2 ≡ₚ parent1.
Proof.
  intros Hnd Hperm Hnone Hp Hp2.
  assert (length parent2 = length parent1) as Hlen by (by rewrite <-Hperm).
  assert (length (py_slice parent1 p1 p2) = length (py_slice parent2 p1 p2)) as Hseg
    by (rewrite !length_py_slice; lia).
  set (ms := zip (py_slice parent1 p1 p2) (py_slice parent2 p1 p2)).
  destruct (pmx_fill_valid p1 p2 parent1 parent2 ms) as (c1 & Hc1 & Hperm1);
    [done..| | |].
  { apply fst_zip. lia. }
  { apply snd_zip. lia. }
  destruct (pmx_fill_valid p1 p2 parent2 parent1 (prod_swap <$> ms))
    as (c2 & Hc2 & Hperm2);
    [by rewrite <-Hperm|done|by rewrite <-Hperm|done|lia| | |].
  { rewrite <-list_fmap_compose.
    replace ((fst ∘ prod_swap) <$> ms) with (ms.*2) by (by apply list_fmap_ext).
    apply snd_zip. lia. }
  { rewrite <-list_fmap_compose.
    replace ((snd ∘ prod_swap) <$> ms) with (ms.*1) by (by apply list_fmap_ext).
    apply fst_zip. lia. }
  exists c1, c2. unfold partially_mapped_crossover_at. simpl. fold ms.
  rewrite Hc1. simpl. unfold pmx_fill in Hc2 |- *.
  rewrite pmx_fill_loop_flip, Hlen in Hc2. rewrite Hlen, Hc2. simpl.
  split_and!; [done..|]. by rewrite Hperm2.
Qed.

(** ** The cycle crossover keeps permutations *)

Lemma NoDup_bounded_length (l : list nat) (n : nat) :
  NoDup l → (∀ x, x ∈ l → x < n) → length l ≤ n.
Proof.
  intros Hnd Hb. trans (length (seq 0 n)); [|by rewrite length_seq].
  apply submseteq_length.
  apply NoDup_submseteq; [done|]. intros x Hx. apply elem_of_seq.
  specialize (Hb x Hx). lia.
Qed.

Lemma cx_fill_loop_spec (parent_x : Chromosome) (k i : nat) (c : Chromosome) :
  i + k = length c → length parent_x = length c →
  ∃ c',
    cx_fill_loop parent_x (seq i k) c = Ok c' ∧
    length c' = length c ∧
    ∀ j, j < length c →
      c' !! j =
        if decide (i ≤ j)
        then match c !!! j with None => parent_x !! j | Some _ => c !! j end
        else c !! j.
Proof.
  revert i c. induction k as [|k IH]; intros i c Hik Hlen.
  - exists c. split_and!; [done..|]. intros j Hj. rewrite decide_False by lia. done.
  - simpl. assert (i < length c) as Hi by lia.
    destruct (lookup_lt_is_Some_2 c i Hi) as [gene Hg].
    rewrite (getitem_Some _ _ _ Hg). simpl. destruct gene as [city|].
    + destruct (IH (S i) c) as (c' & Hrun & Hlen' & Hc'); [lia|done|].
      exists c'. split_and!; [done..|]. intros j Hj. rewrite (Hc' j Hj).
      destruct (decide (j = i)) as [->|Hne].
      * rewrite decide_False, decide_True by lia.
        by rewrite (list_lookup_total_correct _ _ _ Hg).
      * repeat case_decide; try done; lia.
    + assert (i < length parent_x) as Hip by lia.
      destruct (lookup_lt_is_Some_2 parent_x i Hip) as [g Hpg].
      rewrite (getitem_Some _ _ _ Hpg). simpl.
      rewrite setitem_lt by done. simpl.
      destruct (IH (S i) (<[i:=g]> c)) as (c' & Hrun & Hlen' & Hc');
        [by rewrite length_insert; lia|by rewrite length_insert|].
      rewrite length_insert in Hlen', Hc'.
      exists c'. split_and!; [done..|]. intros j Hj. rewrite (Hc' j Hj).
      destruct (decide (j = i)) as [->|Hne].
      * rewrite decide_False, decide_True by lia.
        rewrite list_lookup_insert_eq by done.
        by rewrite (list_lookup_total_correct _ _ _ Hg).
      * rewrite list_lookup_insert_ne by done.
        rewrite list_lookup_total_insert_ne by done.
        repeat case_decide; try done; lia.
Qed.

Section cx.
Context (parent1 parent2 : Chromosome).
Hypothesis Hnd : NoDup parent1.
Hypothesis Hperm : parent1 ≡ₚ parent2.
Hypothesis Hnone : None ∉ parent1.

Local Abbreviation follows := (follows parent1 parent2).
Local Abbreviation walk := (walk parent1 parent2).

Lemma cx_length2 : length parent2 = length parent1.
Proof using Hperm. by rewrite <-Hperm. Qed.

Lemma follows_bound (x y : nat) :
  follows x y → x < length parent1 ∧ y < length parent1.
Proof using Hperm.
  intros (g & Hx & Hy). apply lookup_lt_Some in Hx, Hy.
  rewrite cx_length2 in Hy. done.
Qed.

Lemma follows_functional (x y y' : nat) : follows x y → follows x y' → y = y'.
Proof using Hnd Hperm.
  intros (g & Hx & Hy) (g' & Hx' & Hy'). simplify_eq.
  rewrite Hperm in Hnd. by eapply NoDup_lookup.
Qed.

Lemma follows_injective (x x' y : nat) : follows x y → follows x' y → x = x'.
Proof using Hnd.
  intros (g & Hx & Hy) (g' & Hx' & Hy'). simplify_eq. by eapply NoDup_lookup.
Qed.

Lemma py_index_follows (index : nat) (g : Gene) :
  parent1 !! index = Some g →
  ∃ index', py_index parent2 g = Ok index' ∧ follows index index'.
Proof using Hperm.
  intros Hg. unfold py_index.
  assert (g ∈ parent2) as Hin
    by (rewrite <-Hperm; by eapply list_elem_of_lookup_2).
  destruct (list_find_elem_of (λ y, y = g) parent2 g Hin eq_refl) as [[j y] Hfind].
  rewrite Hfind. exists j. split; [done|].
  apply list_find_Some in Hfind as (Hj & -> & _). by exists g.
Qed.

Lemma walk_zero (path : list nat) (index : nat) :
  walk path index → 0 ∈ path ++ [index].
Proof.
  induction 1 as [|path index index' _ IH _]; [by left|].
  apply elem_of_app. by left.
Qed.

Lemma walk_pred (path : list nat) (index y : nat) :
  walk path index → y ∈ path ++ [index] →
  y = 0 ∨ ∃ x, x ∈ path ∧ follows x y.
Proof.
  induction 1 as [|path index index' _ IH Hf]; intros Hy.
  - left. apply list_elem_of_singleton in Hy. done.
  - apply elem_of_app in Hy as [Hy|Hy].
    + destruct (IH Hy) as [?|(x & Hx & ?)]; [by left|right].
      exists x. split; [|done]. apply elem_of_app. by left.
    + apply list_elem_of_singleton in Hy as ->. right. exists index.
      split; [|done]. apply elem_of_app. right. by left.
Qed.

Lemma walk_succ (path : list nat) (index x : nat) :
  walk path index → x ∈ path → ∃ y, y ∈ path ++ [index] ∧ follows x y.
Proof.
  induction 1 as [|path index index' _ IH Hf]; intros Hx.
  - by apply elem_of_nil in Hx.
  - apply elem_of_app in Hx as [Hx|Hx].
    + destruct (IH Hx) as (y & Hy & ?). exists y. split; [|done].
      apply elem_of_app. by left.
    + apply list_elem_of_singleton in Hx as ->. exists index'.
      split; [|done]. apply elem_of_app. right. by left.
Qed.

Lemma walk_bound (path : list nat) (index x : nat) :
  0 < length parent1 → walk path index → x ∈ path ++ [index] →
  x < length parent1.
Proof using Hperm.
  intros Hn Hw Hx. destruct (walk_pred path index x Hw Hx) as [->|(x' & _ & Hf)];
    [done|]. by apply follows_bound in Hf as [_ ?].
Qed.

Lemma cycle_loop_spec (fuel : nat) (path : list nat) (index : nat)
    (first g : Gene) (c1 c2 : Chromosome) :
  parent1 !! 0 = Some first →
  walk path index → NoDup (path ++ [index]) →
  length parent1 ≤ length path + fuel →
  parent1 !! index = Some g →
  length c1 = length parent1 → length c2 = length parent1 →
  (∀ j, j < length parent1 → c1 !! j = Some (visited_state path parent1 j)) →
  (∀ j, j < length parent1 → c2 !! j = Some (visited_state path parent2 j)) →
  ∃ visited c1' c2',
    cycle_loop fuel parent1 parent2 first index g c1 c2 = Ok (c1', c2') ∧
    length c1' = length parent1 ∧ length c2' = length parent1 ∧
    (∀ j, j < length parent1 → c1' !! j = Some (visited_state visited parent1 j)) ∧
    (∀ j, j < length parent1 → c2' !! j = Some (visited_state visited parent2 j)) ∧
    (∀ x y, x ∈ visited → follows x y → y ∈ visited) ∧
    (∀ x y, y ∈ visited → follows x y → x ∈ visited).
Proof using Hnd Hperm.
  intros Hfirst. revert path index g c1 c2.
  induction fuel as [|fuel IH];
    intros path index g c1 c2 Hw Hndp Hfuel Hg Hl1 Hl2 Hc1 Hc2.
  { assert (0 < length parent1) as Hn by (by eapply lookup_lt_Some).
    pose proof (NoDup_bounded_length _ (length parent1) Hndp
                  (λ x, walk_bound path index x Hn Hw)) as Hle.
    rewrite length_app in Hle. simpl in Hle. lia. }
  assert (0 < length parent1) as Hn by (by eapply lookup_lt_Some).
  assert (index < length parent1) as Hi by (by eapply lookup_lt_Some).
  assert (index < length parent2) as Hi2 by (by rewrite cx_length2).
  destruct (lookup_lt_is_Some_2 parent2 index Hi2) as [q Hq].
  destruct (py_index_follows index g Hg) as (index' & Hidx & Hf).
  pose proof (follows_bound _ _ Hf) as [_ Hi'].
  destruct (lookup_lt_is_Some_2 parent1 index' Hi') as [g' Hg'].
  simpl. rewrite (getitem_Some _ _ _ Hq). simpl.
  rewrite !setitem_lt by lia. simpl.
  rewrite Hidx. simpl. rewrite (getitem_Some _ _ _ Hg'). simpl.
  assert (∀ (A : Chromosome) (c : Chromosome) (a : Gene),
    length c = length parent1 → A !! index = Some a →
    (∀ j, j < length parent1 → c !! j = Some (visited_state path A j)) →
    ∀ j, j < length parent1 →
      <[index:=a]> c !! j = Some (visited_state (path ++ [index]) A j)) as Hstep.
  { intros A c a Hlc Ha Hc j Hj. unfold visited_state.
    destruct (decide (j = index)) as [->|Hne].
    - rewrite list_lookup_insert_eq by lia. rewrite decide_True.
      + by rewrite (list_lookup_total_correct _ _ _ Ha).
      + apply elem_of_app. right. by left.
    - rewrite list_lookup_insert_ne by done. rewrite (Hc j Hj).
      unfold visited_state. destruct (decide (j ∈ path)) as [Hin|Hin].
      + rewrite decide_True; [done|]. apply elem_of_app. by left.
      + rewrite decide_False; [done|]. rewrite elem_of_app, list_elem_of_singleton.
        naive_solver. }
  destruct (decide (g' = first)) as [->|Hne].
  - assert (index' = 0) as -> by (by eapply (NoDup_lookup parent1)).
    exists (path ++ [index]), (<[index:=g]> c1), (<[index:=q]> c2).
    split_and!; [done|by rewrite length_insert..| | | |].
    + by apply Hstep.
    + by apply Hstep.
    + intros x y Hx Hxy. apply elem_of_app in Hx as [Hx|Hx].
      * destruct (walk_succ path index x Hw Hx) as (y' & Hy' & Hxy').
        by rewrite (follows_functional x y y').
      * apply list_elem_of_singleton in Hx as ->.
        rewrite (follows_functional index y 0) by done. by apply walk_zero.
    + intros x y Hy Hxy.
      destruct (walk_pred path index y Hw Hy) as [->|(x' & Hx' & Hxy')].
      * rewrite (follows_injective x index 0) by done.
        apply elem_of_app. right. by left.
      * rewrite (follows_injective x x' y) by done. apply elem_of_app. by left.
  - apply (IH (path ++ [index]) index' g').
    + by apply walk_next.
    + apply NoDup_app. split_and!; [done| |apply NoDup_singleton].
      intros y Hy ->%list_elem_of_singleton.
      destruct (walk_pred path index index' Hw Hy) as [->|(x' & Hx' & Hxy')].
      * destruct Hne. congruence.
      * rewrite (follows_injective x' index index') in Hx' by done.
        apply NoDup_app in Hndp as (_ & Hdisj & _).
        apply (Hdisj index Hx'). by left.
    + rewrite length_app. simpl. lia.
    + done.
    + by rewrite length_insert.
    + by rewrite length_insert.
    + by apply Hstep.
    + by apply Hstep.
Qed.

Lemma cycle_crossover_at_valid :
  0 < length parent1 →
  ∃ child1 child2,
    cycle_crossover_at parent1 parent2 = Ok (child1, child2) ∧
    child1 ≡ₚ parent1 ∧ child2 ≡ₚ parent1.
Proof using Hnd Hperm Hnone.
  intros Hn. pose proof cx_length2 as Hlen2.
  destruct (lookup_lt_is_Some_2 parent1 0 Hn) as [first Hfirst].
  unfold cycle_crossover_at. simpl. rewrite (getitem_Some _ _ _ Hfirst). simpl.
  destruct (cycle_loop_spec (length parent1) [] 0 first first
              (replicate (length parent1) None) (replicate (length parent1) None))
    as (I & c1 & c2 & Hrun & Hl1 & Hl2 & Hc1 & Hc2 & Hfwd & Hbwd);
    [done|constructor|apply NoDup_singleton|simpl; lia|done
    |by rewrite length_replicate..| | |].
  { intros j Hj. by rewrite lookup_replicate_2. }
  { intros j Hj. by rewrite lookup_replicate_2. }
  rewrite Hrun. simpl.
  assert (None ∉ parent2) as Hnone2 by (by rewrite <-Hperm).
  assert (∀ (A B c : Chromosome),
    length A = length parent1 → length B = length parent1 →
    length c = length parent1 → None ∉ A →
    (∀ j, j < length parent1 → c !! j = Some (visited_state I A j)) →
    ∃ c', cx_fill c B = Ok c' ∧ length c' = length parent1 ∧
          ∀ j, j < length parent1 →
            c' !! j = if decide (j ∈ I) then A !! j else B !! j) as Hfill.
  { intros A B c HA HB Hc HnA Hst. unfold cx_fill.
    destruct (cx_fill_loop_spec B (length c) 0 c) as (c' & Hr & Hl & Hc');
      [done|lia|].
    exists c'. split_and!; [done|lia|]. intros j Hj. rewrite Hc' by lia.
    rewrite decide_True by lia.
    rewrite (list_lookup_total_correct _ _ _ (Hst j Hj)), (Hst j Hj).
    unfold visited_state. case_decide; [|done].
    assert (A !! j = Some (A !!! j)) as HAj
      by (apply list_lookup_lookup_total_lt; lia).
    destruct (A !!! j) eqn:E; [done|].
    destruct HnA. by eapply list_elem_of_lookup_2. }
  destruct (Hfill parent1 parent2 c1) as (d1 & Hd1 & Hld1 & Hd1'); [done..|].
  destruct (Hfill parent2 parent1 c2) as (d2 & Hd2 & Hld2 & Hd2'); [done..|].
  rewrite Hd1. simpl. rewrite Hd2. simpl. exists d1, d2. split; [done|].
  assert (∀ x, x ∈ parent2 → x ∈ parent1) as Hsub by (intros x; by rewrite Hperm).
  assert (NoDup parent2) as Hnd2 by (by rewrite <-Hperm).
  split.
  - apply NoDup_incl_Permutation; [| |lia].
    + apply NoDup_alt. intros a b x Ha Hb.
      assert (a < length parent1) as Hal
        by (rewrite <-Hld1; by eapply lookup_lt_Some).
      assert (b < length parent1) as Hbl
        by (rewrite <-Hld1; by eapply lookup_lt_Some).
      rewrite Hd1' in Ha, Hb by done.
      destruct (decide (a ∈ I)) as [HaI|HaI]; destruct (decide (b ∈ I)) as [HbI|HbI];
        simpl in Ha, Hb.
      * by eapply (NoDup_lookup parent1).
      * destruct HbI. apply (Hfwd a b HaI). by exists x.
      * destruct HaI. apply (Hfwd b a HbI). by exists x.
      * by eapply (NoDup_lookup parent2).
    + intros x [j Hx]%list_elem_of_lookup.
      assert (j < length parent1) as Hj
        by (rewrite <-Hld1; by eapply lookup_lt_Some).
      rewrite Hd1' in Hx by done. case_decide.
      * by eapply list_elem_of_lookup_2.
      * apply Hsub. by eapply list_elem_of_lookup_2.
  - apply NoDup_incl_Permutation; [| |lia].
    + apply NoDup_alt. intros a b x Ha Hb.
      assert (a < length parent1) as Hal
        by (rewrite <-Hld2; by eapply lookup_lt_Some).
      assert (b < length parent1) as Hbl
        by (rewrite <-Hld2; by eapply lookup_lt_Some).
      rewrite Hd2' in Ha, Hb by done.
      destruct (decide (a ∈ I)) as [HaI|HaI]; destruct (decide (b ∈ I)) as [HbI|HbI];
        simpl in Ha, Hb.
      * by eapply (NoDup_lookup parent2).
      * destruct HbI. apply (Hbwd b a HaI). by exists x.
      * destruct HaI. apply (Hbwd a b HbI). by exists x.
      * by eapply (NoDup_lookup parent1).
    + intros x [j Hx]%list_elem_of_lookup.
      assert (j < length parent1) as Hj
        by (rewrite <-Hld2; by eapply lookup_lt_Some).
      rewrite Hd2' in Hx by done. case_decide.
      * apply Hsub. by eapply list_elem_of_lookup_2.
      * by eapply list_elem_of_lookup_2.
Qed.

End cx.

(** ** Mutation and crossover keep the chromosome a permutation *)

Lemma M_bind_inv {A B} (m : M A) (k : A → M B) (w w' : world) (r : result B) :
  (m ≫= k) w = (r, w') →
  (∃ a w1, m w = (Ok a, w1) ∧ k a w1 = (r, w')) ∨
  (∃ e, m w = (Raise e, w') ∧ r = Raise e) ∨
  (m w = (Hang, w') ∧ r = Hang).
Proof.
  unfold mbind, M_bind. destruct (m w) as [[a|e|] w1]; intros H.
  - left. eauto.
  - right. left. injection H as <- <-. eauto.
  - right. right. by injection H as <- <-.
Qed.

(** A mutation method that fails leaves the store as it was. *)
Lemma mutation_method_inv f self w w' r :
  mutation_method f self w = (r, w') →
  r = Ok tt ∨ genomes w' = genomes w.
Proof.
  unfold mutation_method. intros Hrun.
  apply M_bind_inv in Hrun as [(c & w1 & Hc & Hrun)|[(e & Hc & _)|[Hc _]]].
  - unfold get_chromosome in Hc. destruct (genomes w !! self) eqn:E; [|done].
    injection Hc as <- <-.
    apply M_bind_inv in Hrun as [(p & w2 & Hs & Hrun)|[(e & Hs & _)|[Hs _]]].
    + unfold set_chromosome in Hrun. apply sample2_Ok in Hs as (_ & _ & _ & Hg).
      case_decide as Hlt; [injection Hrun as <- _; by left|].
      destruct Hlt. rewrite Hg. by eapply lookup_lt_Some.
    + unfold sample2 in Hs. case_decide; [injection Hs as _ <-; by right|].
      apply M_bind_inv in Hs as [(d1 & w2 & Hd1 & Hs)|[(? & Hd1 & _)|[Hd1 _]]];
        [|unfold draw in Hd1; destruct (tape w); done..].
      apply M_bind_inv in Hs as [(d2 & w3 & Hd2 & Hs)|[(? & Hd2 & _)|[Hd2 _]]];
        [done|unfold draw in Hd2; destruct (tape w2); done..].
    + unfold sample2 in Hs. case_decide; [done|].
      apply M_bind_inv in Hs as [(d1 & w2 & Hd1 & Hs)|[(? & Hd1 & _)|[Hd1 _]]];
        [|unfold draw in Hd1; destruct (tape w); done..].
      apply M_bind_inv in Hs as [(d2 & w3 & Hd2 & Hs)|[(? & Hd2 & _)|[Hd2 _]]];
        [done|unfold draw in Hd2; destruct (tape w2); done..].
  - unfold get_chromosome in Hc. destruct (genomes w !! self); [done|].
    injection Hc as _ <-. by right.
  - unfold get_chromosome in Hc. by destruct (genomes w !! self).
Qed.

(** After [mutate], however it ends, the genome holds a rearrangement
    of the chromosome it held, and no other genome has changed. *)
Lemma mutate_keeps self type w w' r c :
  genomes w !! self = Some c →
  mutate self type w = (r, w') → rearranges self w w'.
Proof.
  intros Hc Hrun.
  assert (∀ f w1 w2 r,
    genomes w1 = genomes w →
    (∀ p1 p2 c, p1 < length c → p2 < length c → p1 ≠ p2 → f (p1, p2) c ≡ₚ c) →
    mutation_method f self w1 = (r, w2) → rearranges self w w2) as Hmethod.
  { intros f w1 w2 r0 Hg Hf Hm.
    destruct (mutation_method_inv _ _ _ _ _ Hm) as [->|Hsame].
    - apply mutation_method_rearranges in Hm; [|done].
      destruct Hm as (c0 & c' & ? & ? & ?). exists c0, c'. by rewrite <-Hg.
    - exists c, c. split_and!; [done..|]. rewrite Hsame, Hg.
      by rewrite list_insert_id. }
  assert (∀ p1 p2 c, p1 < length c → p2 < length c → p1 ≠ p2 →
    swap_at p1 p2 c ≡ₚ c) as Hswap by (intros; by apply swap_genes_perm).
  assert (∀ p1 p2 c, p1 < length c → p2 < length c → p1 ≠ p2 →
      inversion_at (sort2 (p1, p2)).1 (sort2 (p1, p2)).2 c ≡ₚ c) as Hinv
    by (intros; apply inversion_at_perm; simpl; lia).
  assert (∀ p1 p2 c, p1 < length c → p2 < length c → p1 ≠ p2 →
    two_opt_at p1 p2 c ≡ₚ c) as Hopt by (intros; by apply two_opt_at_perm).
  unfold mutate in Hrun. repeat case_decide.
  - by eapply (Hmethod (λ p, swap_at p.1 p.2) w).
  - by eapply (Hmethod (λ p, inversion_at (sort2 p).1 (sort2 p).2) w).
  - by eapply (Hmethod (λ p, two_opt_at p.1 p.2) w).
  - unfold randrange in Hrun. simpl in Hrun.
    apply M_bind_inv in Hrun as [(rand & w1 & Hr & Hrun)|[(e & Hr & _)|[Hr _]]].
    + apply M_bind_Ok in Hr as (d & w0 & Hd%draw_Ok & [-> ->]%M_ret_Ok).
      repeat case_decide.
      * by eapply (Hmethod (λ p, swap_at p.1 p.2) w0).
      * by eapply (Hmethod (λ p, inversion_at (sort2 p).1 (sort2 p).2) w0).
      * by eapply (Hmethod (λ p, two_opt_at p.1 p.2) w0).
      * injection Hrun as _ <-. exists c, c. split_and!; [done..|].
        by rewrite Hd, list_insert_id.
    + apply M_bind_inv in Hr as [(d & w0 & Hd & Hr)|[(? & Hd & _)|[Hd _]]];
        [done|unfold draw in Hd; destruct (tape w); done..].
    + apply M_bind_inv in Hr as [(d & w0 & Hd & Hr)|[(? & Hd & _)|[Hd _]]];
        [done|unfold draw in Hd; destruct (tape w); done..].
  - injection Hrun as _ <-. exists c, c. split_and!; [done..|].
    by rewrite list_insert_id.
Qed.

Lemma rearranges_lookup self w w' :
  rearranges self w w' →
  length (genomes w') = length (genomes w) ∧
  (∀ g, g ≠ self → genomes w' !! g = genomes w !! g) ∧
  ∃ c c', genomes w !! self = Some c ∧ genomes w' !! self = Some c' ∧ c' ≡ₚ c.
Proof.
  intros (c & c' & Hc & Hperm & Hg). rewrite Hg. split_and!.
  - by rewrite length_insert.
  - intros g Hne. by rewrite list_lookup_insert_ne.
  - exists c, c'. split_and!; [done| |done].
    apply list_lookup_insert_eq. by eapply lookup_lt_Some.
Qed.

Lemma crossover_Ok parent1 parent2 c_type w w' child1 child2 :
  crossover parent1 parent2 c_type w = (Ok (Some (child1, child2)), w') →
  ∃ c1 c2 d1 d2,
    genomes w !! parent1 = Some c1 ∧ genomes w !! parent2 = Some c2 ∧
    allocates child1 child2 d1 d2 w w' ∧
    ((c_type = "ox" ∧ ∃ p1 p2, p1 ≤ p2 ∧ p2 < length c1 ∧
        order_crossover_at p1 p2 c1 c2 = Ok (d1, d2)) ∨
     (c_type = "pmx" ∧ ∃ p1 p2, p1 ≤ p2 ∧ p2 < length c1 ∧
        partially_mapped_crossover_at p1 p2 c1 c2 = Ok (d1, d2)) ∨
     (c_type = "cx" ∧ cycle_crossover_at c1 c2 = Ok (d1, d2))).
Proof.
  unfold crossover, allocates. intros Hrun.
  repeat case_decide; [| | |by apply M_ret_Ok in Hrun as [? _]].
  - unfold order_crossover in Hrun. inv_run.
    match goal with H : sample2 _ _ = _ |- _ =>
      apply sample2_Ok in H as (? & ? & ? & Hg) end.
    rename select (_ * _)%type into ch. destruct ch as [d1 d2].
    eexists _, _, d1, d2. split; [done|]. split; [done|]. split; [|left].
    + simpl. rewrite Hg, length_app. simpl.
      split_and!; [done|lia|by rewrite <-app_assoc].
    + split; [done|]. eexists _, _. split_and!; [| |done]; simpl; lia.
  - unfold partially_mapped_crossover in Hrun. inv_run.
    match goal with H : sample2 _ _ = _ |- _ =>
      apply sample2_Ok in H as (? & ? & ? & Hg) end.
    rename select (_ * _)%type into ch. destruct ch as [d1 d2].
    eexists _, _, d1, d2. split; [done|]. split; [done|]. split; [|right; left].
    + simpl. rewrite Hg, length_app. simpl.
      split_and!; [done|lia|by rewrite <-app_assoc].
    + split; [done|]. eexists _, _. split_and!; [| |done]; simpl; lia.
  - unfold cycle_crossover in Hrun. inv_run.
    rename select (_ * _)%type into ch. destruct ch as [d1 d2].
    eexists _, _, d1, d2. split; [done|]. split; [done|].
    split; [|right; right; done].
    simpl. rewrite length_app. simpl.
    split_and!; [done|lia|by rewrite <-app_assoc].
Qed.

Lemma crossover_children_valid parent1 parent2 c_type w w' child1 child2 c1 :
  crossover parent1 parent2 c_type w = (Ok (Some (child1, child2)), w') →
  genomes w !! parent1 = Some c1 →
  (∃ c2, genomes w !! parent2 = Some c2 ∧ c1 ≡ₚ c2) →
  NoDup c1 → None ∉ c1 →
  ∃ d1 d2, allocates child1 child2 d1 d2 w w' ∧ d1 ≡ₚ c1 ∧ d2 ≡ₚ c1.
Proof.
  intros Hrun Hc1 (c2 & Hc2 & Hperm) Hnd Hnone.
  apply crossover_Ok in Hrun
    as (c1' & c2' & d1 & d2 & Hc1' & Hc2' & Halloc & Hkernel).
  rewrite Hc1 in Hc1'. rewrite Hc2 in Hc2'.
  injection Hc1' as <-. injection Hc2' as <-.
  exists d1, d2. split; [done|].
  destruct Hkernel as [(_ & p1 & p2 & ? & ? & Hk)|[(_ & p1 & p2 & ? & ? & Hk)|[_ Hk]]].
  - destruct (order_crossover_at_valid p1 p2 c1 c2) as (? & ? & Hk' & ? & ?);
      [done..|]. rewrite Hk in Hk'. by injection Hk' as <- <-.
  - destruct (partially_mapped_crossover_at_valid p1 p2 c1 c2)
      as (? & ? & Hk' & ? & ?); [done..|lia|].
    rewrite Hk in Hk'. by injection Hk' as <- <-.
  - destruct c1 as [|g c1]; [by destruct c2|].
    destruct (cycle_crossover_at_valid (g :: c1) c2) as (? & ? & Hk' & ? & ?);
      [done..|simpl; lia|]. rewrite Hk in Hk'. by injection Hk' as <- <-.
Qed.


Lemma chromosome_of_valid (cities : list City) (c : Chromosome) :
  NoDup cities → c ≡ₚ chromosome_of cities →
  NoDup c ∧ (None ∉ c) ∧ length c = length cities.
Proof.
  intros Hnd Hperm. rewrite Hperm. unfold chromosome_of. split_and!.
  - by apply (NoDup_fmap_2 Some).
  - intros (x & ? & _)%list_elem_of_fmap. done.
  - by rewrite length_fmap.
Qed.



(** ** Ranking the members *)

Section ranking.
Context {AR : Arith}.

Lemma keys_ordered_spec (ks : list num) :
  keys_ordered ks = true →
  (∀ a b, a ∈ ks → b ∈ ks → num_lt a b = true → num_lt b a = false) ∧
  (∀ a b c, a ∈ ks → b ∈ ks → c ∈ ks →
     num_lt b a = false → num_lt c b = false → num_lt c a = false).
Proof.
  unfold keys_ordered. rewrite forallb_forall. intros H. split.
  - intros a b Ha%list_elem_of_In Hb%list_elem_of_In Hab.
    specialize (H a Ha). rewrite forallb_forall in H. specialize (H b Hb).
    apply andb_prop in H as [H _]. rewrite Hab in H. simpl in H.
    by apply negb_true_iff.
  - intros a b c Ha%list_elem_of_In Hb%list_elem_of_In Hc%list_elem_of_In Hba Hcb.
    specialize (H a Ha). rewrite forallb_forall in H. specialize (H b Hb).
    apply andb_prop in H as [_ H]. rewrite forallb_forall in H.
    specialize (H c Hc). rewrite Hba, Hcb in H. simpl in H.
    by apply negb_true_iff.
Qed.

Lemma insert_by_key_Permutation (x : num * Genome) (l : list (num * Genome)) :
  insert_by_key x l ≡ₚ x :: l.
Proof.
  induction l as [|y l IH]; [done|]. simpl. destruct (num_lt y.1 x.1); [|done].
  rewrite IH. apply Permutation_swap.
Qed.

Lemma sort_by_key_Permutation (l : list (num * Genome)) : sort_by_key l ≡ₚ l.
Proof.
  unfold sort_by_key. induction l as [|x l IH]; [done|]. simpl.
  by rewrite insert_by_key_Permutation, IH.
Qed.

Lemma insert_by_key_sorted (ks : list num) (x : num * Genome)
    (l : list (num * Genome)) :
  keys_ordered ks = true → x.1 ∈ ks → (∀ y, y ∈ l → y.1 ∈ ks) →
  StronglySorted not_above l → StronglySorted not_above (insert_by_key x l).
Proof.
  intros [Hasym Htrans]%keys_ordered_spec Hx Hl Hsorted.
  induction Hsorted as [|y l Hsorted IH Hy]; simpl.
  - repeat constructor.
  - assert (y.1 ∈ ks) as Hyk by (apply Hl; by left).
    assert (∀ z, z ∈ l → z.1 ∈ ks) as Hlk by (intros; apply Hl; by right).
    destruct (num_lt y.1 x.1) eqn:E.
    + constructor; [by apply IH|]. rewrite insert_by_key_Permutation.
      constructor; [|done]. unfold not_above. by apply Hasym.
    + constructor; [by constructor|]. constructor; [done|].
      rewrite Forall_forall in Hy |- *. intros z Hz. unfold not_above.
      apply (Htrans x.1 y.1 z.1); [done|done|by apply Hlk|done|by apply Hy].
Qed.

Lemma sort_by_key_sorted_on (ks : list num) (l : list (num * Genome)) :
  keys_ordered ks = true → (∀ y, y ∈ l → y.1 ∈ ks) →
  StronglySorted not_above (sort_by_key l).
Proof.
  intros Hord. unfold sort_by_key.
  induction l as [|x l IH]; intros Hin; simpl; [constructor|].
  apply (insert_by_key_sorted ks); [done|apply Hin; by left| |].
  - intros y Hy. apply Hin. right.
    by rewrite <-(sort_by_key_Permutation l).
  - apply IH. intros; apply Hin; by right.
Qed.

Lemma sort_by_key_sorted (l : list (num * Genome)) :
  keys_ordered (l.*1) = true → StronglySorted not_above (sort_by_key l).
Proof.
  intros Hord. apply (sort_by_key_sorted_on (l.*1)); [done|].
  intros. by apply list_elem_of_fmap_2.
Qed.

Lemma StronglySorted_ascending (l : list (num * Genome)) :
  StronglySorted not_above l → ascending l.
Proof.
  induction 1 as [|x l _ IH Hx]; intros i j a b Hij Ha Hb.
  - by rewrite lookup_nil in Ha.
  - destruct j as [|j]; [lia|]. simpl in Hb. destruct i as [|i].
    + injection Ha as <-. rewrite Forall_forall in Hx. apply Hx.
      by eapply list_elem_of_lookup_2.
    + simpl in Ha. eapply (IH i j); [lia|done..].
Qed.

Lemma sort_by_key_ascending (l : list (num * Genome)) :
  keys_ordered (l.*1) = true → ascending (sort_by_key l).
Proof. intros. by apply StronglySorted_ascending, sort_by_key_sorted. Qed.

(** In an ascending ranking nothing ranks above the last element. *)
Lemma ascending_last (ks : list num) (l : list (num * Genome))
    (x y : num * Genome) :
  keys_ordered ks = true → (∀ z, z ∈ l → z.1 ∈ ks) →
  ascending l → last l = Some y → x ∈ l → not_above x y.
Proof.
  intros [Hasym _]%keys_ordered_spec Hks Hasc Hlast [i Hi]%list_elem_of_lookup.
  rewrite last_lookup in Hlast.
  assert (i < length l) as Hlt by (by eapply lookup_lt_Some).
  destruct (decide (i = pred (length l))) as [->|Hne].
  - assert (x = y) as -> by congruence. unfold not_above.
    destruct (num_lt y.1 y.1) eqn:E; [|done].
    assert (y.1 ∈ ks) as Hy by (apply Hks; by eapply list_elem_of_lookup_2).
    rewrite <-E. by apply Hasym.
  - eapply (Hasc i (pred (length l))); [lia|done..].
Qed.

End ranking.

(** ** The generation step *)

Lemma get_chromosome_state (g : Genome) (w w' : world) (r : result Chromosome) :
  get_chromosome g w = (r, w') → w' = w.
Proof. unfold get_chromosome. destruct (genomes w !! g); by intros [= _ <-]. Qed.

Lemma py_slice_from_drop {A} (l : list A) (start : Z) :
  ∃ k, py_slice_from l start = drop k l.
Proof. unfold py_slice_from. destruct (start <? 0)%Z; eauto. Qed.

(** For a positive count, [l[-count:]] is the last [count] elements. *)
Lemma py_slice_from_last {A} (l : list A) (count : Z) :
  (0 < count)%Z →
  py_slice_from l (- count) = drop (length l - Z.to_nat count) l.
Proof.
  intros Hc. unfold py_slice_from.
  destruct (Z.ltb_spec (- count) 0) as [_|?]; [|lia]. f_equal. lia.
Qed.

Lemma length_range_step2 (n : Z) :
  (0 ≤ n)%Z → Z.even n = true → 2 * length (range_step2 n) = Z.to_nat n.
Proof.
  intros Hn Heven. unfold range_step2. rewrite length_fmap, length_seq.
  apply Z.even_spec in Heven as [k ->].
  replace ((2 * k + 1) / 2)%Z with k; [lia|].
  apply (Z.div_unique _ _ _ 1); lia.
Qed.

Section population.
Context {AR : Arith} {GL : Globals}.
Variable position : City → num * num.

Lemma with_keys_state (l : list Genome) (w w' : world)
    (r : result (list (num * Genome))) :
  with_keys position l w = (r, w') → w' = w.
Proof.
  revert r w'. induction l as [|x l IH]; intros r w'; simpl.
  - by intros [= _ <-].
  - intros Hrun.
    apply M_bind_inv in Hrun as [(c & w1 & Hc & Hrun)|[(e & Hc & _)|[Hc _]]];
      [|by apply get_chromosome_state in Hc..].
    apply get_chromosome_state in Hc as ->.
    apply M_bind_inv in Hrun as [(k & w1 & Hk & Hrun)|[(e & Hk & _)|[Hk _]]];
      [|by injection Hk as _ <-..].
    injection Hk as _ <-.
    apply M_bind_inv in Hrun as [(rest & w1 & Hr & Hrun)|[(e & Hr & _)|[Hr _]]];
      [|by apply IH in Hr..].
    apply IH in Hr as ->. by injection Hrun as _ <-.
Qed.

Lemma with_keys_Ok (l : list Genome) (w w' : world) (keyed : list (num * Genome)) :
  with_keys position l w = (Ok keyed, w') →
  keyed.*2 = l ∧
  Forall (λ km, ∃ c, genomes w !! km.2 = Some c ∧
                     get_fitness position c = Ok km.1) keyed.
Proof.
  revert keyed w'. induction l as [|x l IH]; intros keyed w'; simpl.
  - intros [-> _]%M_ret_Ok. by split.
  - intros Hrun. inv_run.
    match goal with H : with_keys _ _ _ = _ |- _ =>
      pose proof (with_keys_state _ _ _ _ H) as ->; apply IH in H as [<- ?] end.
    split; [done|]. constructor; [|done]. eauto.
Qed.

Lemma with_keys_frame (l : list Genome) (w w2 : world)
    (keyed : list (num * Genome)) :
  with_keys position l w = (Ok keyed, w) →
  (∀ m, m ∈ l → genomes w2 !! m = genomes w !! m) →
  with_keys position l w2 = (Ok keyed, w2).
Proof.
  revert keyed. induction l as [|x l IH]; intros keyed; simpl.
  { by intros [-> _]%M_ret_Ok. }
  intros Hrun Hsame. inv_run.
  match goal with H : with_keys _ _ _ = _ |- _ =>
    apply IH in H; [|intros; apply Hsame; by right] end.
  erewrite M_bind_run;
    [|apply get_chromosome_run; rewrite Hsame; [done|by left]].
  erewrite M_bind_run; [|by apply lift_Ok].
  by erewrite M_bind_run.
Qed.

Lemma choices_loop_Ok {A} (population : list A) (k : nat) (w w' : world)
    (l : list A) :
  choices_loop population k w = (Ok l, w') →
  genomes w' = genomes w ∧ length l = k ∧ ∀ x, x ∈ l → x ∈ population.
Proof.
  revert w l. induction k as [|k IH]; intros w l; simpl.
  - intros [-> ->]%M_ret_Ok. split_and!; [done..|]. by intros ? ?%elem_of_nil.
  - intros Hrun. inv_run.
    match goal with H : draw _ = _ |- _ => apply draw_Ok in H as Hd end.
    match goal with H : choices_loop _ _ _ = _ |- _ =>
      apply IH in H as (Hg & Hlen & Hin) end.
    split_and!; [congruence|simpl; lia|].
    intros y [->|Hy]%elem_of_cons; [by eapply list_elem_of_lookup_2|by apply Hin].
Qed.

(** Breeding appends two children per pair and touches no genome that
    existed before. *)
Lemma breed_Ok (parents : list Genome) (indices : list nat)
    (c_type m_type : string) (acc l : list Genome) (w w' : world) :
  breed parents indices c_type m_type acc w = (Ok l, w') →
  (∃ children, l = acc ++ children ∧ length children = 2 * length indices) ∧
  length (genomes w) ≤ length (genomes w') ∧
  ∀ g, g < length (genomes w) → genomes w' !! g = genomes w !! g.
Proof.
  revert acc w. induction indices as [|i rest IH]; intros acc w; simpl.
  - intros [-> ->]%M_ret_Ok. split_and!; [|done..]. exists []. by rewrite app_nil_r.
  - intros Hrun.
    apply M_bind_Ok in Hrun as (parent1 & w1 & [_ ->]%lift_Ok & Hrun).
    apply M_bind_Ok in Hrun as (parent2 & w1 & [_ ->]%lift_Ok & Hrun).
    apply M_bind_Ok in Hrun as (children & w1 & Hcross & Hrun).
    destruct children as [[child1 child2]|]; [|done].
    apply M_bind_Ok in Hrun as ([] & w2 & Hm1 & Hrun).
    apply M_bind_Ok in Hrun as ([] & w3 & Hm2 & Hrun).
    apply crossover_Ok in Hcross
      as (c1 & c2 & d1 & d2 & _ & _ & (-> & -> & Hg1) & _).
    assert (genomes w1 !! length (genomes w) = Some d1) as Hd1
      by (rewrite Hg1, lookup_app_r, Nat.sub_diag by lia; done).
    eapply mutate_keeps, rearranges_lookup in Hm1 as (Hl2 & Hsame2 & _); [|done].
    assert (genomes w2 !! S (length (genomes w)) = Some d2) as Hd2.
    { rewrite Hsame2 by lia. rewrite Hg1, lookup_app_r by lia.
      by replace (S _ - _) with 1 by lia. }
    eapply mutate_keeps, rearranges_lookup in Hm2 as (Hl3 & Hsame3 & _); [|done].
    apply IH in Hrun as ((children & -> & Hlen) & Hle & Hframe).
    assert (length (genomes w1) = length (genomes w) + 2) as Hl1
      by (rewrite Hg1, length_app; simpl; lia).
    split_and!.
    + exists ([length (genomes w); S (length (genomes w))] ++ children).
      rewrite <-app_assoc. split; [done|]. rewrite length_app. simpl. lia.
    + lia.
    + intros g Hg. rewrite Hframe by lia. rewrite Hsame3, Hsame2 by lia.
      rewrite Hg1. by rewrite lookup_app_l by lia.
Qed.

(** What a successful generation step is made of: the fitness table of
    the members, computed in the state before the step; the children;
    and the new member list, the children followed by the tail of the
    ranking. *)
Lemma generate_next_generation_Ok (self : Population) (c_type m_type : string)
    (w w' : world) (best : Genome) (pop' : Population) :
  generate_next_generation position self c_type m_type w = (Ok (best, pop'), w') →
  ∃ keyed children,
    with_keys position (members self) w = (Ok keyed, w) ∧
    length children = 2 * length (range_step2 (size self - ELITISM)) ∧
    pop' = {| size := size self;
              members := children ++
                py_slice_from ((sort_by_key keyed).*2) (- ELITISM) |} ∧
    last ((sort_by_key keyed).*2) = Some best ∧
    ∀ g, g < length (genomes w) → genomes w' !! g = genomes w !! g.
Proof.
  unfold generate_next_generation. intros Hrun.
  apply M_bind_Ok in Hrun as (parents & w1 & Hsel & Hrun).
  apply M_bind_Ok in Hrun as (children & w2 & Hbreed & Hrun).
  apply M_bind_Ok in Hrun as (sorted_members & w3 & Hsort & Hrun).
  apply M_bind_Ok in Hrun as (best' & w4 & [Hlast ->]%lift_Ok & Hrun).
  apply M_ret_Ok in Hrun as [[= -> ->] ->].
  unfold top_k_selection, sort_members in Hsel.
  apply M_bind_Ok in Hsel as (ranked & w0 & Hrank & Hch).
  apply M_bind_Ok in Hrank as (keyed & w0' & Hkeys & [-> ->]%M_ret_Ok).
  pose proof (with_keys_state _ _ _ _ Hkeys) as ->.
  apply choices_loop_Ok in Hch as (Hg1 & _ & _).
  apply breed_Ok in Hbreed as ((ch & -> & Hlen) & Hle & Hframe).
  unfold sort_members in Hsort.
  apply M_bind_Ok in Hsort as (keyed' & w2' & Hkeys' & [-> ->]%M_ret_Ok).
  pose proof (with_keys_state _ _ _ _ Hkeys') as ->.
  assert (∀ g, g < length (genomes w) → genomes w2 !! g = genomes w !! g)
    as Hframe' by (intros g Hg; rewrite Hframe, Hg1 by (rewrite Hg1; lia); done).
  assert (keyed' = keyed) as ->.
  { assert (with_keys position (members self) w2 = (Ok keyed, w2)) as Hk2.
    { apply (with_keys_frame _ w); [done|]. intros m Hm. apply Hframe'.
      apply with_keys_Ok in Hkeys as [Heq Hall]. rewrite <-Heq in Hm.
      apply list_elem_of_fmap in Hm as (km & -> & Hkm).
      rewrite Forall_forall in Hall. destruct (Hall km Hkm) as (c & Hc & _).
      by eapply lookup_lt_Some. }
    congruence. }
  exists keyed, ch. split_and!; [done..| |done].
  unfold py_last in Hlast. by destruct (last _); simplify_eq.
Qed.

End population.

(** *** The generation step returns *)

Lemma choices_loop_total {A} (population : list A) (k : nat) (w : world) :
  population ≠ [] → ∃ l w', choices_loop population k w = (Ok l, w').
Proof.
  intros Hne. revert w. induction k as [|k IH]; intros w; simpl.
  - by eexists _, _.
  - destruct (draw_total w) as (d & w1 & Hd).
    assert (d mod length population < length population) as Hlt.
    { apply Nat.mod_upper_bound. destruct population; [done|simpl; lia]. }
    destruct (lookup_lt_is_Some_2 _ _ Hlt) as [x Hx].
    destruct (IH w1) as (l & w2 & Hl).
    exists (x :: l), w2.
    erewrite M_bind_run; [|done].
    erewrite M_bind_run; [|by apply lift_Ok, (conj (getitem_Some _ _ _ Hx))].
    by erewrite M_bind_run.
Qed.


Section returns.
Context {AR : Arith} {GL : Globals}.
Variable position : City → num * num.
Variable cities : list City.
Hypothesis cities_NoDup : NoDup cities.
Hypothesis cities_two : 2 ≤ length cities.



End returns.

Section generation.
Context {AR : Arith} {GL : Globals}.
Variable position : City → num * num.

(** C6: the number of members after a generation step, for every
    configuration that the claim calls valid (an elitism count between
    0 and the population size, and size - elitism count even). The
    step makes size - elitism count children and appends
    [sorted_members[-ELITISM:]] to them. With an elitism count of at
    least 1 that slice is the last [ELITISM] members of the ranking (all
    of them when there are fewer), so a population that holds [size]
    members holds [size] members again. With an elitism count of 0 the
    slice is [sorted_members[-0:]], the whole ranking and not its last
    0 members: every previous member is carried over besides the [size]
    children, and the number of members grows by [size]. The size
    attribute is unchanged in both cases. *)
Theorem generation_member_count (self : Population) (c_type m_type : string)
    (w w' : world) (best : Genome) (pop' : Population) :
  (0 ≤ ELITISM ≤ size self)%Z →
  Z.even (size self - ELITISM) = true →
  generate_next_generation position self c_type m_type w = (Ok (best, pop'), w') →
  size pop' = size self ∧
  ((1 ≤ ELITISM)%Z →
   length (members pop') =
     Z.to_nat (size self - ELITISM)
     + Z.to_nat ELITISM `min` length (members self)) ∧
  (ELITISM = 0%Z →
   length (members pop') = Z.to_nat (size self) + length (members self)).
Proof.
  intros HE Heven Hrun.
  apply generate_next_generation_Ok in Hrun
    as (keyed & children & Hkeys & Hlen & -> & _ & _).
  apply with_keys_Ok in Hkeys as [Hk _]. simpl.
  rewrite length_range_step2 in Hlen by (done || lia).
  assert (length ((sort_by_key keyed).*2) = length (members self)) as Hranked.
  { rewrite length_fmap, (Permutation_length (sort_by_key_Permutation keyed)).
    by rewrite <-Hk, length_fmap. }
  split_and!; [done| |].
  - intros H1. rewrite length_app, Hlen, py_slice_from_last by lia.
    rewrite length_drop, Hranked. lia.
  - intros H0. rewrite H0 in *. rewrite Z.sub_0_r in Hlen.
    assert (py_slice_from ((sort_by_key keyed).*2) (- 0)
              = (sort_by_key keyed).*2) as -> by done.
    by rewrite length_app, Hlen, Hranked.
Qed.

(** C7: after a generation step, take the fitness table of the members
    as it was before the step, with keys that [<] orders. There is a
    ranking of that table by ascending fitness whose last [ELITISM]
    members are members of the next generation, the very same objects,
    and each of them holds the chromosome it held before the step. *)
Theorem elites_carried_over (self : Population) (c_type m_type : string)
    (w w' : world) (best : Genome) (pop' : Population)
    (keyed : list (num * Genome)) :
  generate_next_generation position self c_type m_type w = (Ok (best, pop'), w') →
  with_keys position (members self) w = (Ok keyed, w) →
  keys_ordered (keyed.*1) = true →
  ∃ ranked,
    ranked ≡ₚ keyed ∧ ascending ranked ∧
    ∀ e, e ∈ drop (length ranked - Z.to_nat ELITISM) (ranked.*2) →
      e ∈ members pop' ∧ genomes w' !! e = genomes w !! e.
Proof.
  intros Hrun Hkeys Hord.
  apply generate_next_generation_Ok in Hrun
    as (keyed' & children & Hkeys' & _ & -> & _ & Hframe).
  assert (keyed' = keyed) as -> by congruence.
  exists (sort_by_key keyed). split_and!.
  - apply sort_by_key_Permutation.
  - by apply sort_by_key_ascending.
  - intros e He. simpl. split.
    + apply elem_of_app. right.
      destruct (decide (1 ≤ ELITISM)%Z) as [HE|HE].
      * rewrite py_slice_from_last by lia. by rewrite length_fmap.
      * replace (Z.to_nat ELITISM) with 0 in He by lia.
        rewrite Nat.sub_0_r, <-(length_fmap snd), drop_all in He.
        by apply elem_of_nil in He.
    + apply Hframe. eapply elem_of_sublist in He; [|apply sublist_drop].
      rewrite (sort_by_key_Permutation keyed) in He.
      apply with_keys_Ok in Hkeys as [_ Hall].
      apply list_elem_of_fmap in He as (km & -> & Hkm).
      rewrite Forall_forall in Hall. destruct (Hall km Hkm) as (c & Hc & _).
      by eapply lookup_lt_Some.
Qed.


End generation.

(** *** The theorems on the example run, in binary64 and with the
    values that the source gives [ELITISM] and [TOP_K] *)

(** A step without elitism on two members, under the claim's conditions
    (0 ≤ 2 and 2 - 0 even): it returns, and leaves four members, since
    [sorted_members[-0:]] is the whole ranking. *)
Lemma generation_doubles_without_elitism :
  ∃ best pop' w',
    generate_next_generation (AR := float_arith)
      (GL := {| ELITISM := 0; TOP_K := 25 |})
      example_position {| size := 2; members := [0; 1] |} "ox" "swap"
      example_world
      = (Ok (best, pop'), w') ∧
    length (members pop') = 4 ∧
    py_slice_from [0; 1] (- 0) = [0; 1].
Proof. eexists _, _, _. split; [vm_compute; reflexivity|]. by vm_compute. Qed.

Lemma example_run_returns :
  ∃ best pop' w',
    generate_next_generation (AR := float_arith) (GL := source_globals)
      example_position example_population "ox" "swap" example_world
      = (Ok (best, pop'), w').
Proof. eexists _, _, _. vm_compute. reflexivity. Qed.

Lemma generation_member_count_witness :
  (∃ best pop' w',
     generate_next_generation (AR := float_arith) (GL := source_globals)
       example_position example_population "ox" "swap" example_world
       = (Ok (best, pop'), w') ∧
     size pop' = 12%Z ∧ length (members pop') = 12) ∧
  (∃ best pop' w',
     generate_next_generation (AR := float_arith)
       (GL := {| ELITISM := 0; TOP_K := 25 |})
       example_position {| size := 2; members := [0; 1] |} "ox" "swap"
       example_world
       = (Ok (best, pop'), w') ∧
     size pop' = 2%Z ∧ length (members pop') = 4).
Proof.
  split.
  - destruct example_run_returns as (best & pop' & w' & Hrun).
    destruct (generation_member_count (AR := float_arith) (GL := source_globals)
                example_position example_population "ox" "swap"
                example_world w' best pop') as (Hsize & Hmany & _).
    { simpl. lia. }
    { reflexivity. }
    { exact Hrun. }
    exists best, pop', w'.
    exact (conj Hrun (conj Hsize (Hmany ltac:(simpl; lia)))).
  - destruct generation_doubles_without_elitism as (best & pop' & w' & Hrun & _).
    destruct (generation_member_count (AR := float_arith)
                (GL := {| ELITISM := 0; TOP_K := 25 |})
                example_position {| size := 2; members := [0; 1] |} "ox" "swap"
                example_world w' best pop') as (Hsize & _ & Hnone).
    { simpl. lia. }
    { reflexivity. }
    { exact Hrun. }
    exists best, pop', w'.
    exact (conj Hrun (conj Hsize (Hnone eq_refl))).
Defined.

Lemma example_keys_ordered :
  ∃ keyed,
    with_keys (AR := float_arith) example_position
      (members example_population) example_world = (Ok keyed, example_world) ∧
    keys_ordered (AR := float_arith) (keyed.*1) = true.
Proof. eexists. split; vm_compute; reflexivity. Qed.

Lemma elites_carried_over_witness :
  ∃ best pop' w' keyed ranked,
    generate_next_generation (AR := float_arith) (GL := source_globals)
      example_position example_population "ox" "swap" example_world
      = (Ok (best, pop'), w') ∧
    with_keys (AR := float_arith) example_position
      (members example_population) example_world = (Ok keyed, example_world) ∧
    ranked ≡ₚ keyed ∧ ascending (AR := float_arith) ranked ∧
    ∀ e, e ∈ drop (length ranked - 10) (ranked.*2) →
      e ∈ members pop' ∧ genomes w' !! e = genomes example_world !! e.
Proof.
  destruct example_run_returns as (best & pop' & w' & Hrun).
  destruct example_keys_ordered as (keyed & Hkeys & Hord).
  destruct (elites_carried_over (AR := float_arith) (GL := source_globals)
              example_position example_population "ox" "swap" example_world
              w' best pop' keyed Hrun Hkeys Hord) as (ranked & H1 & H2 & H3).
  exists best, pop', w', keyed, ranked.
  exact (conj Hrun (conj Hkeys (conj H1 (conj H2 H3)))).
Defined.

Lemma example_members_hold_tours (m : Genome) :
  m ∈ members example_population →
  holds_tour [0; 1; 2; 3] example_world m.
Proof.
  revert m. apply Forall_forall.
  assert (chromosome_of [0; 1; 3; 2] ≡ₚ chromosome_of [0; 1; 2; 3]) as H1
    by (do 2 apply perm_skip; apply perm_swap).
  assert (chromosome_of [0; 2; 1; 3] ≡ₚ chromosome_of [0; 1; 2; 3]) as H2
    by (apply perm_skip, perm_swap).
  repeat constructor; eexists; (split; [reflexivity|done]).
Qed.


(** On the example run the genome returned is not the fittest of the
    generation produced: the first child holds the tour [[0; 1; 2; 3]],
    which is shorter than the tour of the returned genome. *)
Lemma returned_genome_is_not_fittest_of_next :
  ∃ best pop' w' child c cbest f fbest,
    generate_next_generation (AR := float_arith) (GL := source_globals)
      example_position example_population "ox" "swap" example_world
      = (Ok (best, pop'), w') ∧
    child ∈ members pop' ∧
    genomes w' !! child = Some c ∧ genomes w' !! best = Some cbest ∧
    get_fitness (AR := float_arith) example_position c = Ok f ∧
    get_fitness (AR := float_arith) example_position cbest = Ok fbest ∧
    PrimFloat.ltb fbest f = true.
Proof.
  eexists _, _, _, 12, _, _, _, _.
  split; [vm_compute; reflexivity|].
  split; [by left|]. by vm_compute.
Qed.

(** ** Fitness, rotation and reversal *)

Section fitness.
Context {AR : Arith}.
Variable position : City → num * num.

Lemma tour_loop_edges (c : Chromosome) (indices : list nat) (z : num) :
  (∀ i, i ∈ indices → i < length c) →
  tour_loop position c indices z =
    if decide (Forall (λ e, is_Some (edge_length position e))
                 ((λ i, (c !!! i, c !!! ((i + 1) mod length c))) <$> indices))
    then Ok (foldl num_add z
               (omap (edge_length position)
                  ((λ i, (c !!! i, c !!! ((i + 1) mod length c))) <$> indices)))
    else Raise AttributeError.
Proof.
  revert z. induction indices as [|i rest IH]; intros z Hin.
  - rewrite decide_True by constructor. done.
  - assert (i < length c) as Hi by (apply Hin; by left).
    assert ((i + 1) mod length c < length c) as Hi'
      by (apply Nat.mod_upper_bound; lia).
    destruct (lookup_lt_is_Some_2 c i Hi) as [a Ha].
    destruct (lookup_lt_is_Some_2 c _ Hi') as [b Hb].
    cbn [tour_loop]. rewrite (getitem_Some _ _ _ Ha). cbn [mbind result_bind].
    rewrite (getitem_Some _ _ _ Hb). cbn [mbind result_bind].
    rewrite fmap_cons.
    rewrite (list_lookup_total_correct _ _ _ Ha),
            (list_lookup_total_correct _ _ _ Hb).
    destruct a as [a|], b as [b|]; cbn [distance mbind result_bind].
    + rewrite IH by (intros; apply Hin; by right).
      destruct (decide (Forall _ (_ <$> rest))) as [Hall|Hall].
      * rewrite decide_True; [done|]. constructor; [by eexists|done].
      * rewrite decide_False; [done|]. by intros [_ ?]%Forall_cons.
    + rewrite decide_False; [done|]. intros [[? [=]] _]%Forall_cons.
    + rewrite decide_False; [done|]. intros [[? [=]] _]%Forall_cons.
    + rewrite decide_False; [done|]. intros [[? [=]] _]%Forall_cons.
Qed.

(** The tour length is the sum, from [num_zero] on and in order, of the
    lengths of the edges; a [None] among the genes is an error. *)
Lemma tour_length_edges (c : Chromosome) :
  tour_length position c =
    if decide (Forall (λ e, is_Some (edge_length position e)) (edges c))
    then Ok (foldl num_add num_zero (omap (edge_length position) (edges c)))
    else Raise AttributeError.
Proof.
  unfold tour_length, edges. apply tour_loop_edges.
  by intros i [_ ?]%elem_of_seq.
Qed.

(** The edges pair the chromosome with itself rotated by one. *)
Lemma edges_zip (c : Chromosome) : edges c = zip c (rotate 1 c).
Proof.
  apply list_eq. intros i. unfold edges. rewrite list_lookup_fmap.
  destruct (decide (i < length c)) as [Hi|Hi].
  - rewrite lookup_seq_lt by done. simpl.
    assert ((i + 1) mod length c < length c) as Hi'
      by (apply Nat.mod_upper_bound; lia).
    symmetry. apply lookup_zip_with_Some.
    exists (c !!! i), (c !!! ((i + 1) mod length c)). split_and!; [done| |].
    + by apply list_lookup_lookup_total_lt.
    + rewrite lookup_rotate_r by done. rewrite rotate_nat_add_mod.
      replace (1 + i) with (i + 1) by lia.
      by apply list_lookup_lookup_total_lt.
  - rewrite lookup_seq_ge by lia. simpl. symmetry.
    apply lookup_ge_None. rewrite length_zip, length_rotate. lia.
Qed.

Lemma rotate_rotate_comm {A} (j k : nat) (l : list A) :
  rotate j (rotate k l) = rotate k (rotate j l).
Proof.
  apply list_eq. intros i. destruct (decide (i < length l)) as [Hi|Hi].
  - rewrite !lookup_rotate_r by (rewrite ?length_rotate; try done;
      apply rotate_nat_add_lt; lia).
    rewrite !length_rotate, !rotate_nat_add_mod.
    f_equal. rewrite !Nat.Div0.add_mod_idemp_r. f_equal. lia.
  - rewrite !(proj2 (lookup_ge_None _ _)); [done|rewrite !length_rotate; lia..].
Qed.

Lemma rotate_zip {A B} (k : nat) (l1 : list A) (l2 : list B) :
  length l1 = length l2 → rotate k (zip l1 l2) = zip (rotate k l1) (rotate k l2).
Proof.
  intros Hlen. unfold rotate. rewrite length_zip, <-Hlen, Nat.min_id.
  by rewrite zip_with_app, zip_with_drop, zip_with_take
    by (rewrite !length_drop; lia).
Qed.

Lemma edges_rotate (k : nat) (c : Chromosome) :
  edges (rotate k c) = rotate k (edges c).
Proof.
  rewrite !edges_zip, rotate_rotate_comm.
  by rewrite rotate_zip by (by rewrite length_rotate).
Qed.

(** The consecutive pairs of a list, without the wrap. *)
Lemma zip_tail_snoc {A} (l : list A) (x y : A) :
  zip (l ++ [x; y]) (tail (l ++ [x; y])) = zip (l ++ [x]) (tail (l ++ [x])) ++ [(x, y)].
Proof.
  induction l as [|a l IH]; [done|]. simpl.
  destruct l as [|b l]; [done|]. simpl in *. by rewrite IH.
Qed.

Lemma zip_tail_reverse {A} (l : list A) :
  zip (reverse l) (tail (reverse l)) = reverse (prod_swap <$> zip l (tail l)).
Proof.
  induction l as [|a l IH]; [done|]. destruct l as [|b l]; [done|].
  change (zip (a :: b :: l) (tail (a :: b :: l)))
    with ((a, b) :: zip (b :: l) (tail (b :: l))).
  rewrite fmap_cons, (reverse_cons _ (prod_swap (a, b))), <-IH.
  rewrite (reverse_cons _ a), (reverse_cons l b), <-app_assoc.
  apply zip_tail_snoc.
Qed.

Lemma rotate_1_cons {A} (x : A) (l : list A) : rotate 1 (x :: l) = l ++ [x].
Proof.
  destruct l as [|y l]; [done|]. unfold rotate.
  rewrite Nat.mod_small by (simpl; lia). done.
Qed.

Lemma zip_snoc_tail {A} (x z : A) (l : list A) :
  zip (x :: l) (l ++ [z]) = zip (x :: l) l ++ [(default x (last l), z)].
Proof.
  revert x. induction l as [|y l IH]; intros x; [done|].
  change (zip (x :: y :: l) ((y :: l) ++ [z]))
    with ((x, y) :: zip (y :: l) (l ++ [z])).
  change (zip (x :: y :: l) (y :: l)) with ((x, y) :: zip (y :: l) l).
  rewrite (IH y). simpl. do 3 f_equal.
  rewrite (last_cons y). by destruct (last l).
Qed.

Lemma zip_rotate_tail {A} (x : A) (l : list A) :
  zip (x :: l) (rotate 1 (x :: l))
    = zip (x :: l) (tail (x :: l)) ++ [(default x (last l), x)].
Proof. rewrite rotate_1_cons. apply zip_snoc_tail. Qed.

(** The edges of the reversed tour are the edges of the tour, each
    taken the other way round. *)
Lemma edges_reverse (c : Chromosome) :
  edges (reverse c) ≡ₚ prod_swap <$> edges c.
Proof.
  destruct c as [|x l]; [done|].
  rewrite !edges_zip. rewrite (zip_rotate_tail x l).
  destruct (reverse (x :: l)) as [|y r] eqn:E.
  { apply (f_equal length) in E. rewrite length_reverse in E. done. }
  rewrite (zip_rotate_tail y r), <-E.
  rewrite zip_tail_reverse, reverse_Permutation, fmap_app. simpl.
  apply Permutation_app; [done|].
  assert (default y (last r) = x) as ->.
  { assert (last (reverse (x :: l)) = Some x) as Hl
      by (by rewrite last_reverse).
    rewrite E in Hl. simpl in Hl. destruct r as [|z r]; simpl in *.
    - by injection Hl.
    - by rewrite Hl. }
  assert (y = default x (last l)) as ->.
  { assert (head (reverse (x :: l)) = last (x :: l)) as Hh
      by (by rewrite head_reverse).
    rewrite E, last_cons in Hh. simpl in Hh.
    destruct (last l); by injection Hh. }
  done.
Qed.

Hypothesis add_assoc : ∀ a b c, num_add a (num_add b c) = num_add (num_add a b) c.
Hypothesis add_comm : ∀ a b, num_add a b = num_add b a.
Hypothesis dist_sym : ∀ p q, math_dist p q = math_dist q p.

Lemma foldl_add_Permutation (z : num) (l1 l2 : list num) :
  l1 ≡ₚ l2 → foldl num_add z l1 = foldl num_add z l2.
Proof using add_assoc add_comm.
  intros Hperm. revert z.
  induction Hperm as [|x l1 l2 _ IH|x y l|l1 l2 l3 _ IH1 _ IH2]; intros z; simpl.
  - done.
  - apply IH.
  - f_equal. rewrite <-!add_assoc. f_equal. apply add_comm.
  - by rewrite IH1.
Qed.

Lemma edge_length_swap (e : Gene * Gene) :
  edge_length position (prod_swap e) = edge_length position e.
Proof using dist_sym.
  destruct e as [[a|] [b|]]; simpl; try done. by rewrite dist_sym.
Qed.

Lemma tour_length_Permutation (c1 c2 : Chromosome) :
  edges c1 ≡ₚ edges c2 → tour_length position c1 = tour_length position c2.
Proof using add_assoc add_comm.
  intros Hperm. rewrite !tour_length_edges.
  destruct (decide (Forall _ (edges c1))) as [H1|H1].
  - rewrite decide_True by (by rewrite <-Hperm). f_equal.
    apply foldl_add_Permutation. by rewrite Hperm.
  - by rewrite decide_False by (by rewrite <-Hperm).
Qed.

Lemma tour_length_rotate (k : nat) (c : Chromosome) :
  tour_length position (rotate k c) = tour_length position c.
Proof using add_assoc add_comm.
  apply tour_length_Permutation. rewrite edges_rotate. apply rotate_Permutation.
Qed.

Lemma omap_edge_length_swap (l : list (Gene * Gene)) :
  omap (edge_length position) (prod_swap <$> l) = omap (edge_length position) l.
Proof using dist_sym.
  induction l as [|e l IH]; [done|].
  rewrite fmap_cons. cbn [omap list_omap].
  by rewrite edge_length_swap, IH.
Qed.

Lemma tour_length_reverse (c : Chromosome) :
  tour_length position (reverse c) = tour_length position c.
Proof using add_assoc add_comm dist_sym.
  rewrite !tour_length_edges.
  assert (Forall (λ e, is_Some (edge_length position e)) (edges (reverse c))
          ↔ Forall (λ e, is_Some (edge_length position e)) (edges c)) as Hall.
  { rewrite edges_reverse, Forall_fmap. apply Forall_iff. intros e.
    unfold compose. by rewrite edge_length_swap. }
  destruct (decide (Forall _ (edges c))) as [H1|H1].
  - rewrite decide_True by (by apply Hall). f_equal.
    rewrite <-(omap_edge_length_swap (edges c)).
    apply foldl_add_Permutation. by rewrite edges_reverse.
  - by rewrite decide_False by (by rewrite Hall).
Qed.

(** C8, in exact arithmetic: when adding numbers is associative and
    commutative and the distance between two points does not depend on
    their order, the fitness of a chromosome (and the error raised
    when there is none) is that of each of its cyclic rotations and of
    its reversal. *)
Theorem fitness_rotation_reversal (c : Chromosome) (k : nat) :
  get_fitness position (rotate k c) = get_fitness position c
  ∧ get_fitness position (reverse c) = get_fitness position c.
Proof using add_assoc add_comm dist_sym.
  unfold get_fitness. by rewrite tour_length_rotate, tour_length_reverse.
Qed.

End fitness.

(** The hypotheses hold of the real numbers; the tour 0, 1, 2 of the
    3-4-5 triangle, rotated by one and reversed. *)
Lemma fitness_rotation_reversal_witness :
  get_fitness (AR := RealNumbers.real_arith) real_position
      (rotate 1 (chromosome_of [0; 1; 2]))
    = get_fitness (AR := RealNumbers.real_arith) real_position
        (chromosome_of [0; 1; 2])
  ∧ get_fitness (AR := RealNumbers.real_arith) real_position
      (reverse (chromosome_of [0; 1; 2]))
    = get_fitness (AR := RealNumbers.real_arith) real_position
        (chromosome_of [0; 1; 2]).
Proof.
  apply (fitness_rotation_reversal (AR := RealNumbers.real_arith)).
  - intros a b c. simpl. symmetry. apply Raxioms.Rplus_assoc.
  - intros a b. simpl. apply Raxioms.Rplus_comm.
  - intros p q. simpl. f_equal.
    f_equal; exact (R_sqr.Rsqr_neg_minus _ _).
Defined.

(** In binary64 the sums are rounded, and the order of the additions
    shows: the tour 0, 1, 2 has fitness 0.13782015455018062, and the
    same tour written from city 1 on has 0.1378201545501806. *)
Lemma fitness_changes_under_rotation :
  get_fitness (AR := float_arith) example_position
      (rotate 1 (chromosome_of [0; 1; 2]))
    ≠ get_fitness (AR := float_arith) example_position
        (chromosome_of [0; 1; 2]).
Proof.
  intros H.
  apply (f_equal (λ r, match r with
                       | Ok f => PrimFloat.ltb f 0x1.1a4174042e78dp-3%float
                       | _ => false
                       end)) in H.
  vm_compute in H. discriminate H.
Qed.

(** Likewise for the reversal: the tour 0, 2, 3, 1 has fitness
    0.0747076438658912 and its reversal 1, 3, 2, 0 has
    0.07470764386589118. *)
Lemma fitness_changes_under_reversal :
  get_fitness (AR := float_arith) example_position
      (reverse (chromosome_of [0; 2; 3; 1]))
    ≠ get_fitness (AR := float_arith) example_position
        (chromosome_of [0; 2; 3; 1]).
Proof.
  intros H.
  apply (f_equal (λ r, match r with
                       | Ok f => PrimFloat.ltb f 0x1.3200a472a4bb5p-4%float
                       | _ => false
                       end)) in H.
  vm_compute in H. discriminate H.
Qed.

(** * Further properties of the code *)

(** ** The generation step: what the next generation is made of *)

Lemma holds_tour_frame (cities : list City) (w w' : world) (g : Genome) :
  holds_tour cities w g → genomes w' !! g = genomes w !! g →
  holds_tour cities w' g.
Proof. intros (c & Hc & Hp) Hsame. exists c. by rewrite Hsame. Qed.

Lemma holds_tour_lt (cities : list City) (w : world) (g : Genome) :
  holds_tour cities w g → g < length (genomes w).
Proof. intros (c & Hc & _). by eapply lookup_lt_Some. Qed.

(** The children that breeding appends are the objects created during
    it, in the order of their creation. *)
Lemma breed_fresh (parents : list Genome) (indices : list nat)
    (c_type m_type : string) (acc l : list Genome) (w w' : world) :
  breed parents indices c_type m_type acc w = (Ok l, w') →
  l = acc ++ seq (length (genomes w)) (2 * length indices) ∧
  length (genomes w') = length (genomes w) + 2 * length indices.
Proof.
  revert acc w. induction indices as [|i rest IH]; intros acc w; simpl.
  - intros [-> ->]%M_ret_Ok. rewrite app_nil_r. split; [done|lia].
  - intros Hrun.
    apply M_bind_Ok in Hrun as (parent1 & w1 & [_ ->]%lift_Ok & Hrun).
    apply M_bind_Ok in Hrun as (parent2 & w1 & [_ ->]%lift_Ok & Hrun).
    apply M_bind_Ok in Hrun as (children & w1 & Hcross & Hrun).
    destruct children as [[child1 child2]|]; [|done].
    apply M_bind_Ok in Hrun as ([] & w2 & Hm1 & Hrun).
    apply M_bind_Ok in Hrun as ([] & w3 & Hm2 & Hrun).
    apply crossover_Ok in Hcross
      as (c1 & c2 & d1 & d2 & _ & _ & (-> & -> & Hg1) & _).
    assert (genomes w1 !! length (genomes w) = Some d1) as Hd1
      by (rewrite Hg1, lookup_app_r, Nat.sub_diag by lia; done).
    eapply mutate_keeps, rearranges_lookup in Hm1 as (Hl2 & Hsame2 & _); [|done].
    assert (genomes w2 !! S (length (genomes w)) = Some d2) as Hd2.
    { rewrite Hsame2 by lia. rewrite Hg1, lookup_app_r by lia.
      by replace (S _ - _) with 1 by lia. }
    eapply mutate_keeps, rearranges_lookup in Hm2 as (Hl3 & Hsame3 & _); [|done].
    apply IH in Hrun as [-> Hlen].
    assert (length (genomes w1) = length (genomes w) + 2) as Hl1
      by (rewrite Hg1, length_app; simpl; lia).
    split; [|lia]. rewrite <-app_assoc. f_equal.
    replace (length rest + S (length rest + 0)) with (S (2 * length rest)) by lia.
    simpl. do 2 f_equal. rewrite Hl3, Hl2, Hl1. f_equal; lia.
Qed.

Section generation_step.
Context {AR : Arith} {GL : Globals}.
Variable position : City → num * num.

(** The three stages of a step that returns: the selection, which
    draws the parents from the tail of the ranking; the breeding; and
    the assembly of the new member list. *)
Lemma generate_next_generation_stages (self : Population)
    (c_type m_type : string) (w w' : world) (best : Genome) (pop' : Population) :
  generate_next_generation position self c_type m_type w = (Ok (best, pop'), w') →
  ∃ keyed parents w1 children,
    with_keys position (members self) w = (Ok keyed, w) ∧
    choices_loop (py_slice_from (sort_by_key keyed).*2 (- TOP_K))
      (Z.to_nat (size self - ELITISM)) w = (Ok parents, w1) ∧
    breed parents (range_step2 (size self - ELITISM)) c_type m_type [] w1
      = (Ok children, w') ∧
    pop' = {| size := size self;
              members := children ++
                py_slice_from ((sort_by_key keyed).*2) (- ELITISM) |} ∧
    last ((sort_by_key keyed).*2) = Some best.
Proof.
  unfold generate_next_generation. intros Hrun.
  apply M_bind_Ok in Hrun as (parents & w1 & Hsel & Hrun).
  apply M_bind_Ok in Hrun as (children & w2 & Hbreed & Hrun).
  apply M_bind_Ok in Hrun as (sorted_members & w3 & Hsort & Hrun).
  apply M_bind_Ok in Hrun as (best' & w4 & [Hlast ->]%lift_Ok & Hrun).
  apply M_ret_Ok in Hrun as [[= -> ->] ->].
  unfold top_k_selection, sort_members in Hsel.
  apply M_bind_Ok in Hsel as (ranked & w0 & Hrank & Hch).
  apply M_bind_Ok in Hrank as (keyed & w0' & Hkeys & [-> ->]%M_ret_Ok).
  pose proof (with_keys_state _ _ _ _ _ Hkeys) as ->.
  pose proof (choices_loop_Ok _ _ _ _ _ Hch) as (Hg1 & _ & _).
  pose proof (breed_Ok _ _ _ _ _ _ _ _ Hbreed) as (_ & Hle & Hframe).
  unfold sort_members in Hsort.
  apply M_bind_Ok in Hsort as (keyed' & w2' & Hkeys' & [-> ->]%M_ret_Ok).
  pose proof (with_keys_state _ _ _ _ _ Hkeys') as ->.
  assert (keyed' = keyed) as ->.
  { assert (with_keys position (members self) w2 = (Ok keyed, w2)) as Hk2.
    { apply (with_keys_frame _ _ w); [done|]. intros m Hm.
      rewrite Hframe, Hg1; [done|]. rewrite Hg1.
      apply with_keys_Ok in Hkeys as [Heq Hall]. rewrite <-Heq in Hm.
      apply list_elem_of_fmap in Hm as (km & -> & Hkm).
      rewrite Forall_forall in Hall. destruct (Hall km Hkm) as (c & Hc & _).
      by eapply lookup_lt_Some. }
    congruence. }
  exists keyed, parents, w1, children. split_and!; [done..|].
  unfold py_last in Hlast. by destruct (last _); simplify_eq.
Qed.

(** The members of a population whose fitness table exists are objects
    of the store. *)
Lemma with_keys_lt (l : list Genome) (w : world) (keyed : list (num * Genome)) :
  with_keys position l w = (Ok keyed, w) →
  ∀ m, m ∈ l → m < length (genomes w).
Proof.
  intros Hkeys m Hm. apply with_keys_Ok in Hkeys as [Heq Hall].
  rewrite <-Heq in Hm. apply list_elem_of_fmap in Hm as (km & -> & Hkm).
  rewrite Forall_forall in Hall. destruct (Hall km Hkm) as (c & Hc & _).
  by eapply lookup_lt_Some.
Qed.

Lemma elem_of_py_slice_from {A} (l : list A) (start : Z) (x : A) :
  x ∈ py_slice_from l start → x ∈ l.
Proof.
  destruct (py_slice_from_drop l start) as [k ->]. intros Hx.
  eapply elem_of_sublist; [done|apply sublist_drop].
Qed.

(** The next generation is made of genomes created during the step,
    followed by members of the previous generation; and if no object
    occurs twice in the previous generation, none occurs twice in the
    next. *)
Theorem generation_members_distinct (self : Population) (c_type m_type : string)
    (w w' : world) (best : Genome) (pop' : Population) :
  NoDup (members self) →
  generate_next_generation position self c_type m_type w = (Ok (best, pop'), w') →
  NoDup (members pop') ∧
  ∃ children elites,
    members pop' = children ++ elites ∧
    (∀ m, m ∈ children → length (genomes w) ≤ m < length (genomes w')) ∧
    (∀ m, m ∈ elites → m ∈ members self ∧ m < length (genomes w)).
Proof.
  intros Hnd Hrun.
  apply generate_next_generation_stages in Hrun
    as (keyed & parents & w1 & children & Hkeys & Hch & Hbreed & -> & _).
  apply choices_loop_Ok in Hch as (Hg1 & _ & _).
  apply breed_fresh in Hbreed as [-> Hlen]. simpl in *.
  set (ranked := (sort_by_key keyed).*2).
  assert (ranked ≡ₚ members self) as Hranked.
  { unfold ranked. rewrite (sort_by_key_Permutation keyed).
    by apply with_keys_Ok in Hkeys as [-> _]. }
  assert (∀ m, m ∈ py_slice_from ranked (- ELITISM) →
            m ∈ members self ∧ m < length (genomes w)) as Helite.
  { intros m Hm%elem_of_py_slice_from. rewrite Hranked in Hm.
    split; [done|]. by eapply with_keys_lt. }
  split.
  - apply NoDup_app. split_and!.
    + apply NoDup_seq.
    + intros m [Hm _]%elem_of_seq [_ Hlt]%Helite. rewrite Hg1 in Hm. lia.
    + destruct (py_slice_from_drop ranked (- ELITISM)) as [k ->].
      eapply sublist_NoDup; [|apply sublist_drop]. by rewrite Hranked.
  - eexists _, _. split; [done|]. split; [|done].
    intros m Hm%elem_of_seq. rewrite Hg1 in Hm, Hlen. lia.
Qed.

(** Breeding from parents that hold tours gives children that hold
    tours, and the genomes bred before keep theirs. *)
Lemma breed_tours (cities : list City) (parents : list Genome)
    (indices : list nat) (c_type m_type : string) (acc l : list Genome)
    (w w' : world) :
  NoDup cities →
  (∀ p, p ∈ parents → holds_tour cities w p) →
  (∀ g, g ∈ acc → holds_tour cities w g) →
  breed parents indices c_type m_type acc w = (Ok l, w') →
  ∀ g, g ∈ l → holds_tour cities w' g.
Proof.
  intros Hnd. revert acc w.
  induction indices as [|i rest IH]; intros acc w Hpar Hacc; simpl.
  { by intros [-> ->]%M_ret_Ok. }
  intros Hrun.
  apply M_bind_Ok in Hrun as (parent1 & w1 & [Hp1 ->]%lift_Ok & Hrun).
  apply M_bind_Ok in Hrun as (parent2 & w1 & [Hp2 ->]%lift_Ok & Hrun).
  apply M_bind_Ok in Hrun as (children & w1 & Hcross & Hrun).
  destruct children as [[child1 child2]|]; [|done].
  apply M_bind_Ok in Hrun as ([] & w2 & Hm1 & Hrun).
  apply M_bind_Ok in Hrun as ([] & w3 & Hm2 & Hrun).
  apply getitem_Ok, list_elem_of_lookup_2, Hpar in Hp1 as (c1 & Hc1 & Hperm1).
  apply getitem_Ok, list_elem_of_lookup_2, Hpar in Hp2 as (c2 & Hc2 & Hperm2).
  destruct (chromosome_of_valid cities c1) as (Hnd1 & Hnone1 & _); [done..|].
  destruct (crossover_children_valid _ _ _ _ _ _ _ c1 Hcross)
    as (d1 & d2 & (-> & -> & Hg1) & Hd1 & Hd2);
    [done|exists c2; split; [done|by rewrite Hperm1, Hperm2]|done..|].
  assert (genomes w1 !! length (genomes w) = Some d1) as Hl1
    by (rewrite Hg1, lookup_app_r, Nat.sub_diag by lia; done).
  destruct (rearranges_lookup _ _ _ (mutate_keeps _ _ _ _ _ _ Hl1 Hm1))
    as (Hlen2 & Hsame2 & e1 & e1' & He1 & He1' & Hpe1).
  assert (genomes w2 !! S (length (genomes w)) = Some d2) as Hl2.
  { rewrite Hsame2 by lia. rewrite Hg1, lookup_app_r by lia.
    by replace (S _ - _) with 1 by lia. }
  destruct (rearranges_lookup _ _ _ (mutate_keeps _ _ _ _ _ _ Hl2 Hm2))
    as (Hlen3 & Hsame3 & e2 & e2' & He2 & He2' & Hpe2).
  assert (∀ g, holds_tour cities w g → holds_tour cities w3 g) as Hold.
  { intros g Hg. pose proof (holds_tour_lt _ _ _ Hg).
    apply (holds_tour_frame cities w); [done|].
    rewrite Hsame3, Hsame2 by lia. rewrite Hg1. by rewrite lookup_app_l by lia. }
  eapply (IH _ w3); [by auto| |done].
  intros g [Hg|Hg]%elem_of_app; [by auto|].
  rewrite !elem_of_cons, elem_of_nil in Hg. destruct Hg as [->|[->|[]]].
  - exists e1'. split; [by rewrite Hsame3 by lia|].
    rewrite Hpe1. rewrite Hl1 in He1. injection He1 as <-.
    by rewrite Hd1, Hperm1.
  - exists e2'. split; [done|].
    rewrite Hpe2. rewrite Hl2 in He2. injection He2 as <-.
    by rewrite Hd2, Hperm1.
Qed.

(** The generation step keeps the population valid: if every member
    held a tour of the cities before the step, every member of the next
    generation holds one after it, and so does the genome returned. *)
Theorem generation_keeps_tours (cities : list City) (self : Population)
    (c_type m_type : string) (w w' : world) (best : Genome) (pop' : Population) :
  NoDup cities →
  (∀ m, m ∈ members self → holds_tour cities w m) →
  generate_next_generation position self c_type m_type w = (Ok (best, pop'), w') →
  holds_tour cities w' best ∧
  ∀ m, m ∈ members pop' → holds_tour cities w' m.
Proof.
  intros Hnd Hval Hrun.
  pose proof (generate_next_generation_Ok _ _ _ _ _ _ _ _ Hrun)
    as (_ & _ & _ & _ & _ & _ & Hframe).
  apply generate_next_generation_stages in Hrun
    as (keyed & parents & w1 & children & Hkeys & Hch & Hbreed & -> & Hlast).
  apply choices_loop_Ok in Hch as (Hg1 & _ & Hpin).
  set (ranked := (sort_by_key keyed).*2) in *.
  assert (ranked ≡ₚ members self) as Hranked.
  { unfold ranked. rewrite (sort_by_key_Permutation keyed).
    by apply with_keys_Ok in Hkeys as [-> _]. }
  assert (∀ m, m ∈ members self → holds_tour cities w' m) as Hold.
  { intros m Hm. apply (holds_tour_frame cities w); [by auto|].
    apply Hframe. by apply holds_tour_lt with cities, Hval. }
  split.
  - apply Hold. rewrite <-Hranked. rewrite last_lookup in Hlast.
    by eapply list_elem_of_lookup_2.
  - simpl. intros m [Hm|Hm]%elem_of_app.
    + eapply (breed_tours cities); [done| | |exact Hbreed|done].
      * intros p Hp%Hpin%elem_of_py_slice_from. rewrite Hranked in Hp.
        apply (holds_tour_frame cities w); [by auto|by rewrite Hg1].
      * by intros g ?%elem_of_nil.
    + apply Hold. rewrite <-Hranked. by eapply elem_of_py_slice_from.
Qed.

End generation_step.

Lemma generation_members_distinct_witness :
  ∃ best pop' w',
    generate_next_generation (AR := float_arith) (GL := source_globals)
      example_position example_population "ox" "swap" example_world
      = (Ok (best, pop'), w') ∧
    NoDup (members pop') ∧
    ∃ children elites,
      members pop' = children ++ elites ∧
      (∀ m, m ∈ children →
         length (genomes example_world) ≤ m < length (genomes w')) ∧
      (∀ m, m ∈ elites →
         m ∈ members example_population ∧ m < length (genomes example_world)).
Proof.
  destruct example_run_returns as (best & pop' & w' & Hrun).
  exists best, pop', w'. split; [exact Hrun|].
  apply (generation_members_distinct (AR := float_arith) (GL := source_globals)
           example_position example_population "ox" "swap" example_world
           w' best pop'); [|exact Hrun].
  apply NoDup_seq.
Defined.

Lemma generation_keeps_tours_witness :
  ∃ best pop' w',
    generate_next_generation (AR := float_arith) (GL := source_globals)
      example_position example_population "ox" "swap" example_world
      = (Ok (best, pop'), w') ∧
    holds_tour [0; 1; 2; 3] w' best ∧
    ∀ m, m ∈ members pop' → holds_tour [0; 1; 2; 3] w' m.
Proof.
  destruct example_run_returns as (best & pop' & w' & Hrun).
  exists best, pop', w'. split; [exact Hrun|].
  apply (generation_keeps_tours (AR := float_arith) (GL := source_globals)
           example_position [0; 1; 2; 3] example_population "ox" "swap"
           example_world w' best pop'); [|exact example_members_hold_tours|exact Hrun].
  apply (bool_decide_unpack _). vm_compute. exact I.
Defined.

(** ** The generation step: where it fails *)

Lemma M_bind_raise {A B} (m : M A) (k : A → M B) (w w1 : world) (e : exn) :
  m w = (Raise e, w1) → (m ≫= k) w = (Raise e, w1).
Proof. unfold mbind, M_bind. by intros ->. Qed.

Lemma range_step2_nonpositive (n : Z) : Z.to_nat n = 0 → range_step2 n = [].
Proof.
  intros Hn. unfold range_step2.
  replace (Z.to_nat ((n + 1) / 2)) with 0; [done|].
  assert ((n + 1) / 2 < 1)%Z; [|lia].
  apply Z.div_lt_upper_bound; lia.
Qed.





Section failures.
Context {AR : Arith} {GL : Globals}.
Variable position : City → num * num.

(** A population without members cannot make a step: the step raises
    [IndexError], from [random.choices] on the empty ranking when
    parents are asked for, and from [sorted_members[-1]] otherwise. No
    genome is created or changed. *)
Theorem generation_empty_population (n : Z) (c_type m_type : string) (w : world) :
  ∃ w',
    generate_next_generation position {| size := n; members := [] |}
      c_type m_type w = (Raise IndexError, w') ∧
    genomes w' = genomes w.
Proof.
  set (self := {| size := n; members := [] |}).
  assert (∀ w0, sort_members position self w0 = (Ok [], w0)) as Hsort
    by reflexivity.
  assert (∀ k : Z, py_slice_from (@nil Genome) k = []) as Hslice
    by (intros k; destruct (py_slice_from_drop (@nil Genome) k) as [j ->];
        by destruct j).
  unfold generate_next_generation. change (size self) with n.
  destruct (Z.to_nat (n - ELITISM)) as [|k] eqn:E.
  - exists w. split; [|done].
    erewrite M_bind_run; cycle 1.
    { unfold top_k_selection. erewrite M_bind_run; [|apply Hsort].
      rewrite Hslice. unfold choices. rewrite E. reflexivity. }
    rewrite range_step2_nonpositive by done.
    erewrite M_bind_run; [|reflexivity].
    erewrite M_bind_run; [|apply Hsort].
    by apply M_bind_raise.
  - destruct (draw_total w) as (d & w1 & Hd).
    exists w1. split; [|by apply draw_Ok in Hd].
    apply M_bind_raise.
    unfold top_k_selection. erewrite M_bind_run; [|apply Hsort].
    rewrite Hslice. unfold choices. rewrite E. cbn [choices_loop].
    erewrite M_bind_run; [|exact Hd]. by apply M_bind_raise.
Qed.

End failures.

Section odd_parents.
Context {AR : Arith} {GL : Globals}.
Variable position : City → num * num.
Variable cities : list City.
Hypothesis cities_NoDup : NoDup cities.
Hypothesis cities_two : 2 ≤ length cities.


End odd_parents.


(** ** Selection *)

Section selection.
Context {AR : Arith}.
Variable position : City → num * num.

(** For a count [k] of at least 1, every parent that the selection
    returns is among the [k] last of a ranking of the members by
    ascending fitness; the selection returns [n] parents and changes no
    genome. *)
Theorem top_k_selection_from_top (self : Population) (n k : Z)
    (w w' : world) (parents : list Genome) (keyed : list (num * Genome)) :
  with_keys position (members self) w = (Ok keyed, w) →
  keys_ordered (keyed.*1) = true →
  (1 ≤ k)%Z →
  top_k_selection position self n k w = (Ok parents, w') →
  genomes w' = genomes w ∧ length parents = Z.to_nat n ∧
  ∃ ranked,
    ranked ≡ₚ keyed ∧ ascending ranked ∧
    ∀ p, p ∈ parents → p ∈ drop (length ranked - Z.to_nat k) (ranked.*2).
Proof.
  intros Hkeys Hord Hk Hrun. unfold top_k_selection, sort_members in Hrun.
  apply M_bind_Ok in Hrun as (ranked & w0 & Hrank & Hch).
  apply M_bind_Ok in Hrank as (keyed' & w0' & Hkeys' & [-> ->]%M_ret_Ok).
  pose proof (with_keys_state _ _ _ _ _ Hkeys') as ->.
  assert (keyed' = keyed) as -> by congruence.
  apply choices_loop_Ok in Hch as (Hg & Hlen & Hin).
  split; [done|]. split; [done|].
  exists (sort_by_key keyed). split_and!.
  - apply sort_by_key_Permutation.
  - by apply sort_by_key_ascending.
  - intros p Hp%Hin. rewrite py_slice_from_last in Hp by lia.
    by rewrite length_fmap in Hp.
Qed.

(** With a count of 0 the slice [members[-0:]] is the whole ranking:
    every member, the least fit too, can be selected. *)
Theorem top_k_selection_zero (self : Population) (w : world)
    (keyed : list (num * Genome)) (m : Genome) :
  with_keys position (members self) w = (Ok keyed, w) →
  m ∈ members self →
  ∃ t,
    top_k_selection position self 1 0 (World (genomes w) t)
      = (Ok [m], World (genomes w) []).
Proof.
  intros Hkeys Hm.
  assert (m ∈ (sort_by_key keyed).*2) as Hr.
  { rewrite (sort_by_key_Permutation keyed).
    by apply with_keys_Ok in Hkeys as [-> _]. }
  apply list_elem_of_lookup_1 in Hr as [i Hi].
  pose proof (lookup_lt_Some _ _ _ Hi) as Hlt.
  exists [i]. unfold top_k_selection, sort_members.
  erewrite M_bind_run; cycle 1.
  { erewrite M_bind_run; [reflexivity|].
    by apply (with_keys_frame _ _ w). }
  unfold py_slice_from, choices. simpl.
  unfold mbind at 1, M_bind at 1, draw. simpl.
  rewrite Nat.mod_small by done.
  erewrite M_bind_run; [|by apply lift_Ok, (conj (getitem_Some _ _ _ Hi))].
  reflexivity.
Qed.

End selection.

Lemma example_selection_returns :
  ∃ parents w',
    top_k_selection (AR := float_arith) example_position example_population
      2 25 example_world = (Ok parents, w').
Proof. eexists _, _. vm_compute. reflexivity. Qed.

Lemma top_k_selection_from_top_witness :
  ∃ parents w' keyed ranked,
    top_k_selection (AR := float_arith) example_position example_population
      2 25 example_world = (Ok parents, w') ∧
    genomes w' = genomes example_world ∧ length parents = 2 ∧
    ranked ≡ₚ keyed ∧ ascending (AR := float_arith) ranked ∧
    ∀ p, p ∈ parents → p ∈ drop (length ranked - 25) (ranked.*2).
Proof.
  destruct example_selection_returns as (parents & w' & Hrun).
  destruct example_keys_ordered as (keyed & Hkeys & Hord).
  destruct (top_k_selection_from_top (AR := float_arith) example_position
              example_population 2 25 example_world w' parents keyed
              Hkeys Hord ltac:(lia) Hrun) as (H1 & H2 & ranked & H3 & H4 & H5).
  exists parents, w', keyed, ranked.
  exact (conj Hrun (conj H1 (conj H2 (conj H3 (conj H4 H5))))).
Defined.

Lemma top_k_selection_zero_witness :
  ∃ t,
    top_k_selection (AR := float_arith) example_position example_population
      1 0 (World (genomes example_world) t)
      = (Ok [0], World (genomes example_world) []).
Proof.
  destruct example_keys_ordered as (keyed & Hkeys & _).
  apply (top_k_selection_zero (AR := float_arith) example_position
           example_population example_world keyed 0 Hkeys).
  by left.
Defined.

(** ** The mutations, position by position *)

(** The swap mutation exchanges the genes at two distinct positions and
    leaves every other position and every other genome as it was; on a
    chromosome without a repeated gene the result differs from the
    chromosome it started from. *)
Theorem swap_mutation_exchanges (self : Genome) (c : Chromosome) (w w' : world) :
  genomes w !! self = Some c →
  swap_mutation self w = (Ok tt, w') →
  ∃ p1 p2 c',
    p1 < length c ∧ p2 < length c ∧ p1 ≠ p2 ∧
    genomes w' = <[self := c']> (genomes w) ∧
    c' !! p1 = c !! p2 ∧ c' !! p2 = c !! p1 ∧
    (∀ i, i ≠ p1 → i ≠ p2 → c' !! i = c !! i) ∧
    (NoDup c → c' ≠ c).
Proof.
  intros Hc Hrun. rewrite swap_mutation_method in Hrun.
  apply mutation_method_Ok in Hrun
    as (c0 & p1 & p2 & w1 & Hc0 & _ & H1 & H2 & Hne & Hg).
  simplify_eq. simpl in Hg. unfold swap_at in Hg.
  exists p1, p2, (swap_genes c p1 p2).
  assert (swap_genes c p1 p2 !! p1 = c !! p2) as Ha.
  { rewrite swap_genes_lookup by done. by rewrite decide_False, decide_True. }
  split_and!; try done.
  - rewrite swap_genes_lookup by done. by rewrite decide_True.
  - intros i ??. rewrite swap_genes_lookup by done. by rewrite !decide_False.
  - intros Hnd Heq. rewrite Heq in Ha.
    destruct (lookup_lt_is_Some_2 c p1 H1) as [x Hx].
    rewrite Hx in Ha. symmetry in Ha.
    by pose proof (NoDup_lookup c p1 p2 x Hnd Hx Ha).
Qed.

Lemma swap_mutation_exchanges_witness :
  ∃ p1 p2 c',
    p1 < 4 ∧ p2 < 4 ∧ p1 ≠ p2 ∧
    genomes (World [chromosome_of [0; 2; 1; 3]] []) = <[0 := c']> [chromosome_of [0; 1; 2; 3]] ∧
    c' !! p1 = chromosome_of [0; 1; 2; 3] !! p2 ∧
    c' !! p2 = chromosome_of [0; 1; 2; 3] !! p1 ∧
    (∀ i, i ≠ p1 → i ≠ p2 → c' !! i = chromosome_of [0; 1; 2; 3] !! i) ∧
    (NoDup (chromosome_of [0; 1; 2; 3]) → c' ≠ chromosome_of [0; 1; 2; 3]).
Proof.
  apply (swap_mutation_exchanges 0 (chromosome_of [0; 1; 2; 3])
           (World [chromosome_of [0; 1; 2; 3]] [1; 1])
           (World [chromosome_of [0; 2; 1; 3]] [])).
  - reflexivity.
  - vm_compute. reflexivity.
Defined.

Lemma lookup_py_slice {A} (l : list A) (i j k : nat) :
  k < j - i → py_slice l i j !! k = l !! (i + k).
Proof. intros Hk. unfold py_slice. by rewrite lookup_take_lt, lookup_drop. Qed.

(** The chromosome after an inversion, read at position [i]. *)
Lemma inversion_at_lookup (p1 p2 i : nat) (c : Chromosome) :
  p1 ≤ p2 → p2 ≤ length c →
  inversion_at p1 p2 c !! i =
    if decide (p1 ≤ i < p2) then c !! (p1 + p2 - 1 - i) else c !! i.
Proof.
  intros H12 H2. unfold inversion_at. simpl.
  assert (length (py_slice c p1 p2) = p2 - p1) as Hlen
    by (unfold py_slice; rewrite length_take, length_drop; lia).
  destruct (decide (i < p1)) as [Hi|Hi].
  - rewrite lookup_app_l by (rewrite length_take; lia).
    rewrite lookup_take_lt by done. by rewrite decide_False by lia.
  - rewrite lookup_app_r by (rewrite length_take; lia).
    rewrite length_take, Nat.min_l by lia.
    destruct (decide (i < p2)) as [Hi2|Hi2].
    + rewrite lookup_app_l by (rewrite length_reverse; lia).
      rewrite reverse_lookup by lia. rewrite Hlen.
      rewrite lookup_py_slice by lia. rewrite decide_True by lia.
      f_equal. lia.
    + rewrite lookup_app_r by (rewrite length_reverse; lia).
      rewrite length_reverse, Hlen, lookup_drop.
      rewrite decide_False by lia. f_equal. lia.
Qed.

(** The inversion mutation reverses the genes at the positions from the
    smaller sampled position up to, but not including, the larger one.
    Every other position keeps its gene: the gene at the larger
    position, and so the last gene of the chromosome, never moves. *)
Theorem inversion_mutation_reverses (self : Genome) (c : Chromosome)
    (w w' : world) :
  genomes w !! self = Some c →
  inversion_mutation self w = (Ok tt, w') →
  ∃ p1 p2 c',
    p1 < p2 ∧ p2 < length c ∧
    genomes w' = <[self := c']> (genomes w) ∧
    length c' = length c ∧
    (∀ i, p1 ≤ i < p2 → c' !! i = c !! (p1 + p2 - 1 - i)) ∧
    (∀ i, ¬ (p1 ≤ i < p2) → c' !! i = c !! i) ∧
    last c' = last c.
Proof.
  intros Hc Hrun. rewrite inversion_mutation_method in Hrun.
  apply mutation_method_Ok in Hrun
    as (c0 & q1 & q2 & w1 & Hc0 & _ & H1 & H2 & Hne & Hg).
  simplify_eq. simpl in Hg.
  set (p1 := q1 `min` q2) in *. set (p2 := q1 `max` q2) in *.
  assert (p1 < p2 ∧ p2 < length c) as [H12 Hp2] by lia.
  assert (∀ i, inversion_at p1 p2 c !! i =
            if decide (p1 ≤ i < p2) then c !! (p1 + p2 - 1 - i) else c !! i)
    as Hlook by (intros; apply inversion_at_lookup; lia).
  assert (length (inversion_at p1 p2 c) = length c) as Hlen
    by (apply Permutation_length, inversion_at_perm; lia).
  exists p1, p2, (inversion_at p1 p2 c). split_and!; try done.
  - intros i Hi. by rewrite Hlook, decide_True.
  - intros i Hi. by rewrite Hlook, decide_False.
  - rewrite !last_lookup, Hlen, Hlook. by rewrite decide_False by lia.
Qed.

Lemma inversion_mutation_reverses_witness :
  ∃ p1 p2 c',
    p1 < p2 ∧ p2 < 4 ∧
    genomes (World [chromosome_of [1; 0; 2; 3]] [])
      = <[0 := c']> [chromosome_of [0; 1; 2; 3]] ∧
    length c' = 4 ∧
    (∀ i, p1 ≤ i < p2 → c' !! i = chromosome_of [0; 1; 2; 3] !! (p1 + p2 - 1 - i)) ∧
    (∀ i, ¬ (p1 ≤ i < p2) → c' !! i = chromosome_of [0; 1; 2; 3] !! i) ∧
    last c' = last (chromosome_of [0; 1; 2; 3]).
Proof.
  apply (inversion_mutation_reverses 0 (chromosome_of [0; 1; 2; 3])
           (World [chromosome_of [0; 1; 2; 3]] [2; 0])
           (World [chromosome_of [1; 0; 2; 3]] [])).
  - reflexivity.
  - vm_compute. reflexivity.
Defined.

(** ** Chromosomes too short to work on *)

(** On a chromosome of fewer than two genes, each of the three
    mutations raises [ValueError] ([random.sample] is asked for two
    positions out of fewer) and leaves the state as it was. *)
Theorem mutation_needs_two_genes (self : Genome) (c : Chromosome)
    (type : string) (w : world) :
  genomes w !! self = Some c → length c < 2 →
  type ∈ ["swap"; "inverse"; "2-opt"] →
  mutate self type w = (Raise ValueError, w).
Proof.
  intros Hc Hlen Hty.
  assert (∀ f, mutation_method f self w = (Raise ValueError, w)) as Hm.
  { intros f. unfold mutation_method.
    erewrite M_bind_run; [|by apply get_chromosome_run].
    apply M_bind_raise. unfold sample2. by rewrite decide_True. }
  unfold mutate. rewrite !elem_of_cons, elem_of_nil in Hty.
  destruct Hty as [->|[->|[->|[]]]]; simpl.
  - rewrite swap_mutation_method. apply Hm.
  - rewrite inversion_mutation_method. apply Hm.
  - rewrite two_opt_mutation_method. apply Hm.
Qed.

Lemma mutation_needs_two_genes_witness :
  mutate 0 "inverse" (World [chromosome_of [5]] [1; 2])
    = (Raise ValueError, World [chromosome_of [5]] [1; 2]).
Proof.
  apply (mutation_needs_two_genes 0 (chromosome_of [5])).
  - reflexivity.
  - simpl. lia.
  - right. by left.
Defined.

(** The order crossover and the partially-mapped crossover need a first
    parent of two genes or more: on a shorter one they raise
    [ValueError]. The cycle crossover reads [parent1.chromosome[0]]: on
    an empty first parent it raises [IndexError]. In each case the state
    is left as it was, and no genome is created. *)
Theorem crossover_needs_genes (parent1 parent2 : Genome) (c1 c2 : Chromosome)
    (c_type : string) (w : world) :
  genomes w !! parent1 = Some c1 → genomes w !! parent2 = Some c2 →
  (c_type ∈ ["ox"; "pmx"] → length c1 < 2 →
   crossover parent1 parent2 c_type w = (Raise ValueError, w)) ∧
  (c_type = "cx" → c1 = [] →
   crossover parent1 parent2 c_type w = (Raise IndexError, w)).
Proof.
  intros Hc1 Hc2. split.
  - intros Hty Hlen. unfold crossover.
    rewrite !elem_of_cons, elem_of_nil in Hty.
    destruct Hty as [->|[->|[]]]; simpl; apply M_bind_raise.
    + unfold order_crossover.
      erewrite M_bind_run; [|by apply get_chromosome_run].
      erewrite M_bind_run; [|by apply get_chromosome_run].
      apply M_bind_raise. unfold sample2. by rewrite decide_True.
    + unfold partially_mapped_crossover.
      erewrite M_bind_run; [|by apply get_chromosome_run].
      erewrite M_bind_run; [|by apply get_chromosome_run].
      apply M_bind_raise. unfold sample2. by rewrite decide_True.
  - intros -> ->. unfold crossover. simpl. apply M_bind_raise.
    unfold cycle_crossover.
    erewrite M_bind_run; [|by apply get_chromosome_run].
    erewrite M_bind_run; [|by apply get_chromosome_run].
    by apply M_bind_raise.
Qed.

Lemma crossover_needs_genes_witness :
  (crossover 0 1 "pmx" (World [chromosome_of [5]; chromosome_of [5]] [1; 2])
     = (Raise ValueError, World [chromosome_of [5]; chromosome_of [5]] [1; 2])) ∧
  (crossover 0 1 "cx" (World [[]; []] [1; 2])
     = (Raise IndexError, World [[]; []] [1; 2])).
Proof.
  split.
  - apply (crossover_needs_genes 0 1 (chromosome_of [5]) (chromosome_of [5]));
      [reflexivity|reflexivity|by right; left|simpl; lia].
  - by apply (crossover_needs_genes 0 1 [] []).
Defined.

(** ** The crossovers, position by position *)

(** The two children of a crossover, as stored. *)
Lemma allocates_lookup (child1 child2 : Genome) (d1 d2 : Chromosome)
    (w w' : world) :
  allocates child1 child2 d1 d2 w w' →
  genomes w' !! child1 = Some d1 ∧ genomes w' !! child2 = Some d2.
Proof.
  intros (-> & -> & ->). split.
  - by rewrite lookup_app_r, Nat.sub_diag by lia.
  - rewrite lookup_app_r by lia. by replace (S _ - _) with 1 by lia.
Qed.

Lemma rotate_inj {A} (k : nat) (l1 l2 : list A) :
  length l1 = length l2 → rotate k l1 = rotate k l2 → l1 = l2.
Proof.
  intros Hlen. unfold rotate. rewrite <-Hlen.
  generalize (k mod length l1). intros m Heq.
  apply app_inj_1 in Heq as [Hd Ht]; [|by rewrite !length_drop, Hlen].
  by rewrite <-(take_drop m l1), <-(take_drop m l2), Hd, Ht.
Qed.

(** *** Order crossover *)

(** The child that [orderly_insert] completes, read from the second cut
    point on and wrapping: the genes of the parent in that same reading
    order, without those of the segment, and then the segment. *)
Lemma orderly_insert_layout (p1 p2 : nat) (parent_x other : Chromosome) :
  NoDup parent_x → parent_x ≡ₚ other → None ∉ parent_x →
  p1 ≤ p2 → p2 < length parent_x →
  ∃ child,
    orderly_insert parent_x
      (slice_assign (replicate (length parent_x) None) p1 p2 (py_slice other p1 p2))
      p2 = Ok child ∧
    length child = length parent_x ∧
    rotate p2 child =
      filter (λ g, g ∉ py_slice other p1 p2) (rotate p2 parent_x)
      ++ py_slice other p1 p2.
Proof.
  intros Hnd Hperm Hnone Hp Hp2.
  set (n := length parent_x). set (seg := py_slice other p1 p2).
  assert (length other = n) as Hlo by (by rewrite <-Hperm).
  assert (length seg = p2 - p1) as Hseg by (apply length_py_slice; lia).
  assert (NoDup seg) as Hndseg.
  { eapply (sublist_NoDup _ other); [by rewrite <-Hperm|apply py_slice_sublist]. }
  assert (∀ x, x ∈ seg → x ∈ parent_x) as Hsub.
  { intros x Hx. rewrite Hperm. eapply elem_of_sublist; [done|apply py_slice_sublist]. }
  pose proof (filter_not_in_Permutation (rotate p2 parent_x) seg) as Hfilter.
  rewrite (rotate_Permutation p2 parent_x) in Hfilter at 3.
  specialize (Hfilter ltac:(by rewrite rotate_Permutation) Hndseg
                      ltac:(intros x; rewrite elem_of_rotate; apply Hsub)).
  pose proof (Permutation_length Hfilter) as Hflen. rewrite length_app in Hflen.
  fold n in Hflen.
  unfold orderly_insert. rewrite swapped_parent_rotate.
  destruct (orderly_loop_rotated seg n p2 (n - (p2 - p1)) (rotate p2 parent_x) []
              (slice_assign (replicate n None) p1 p2 seg))
    as (child & Hrun & Hlen & Hrot).
  - done.
  - rewrite length_slice_assign; rewrite ?length_replicate; lia.
  - by rewrite elem_of_rotate.
  - simpl. by rewrite rotate_Permutation.
  - simpl. lia.
  - lia.
  - simpl. rewrite Nat.sub_0_r. rewrite slice_assign_replicate by lia.
    unfold rotate. rewrite !length_app, !length_replicate, Hseg.
    replace (p1 + (p2 - p1 + (n - p2))) with n by lia.
    rewrite Nat.mod_small by lia.
    rewrite app_assoc. rewrite drop_app_length', take_app_length'
      by (rewrite length_app, length_replicate; lia).
    rewrite app_assoc, <-replicate_add. do 2 f_equal. lia.
  - exists child. simpl in Hrun, Hrot. rewrite Nat.add_0_r in Hrun.
    split; [exact Hrun|]. split; [done|]. rewrite Hrot.
    replace (n - (p2 - p1) - 0 - _) with 0 by lia. done.
Qed.

(** A list that ends, read from [p2] on and wrapping, with the segment
    holds the segment at the positions from [p1] up to [p2]. *)
Lemma rotate_segment (p1 p2 : nat) (child front seg : Chromosome) :
  p1 ≤ p2 → p2 < length child → length seg = p2 - p1 →
  rotate p2 child = front ++ seg →
  py_slice child p1 p2 = seg.
Proof.
  intros Hp Hp2 Hseg Hrot.
  assert (length front = length child - (p2 - p1)) as Hfront.
  { apply (f_equal length) in Hrot.
    rewrite length_rotate, length_app in Hrot. lia. }
  apply list_eq. intros j. destruct (decide (j < p2 - p1)) as [Hj|Hj].
  - rewrite lookup_py_slice by done.
    assert ((front ++ seg) !! (length front + j) = seg !! j) as <-
      by (rewrite lookup_app_r by lia; f_equal; lia).
    rewrite <-Hrot, lookup_rotate_r by lia. rewrite rotate_nat_add_mod.
    f_equal. rewrite Hfront.
    replace (p2 + (length child - (p2 - p1) + j))
      with (p1 + j + 1 * length child) by lia.
    rewrite Nat.Div0.mod_add. rewrite Nat.mod_small; lia.
  - rewrite !(proj2 (lookup_ge_None _ _)); [done|lia|].
    pose proof (length_py_slice_le child p1 p2). lia.
Qed.

(** The order crossover: each child holds the other parent's genes
    between the cut points; and read from the second cut point on,
    wrapping, it holds the genes of its own parent that are not in that
    segment, in the order they have in the parent read the same way,
    and then the segment. *)
Theorem order_crossover_layout (parent1 parent2 : Genome) (c1 c2 : Chromosome)
    (w w' : world) (child1 child2 : Genome) :
  genomes w !! parent1 = Some c1 → genomes w !! parent2 = Some c2 →
  NoDup c1 → c1 ≡ₚ c2 → None ∉ c1 →
  crossover parent1 parent2 "ox" w = (Ok (Some (child1, child2)), w') →
  ∃ p1 p2 d1 d2,
    p1 ≤ p2 ∧ p2 < length c1 ∧
    genomes w' !! child1 = Some d1 ∧ genomes w' !! child2 = Some d2 ∧
    py_slice d1 p1 p2 = py_slice c2 p1 p2 ∧
    py_slice d2 p1 p2 = py_slice c1 p1 p2 ∧
    rotate p2 d1 =
      filter (λ g, g ∉ py_slice c2 p1 p2) (rotate p2 c1) ++ py_slice c2 p1 p2 ∧
    rotate p2 d2 =
      filter (λ g, g ∉ py_slice c1 p1 p2) (rotate p2 c2) ++ py_slice c1 p1 p2.
Proof.
  intros Hc1 Hc2 Hnd Hperm Hnone Hrun.
  apply crossover_Ok in Hrun
    as (c1' & c2' & d1 & d2 & Hc1' & Hc2' & Halloc & Hkernel).
  simplify_eq.
  destruct Hkernel as [(_ & p1 & p2 & Hp & Hp2 & Hk)|[[[=] _]|[[=] _]]].
  assert (length c2 = length c1) as Hlen by (by rewrite <-Hperm).
  destruct (orderly_insert_layout p1 p2 c1 c2) as (e1 & He1 & Hl1 & Hr1);
    [done..|].
  destruct (orderly_insert_layout p1 p2 c2 c1) as (e2 & He2 & Hl2 & Hr2);
    [by rewrite <-Hperm|done|by rewrite <-Hperm|done|lia|].
  unfold order_crossover_at in Hk. simpl in Hk.
  rewrite He1 in Hk. simpl in Hk. rewrite Hlen in He2.
  rewrite Hlen, He2 in Hk. simpl in Hk. injection Hk as <- <-.
  apply allocates_lookup in Halloc as [Hd1 Hd2].
  exists p1, p2, e1, e2. split_and!; try done.
  - eapply rotate_segment; [done|lia| |exact Hr1]. apply length_py_slice. lia.
  - eapply rotate_segment; [done|lia| |exact Hr2]. apply length_py_slice. lia.
Qed.

(** *** Partially-mapped crossover *)

Section pmx_positions.
Context (p1 p2 : nat) (parent_x other : Chromosome) (ms : list (Gene * Gene)).
Hypothesis Hnd : NoDup parent_x.
Hypothesis Hperm : parent_x ≡ₚ other.
Hypothesis Hnone : None ∉ parent_x.
Hypothesis Hp1 : p1 ≤ p2.
Hypothesis Hp2 : p2 ≤ length parent_x.
Hypothesis Hms1 : ms.*1 = py_slice parent_x p1 p2.
Hypothesis Hms2 : ms.*2 = py_slice other p1 p2.

(** The child that [fill_chromosome] completes: the segment of the
    other parent between the cut points; outside, the parent's own gene
    unless the segment holds it, and then a gene of the parent's own
    segment that the other parent's segment does not hold. *)
Lemma pmx_fill_positions :
  ∃ child,
    pmx_fill p1 p2 ms
      (slice_assign (replicate (length parent_x) None) p1 p2 (py_slice other p1 p2))
      parent_x = Ok child ∧
    length child = length parent_x ∧
    py_slice child p1 p2 = py_slice other p1 p2 ∧
    ∀ j g, ¬ (p1 ≤ j < p2) → parent_x !! j = Some g →
      if decide (g ∈ py_slice other p1 p2)
      then ∃ g', child !! j = Some g' ∧
                 g' ∈ py_slice parent_x p1 p2 ∧ (g' ∉ py_slice other p1 p2)
      else child !! j = Some g.
Proof using All.
  assert (length other = length parent_x) as Hlo by (by rewrite <-Hperm).
  unfold pmx_fill.
  destruct (pmx_fill_loop_spec p1 p2 parent_x other ms Hnd Hperm Hnone Hp1 Hp2
              Hms1 Hms2 (length parent_x) 0
    (slice_assign (replicate (length parent_x) None) p1 p2 (py_slice other p1 p2)))
    as (child & Hrun & Hlen & Hchild).
  - done.
  - rewrite length_slice_assign; rewrite ?length_replicate; try lia.
    rewrite length_py_slice; lia.
  - intros j Hj. rewrite slice_assign_replicate by lia. unfold pmx_state.
    destruct (decide (p1 ≤ j < p2)) as [Hseg|Hseg].
    + rewrite lookup_app_r by (rewrite length_replicate; lia).
      rewrite length_replicate.
      rewrite lookup_app_l by (rewrite length_py_slice; lia).
      rewrite lookup_py_slice by lia.
      replace (p1 + (j - p1)) with j by lia.
      apply list_lookup_lookup_total_lt. lia.
    + rewrite decide_False by lia.
      destruct (decide (j < p1)).
      * rewrite lookup_app_l by (rewrite length_replicate; lia).
        by apply lookup_replicate_2.
      * rewrite lookup_app_r by (rewrite length_replicate; lia).
        rewrite lookup_app_r by (rewrite length_replicate, length_py_slice; lia).
        apply lookup_replicate_2.
        rewrite length_replicate, length_py_slice by lia. lia.
  - exists child. split; [done|]. split; [done|]. split.
    + apply list_eq. intros j. destruct (decide (j < p2 - p1)) as [Hj|Hj].
      * rewrite !lookup_py_slice by done. rewrite Hchild by lia.
        unfold pmx_state. rewrite decide_True by lia.
        symmetry. apply list_lookup_lookup_total_lt. lia.
      * rewrite !(proj2 (lookup_ge_None _ _)); [done|..].
        -- pose proof (length_py_slice_le other p1 p2). lia.
        -- pose proof (length_py_slice_le child p1 p2). lia.
    + intros j g Hout Hg. pose proof (lookup_lt_Some _ _ _ Hg) as Hj.
      assert (child !! j = Some (pmx_gene ms (py_slice other p1 p2) g)) as Hcj.
      { rewrite Hchild by done. unfold pmx_state.
        rewrite decide_False, decide_True by done.
        by rewrite (list_lookup_total_correct _ _ _ Hg). }
      destruct (pmx_gene_spec p1 p2 parent_x other ms Hnd Hperm Hnone Hp1 Hp2
                  Hms1 Hms2 j g Hg Hout) as [Hnot Hcases].
      case_decide as Hin.
      * eexists. split; [exact Hcj|]. split; [|done].
        destruct Hcases as [Heq|[_ ?]]; [|done]. by rewrite Heq in Hnot.
      * rewrite Hcj. unfold pmx_gene. by rewrite decide_False.
Qed.

End pmx_positions.

(** The partially-mapped crossover: each child holds the other parent's
    genes between the cut points. Outside them it holds its own parent's
    gene at the same position, unless that gene already stands in the
    segment; it then holds a gene of its own parent's segment that the
    other parent's segment lacks. *)
Theorem partially_mapped_crossover_positions (parent1 parent2 : Genome)
    (c1 c2 : Chromosome) (w w' : world) (child1 child2 : Genome) :
  genomes w !! parent1 = Some c1 → genomes w !! parent2 = Some c2 →
  NoDup c1 → c1 ≡ₚ c2 → None ∉ c1 →
  crossover parent1 parent2 "pmx" w = (Ok (Some (child1, child2)), w') →
  ∃ p1 p2 d1 d2,
    p1 ≤ p2 ∧ p2 < length c1 ∧
    genomes w' !! child1 = Some d1 ∧ genomes w' !! child2 = Some d2 ∧
    py_slice d1 p1 p2 = py_slice c2 p1 p2 ∧
    py_slice d2 p1 p2 = py_slice c1 p1 p2 ∧
    (∀ j g, ¬ (p1 ≤ j < p2) → c1 !! j = Some g →
       if decide (g ∈ py_slice c2 p1 p2)
       then ∃ g', d1 !! j = Some g' ∧
                  g' ∈ py_slice c1 p1 p2 ∧ (g' ∉ py_slice c2 p1 p2)
       else d1 !! j = Some g) ∧
    (∀ j g, ¬ (p1 ≤ j < p2) → c2 !! j = Some g →
       if decide (g ∈ py_slice c1 p1 p2)
       then ∃ g', d2 !! j = Some g' ∧
                  g' ∈ py_slice c2 p1 p2 ∧ (g' ∉ py_slice c1 p1 p2)
       else d2 !! j = Some g).
Proof.
  intros Hc1 Hc2 Hnd Hperm Hnone Hrun.
  apply crossover_Ok in Hrun
    as (c1' & c2' & d1 & d2 & Hc1' & Hc2' & Halloc & Hkernel).
  simplify_eq.
  destruct Hkernel as [[[=] _]|[(_ & p1 & p2 & Hp & Hp2 & Hk)|[[=] _]]].
  assert (length c2 = length c1) as Hlen by (by rewrite <-Hperm).
  assert (length (py_slice c1 p1 p2) = length (py_slice c2 p1 p2)) as Hseg
    by (rewrite !length_py_slice; lia).
  set (ms := zip (py_slice c1 p1 p2) (py_slice c2 p1 p2)) in *.
  destruct (pmx_fill_positions p1 p2 c1 c2 ms) as (e1 & He1 & _ & Hs1 & Ho1);
    [done..|lia| | |].
  { apply fst_zip. lia. }
  { apply snd_zip. lia. }
  destruct (pmx_fill_positions p1 p2 c2 c1 (prod_swap <$> ms))
    as (e2 & He2 & _ & Hs2 & Ho2);
    [by rewrite <-Hperm|done|by rewrite <-Hperm|done|lia| | |].
  { rewrite <-list_fmap_compose.
    replace ((fst ∘ prod_swap) <$> ms) with (ms.*2) by (by apply list_fmap_ext).
    apply snd_zip. lia. }
  { rewrite <-list_fmap_compose.
    replace ((snd ∘ prod_swap) <$> ms) with (ms.*1) by (by apply list_fmap_ext).
    apply fst_zip. lia. }
  unfold partially_mapped_crossover_at in Hk. simpl in Hk. fold ms in Hk.
  rewrite He1 in Hk. simpl in Hk. unfold pmx_fill in He2, Hk.
  rewrite pmx_fill_loop_flip, Hlen in He2. rewrite Hlen, He2 in Hk.
  simpl in Hk. injection Hk as <- <-.
  apply allocates_lookup in Halloc as [Hd1 Hd2].
  by exists p1, p2, e1, e2.
Qed.

(** *** Cycle crossover *)

(** What the [while] loop has written at a position stays the parents'
    genes at that position. *)
Lemma cycle_loop_keeps (parent1 parent2 : Chromosome) (first : Gene) (k : nat)
    (fuel index : nat) (g : Gene) (c1 c2 c1' c2' : Chromosome) :
  parent1 !! index = Some g →
  k = index ∨ (c1 !! k = parent1 !! k ∧ c2 !! k = parent2 !! k) →
  cycle_loop fuel parent1 parent2 first index g c1 c2 = Ok (c1', c2') →
  c1' !! k = parent1 !! k ∧ c2' !! k = parent2 !! k.
Proof.
  revert index g c1 c2. induction fuel as [|fuel IH]; [done|].
  intros index g c1 c2 Hg Hk. cbn [cycle_loop]. intros Hrun.
  apply result_bind_Ok in Hrun as (q & Hq%getitem_Ok & Hrun).
  apply result_bind_Ok in Hrun as (c1a & [Hl1 ->]%setitem_Ok & Hrun).
  apply result_bind_Ok in Hrun as (c2a & [Hl2 ->]%setitem_Ok & Hrun).
  apply result_bind_Ok in Hrun as (index' & Hidx & Hrun).
  apply result_bind_Ok in Hrun as (g' & Hg'%getitem_Ok & Hrun).
  assert (<[index:=g]> c1 !! k = parent1 !! k ∧
          <[index:=q]> c2 !! k = parent2 !! k) as Hkept.
  { destruct (decide (k = index)) as [->|Hne].
    - rewrite !list_lookup_insert_eq by done. by rewrite Hg, Hq.
    - rewrite !list_lookup_insert_ne by done. by destruct Hk. }
  case_decide.
  - by injection Hrun as <- <-.
  - eapply IH; [exact Hg'|by right|exact Hrun].
Qed.

Section cx_positions.
Context (parent1 parent2 : Chromosome).
Hypothesis Hnd : NoDup parent1.
Hypothesis Hperm : parent1 ≡ₚ parent2.
Hypothesis Hnone : None ∉ parent1.

(** Each position of the children holds the parents' two genes of that
    position, as they stand or exchanged; position 0 is not exchanged. *)
Lemma cycle_crossover_at_positions :
  0 < length parent1 →
  ∃ child1 child2,
    cycle_crossover_at parent1 parent2 = Ok (child1, child2) ∧
    length child1 = length parent1 ∧ length child2 = length parent1 ∧
    child1 !! 0 = parent1 !! 0 ∧ child2 !! 0 = parent2 !! 0 ∧
    ∀ j, j < length parent1 →
      (child1 !! j = parent1 !! j ∧ child2 !! j = parent2 !! j) ∨
      (child1 !! j = parent2 !! j ∧ child2 !! j = parent1 !! j).
Proof using Hnd Hperm Hnone.
  intros Hn. pose proof (cx_length2 parent1 parent2 Hperm) as Hlen2.
  destruct (lookup_lt_is_Some_2 parent1 0 Hn) as [first Hfirst].
  unfold cycle_crossover_at. simpl. rewrite (getitem_Some _ _ _ Hfirst). simpl.
  destruct (cycle_loop_spec parent1 parent2 Hnd Hperm (length parent1) [] 0
              first first
              (replicate (length parent1) None) (replicate (length parent1) None))
    as (I & c1 & c2 & Hrun & Hl1 & Hl2 & Hc1 & Hc2 & Hfwd & Hbwd);
    [done|constructor|apply NoDup_singleton|simpl; lia|done
    |by rewrite length_replicate..| | |].
  { intros j Hj. by rewrite lookup_replicate_2. }
  { intros j Hj. by rewrite lookup_replicate_2. }
  rewrite Hrun. simpl.
  assert (None ∉ parent2) as Hnone2 by (by rewrite <-Hperm).
  assert (0 ∈ I) as Hzero.
  { destruct (cycle_loop_keeps _ _ _ 0 _ _ _ _ _ _ _ Hfirst (or_introl eq_refl) Hrun)
      as [Hk _].
    rewrite Hc1, Hfirst in Hk by done. unfold visited_state in Hk.
    case_decide; [done|]. injection Hk as <-.
    destruct Hnone. by eapply list_elem_of_lookup_2. }
  assert (∀ (A B c : Chromosome),
    length A = length parent1 → length B = length parent1 →
    length c = length parent1 → None ∉ A →
    (∀ j, j < length parent1 → c !! j = Some (visited_state I A j)) →
    ∃ c', cx_fill c B = Ok c' ∧ length c' = length parent1 ∧
          ∀ j, j < length parent1 →
            c' !! j = if decide (j ∈ I) then A !! j else B !! j) as Hfill.
  { intros A B c HA HB Hc HnA Hst. unfold cx_fill.
    destruct (cx_fill_loop_spec B (length c) 0 c) as (c' & Hr & Hl & Hc');
      [done|lia|].
    exists c'. split_and!; [done|lia|]. intros j Hj. rewrite Hc' by lia.
    rewrite decide_True by lia.
    rewrite (list_lookup_total_correct _ _ _ (Hst j Hj)), (Hst j Hj).
    unfold visited_state. case_decide; [|done].
    assert (A !! j = Some (A !!! j)) as HAj
      by (apply list_lookup_lookup_total_lt; lia).
    destruct (A !!! j) eqn:E; [done|].
    destruct HnA. by eapply list_elem_of_lookup_2. }
  destruct (Hfill parent1 parent2 c1) as (d1 & Hd1 & Hld1 & Hd1'); [done..|].
  destruct (Hfill parent2 parent1 c2) as (d2 & Hd2 & Hld2 & Hd2'); [done..|].
  rewrite Hd1. simpl. rewrite Hd2. simpl. exists d1, d2.
  split_and!; [done..| | |].
  - rewrite Hd1' by done. by rewrite decide_True.
  - rewrite Hd2' by done. by rewrite decide_True.
  - intros j Hj. rewrite Hd1', Hd2' by done. case_decide; auto.
Qed.

End cx_positions.

(** The cycle crossover: at every position the two children hold the
    two parents' genes of that position, either as the parents have
    them or exchanged, and at position 0 as the parents have them. *)
Theorem cycle_crossover_positions (parent1 parent2 : Genome)
    (c1 c2 : Chromosome) (w w' : world) (child1 child2 : Genome) :
  genomes w !! parent1 = Some c1 → genomes w !! parent2 = Some c2 →
  NoDup c1 → c1 ≡ₚ c2 → None ∉ c1 →
  crossover parent1 parent2 "cx" w = (Ok (Some (child1, child2)), w') →
  ∃ d1 d2,
    genomes w' !! child1 = Some d1 ∧ genomes w' !! child2 = Some d2 ∧
    length d1 = length c1 ∧ length d2 = length c1 ∧
    d1 !! 0 = c1 !! 0 ∧ d2 !! 0 = c2 !! 0 ∧
    ∀ j, j < length c1 →
      (d1 !! j = c1 !! j ∧ d2 !! j = c2 !! j) ∨
      (d1 !! j = c2 !! j ∧ d2 !! j = c1 !! j).
Proof.
  intros Hc1 Hc2 Hnd Hperm Hnone Hrun.
  apply crossover_Ok in Hrun
    as (c1' & c2' & d1 & d2 & Hc1' & Hc2' & Halloc & Hkernel).
  simplify_eq.
  destruct Hkernel as [[[=] _]|[[[=] _]|[_ Hk]]].
  assert (0 < length c1) as Hn.
  { destruct c1; [|simpl; lia]. by destruct c2. }
  destruct (cycle_crossover_at_positions c1 c2 Hnd Hperm Hnone Hn)
    as (e1 & e2 & Hk' & H1 & H2 & H3 & H4 & H5).
  rewrite Hk in Hk'. injection Hk' as <- <-.
  apply allocates_lookup in Halloc as [Hd1 Hd2].
  by exists d1, d2.
Qed.

(** *** Parents that hold the same tour *)

Lemma filter_all {A} (P : A → Prop) `{∀ x, Decision (P x)} (l : list A) :
  (∀ x, x ∈ l → P x) → filter P l = l.
Proof.
  induction l as [|x l IH]; [done|]. intros Hall.
  rewrite filter_cons_True by (apply Hall; by left).
  f_equal. apply IH. intros y Hy. apply Hall. by right.
Qed.

Lemma filter_none {A} (P : A → Prop) `{∀ x, Decision (P x)} (l : list A) :
  (∀ x, x ∈ l → ¬ P x) → filter P l = [].
Proof.
  induction l as [|x l IH]; [done|]. intros Hall.
  rewrite filter_cons_False by (apply Hall; by left).
  apply IH. intros y Hy. apply Hall. by right.
Qed.

(** Order crossover of a chromosome with itself gives it back. *)
Lemma orderly_insert_same (p1 p2 : nat) (c : Chromosome) :
  NoDup c → None ∉ c → p1 ≤ p2 → p2 < length c →
  orderly_insert c
    (slice_assign (replicate (length c) None) p1 p2 (py_slice c p1 p2)) p2
    = Ok c.
Proof.
  intros Hnd Hnone Hp Hp2.
  destruct (orderly_insert_layout p1 p2 c c) as (e & He & Hl & Hr); [done..|].
  rewrite He. f_equal. apply (rotate_inj p2); [done|]. rewrite Hr.
  pose proof (py_slice_take_drop c p1 p2 Hp) as Hsplit.
  assert (NoDup (take p1 c ++ py_slice c p1 p2 ++ drop p2 c)) as Hnd'
    by (by rewrite Hsplit).
  assert (rotate p2 c = drop p2 c ++ take p1 c ++ py_slice c p1 p2) as Hrot.
  { unfold rotate. rewrite Nat.mod_small by done. f_equal.
    unfold py_slice. rewrite take_take_drop. f_equal. lia. }
  apply NoDup_app in Hnd' as (_ & Hfront & Hnd').
  apply NoDup_app in Hnd' as (_ & Hback & _).
  rewrite Hrot, !filter_app.
  rewrite (filter_all _ (drop p2 c)) by (intros x Hx Hs; by apply (Hback x)).
  rewrite (filter_all _ (take p1 c)).
  - rewrite (filter_none _ (py_slice c p1 p2)) by (intros x Hx Hs; by apply Hs).
    by rewrite app_nil_r, <-app_assoc.
  - intros x Hx Hs. apply (Hfront x Hx). apply elem_of_app. by left.
Qed.

(** The children of two parents that hold the same chromosome hold that
    chromosome too, whichever of the three crossovers makes them. *)
Theorem crossover_identical_parents (parent1 parent2 : Genome) (c : Chromosome)
    (c_type : string) (w w' : world) (child1 child2 : Genome) :
  genomes w !! parent1 = Some c → genomes w !! parent2 = Some c →
  NoDup c → None ∉ c →
  crossover parent1 parent2 c_type w = (Ok (Some (child1, child2)), w') →
  genomes w' !! child1 = Some c ∧ genomes w' !! child2 = Some c.
Proof.
  intros Hc1 Hc2 Hnd Hnone Hrun.
  apply crossover_Ok in Hrun
    as (c1' & c2' & d1 & d2 & Hc1' & Hc2' & Halloc & Hkernel).
  simplify_eq.
  apply allocates_lookup in Halloc as [Hd1 Hd2]. rewrite Hd1, Hd2.
  assert (d1 = c ∧ d2 = c) as [-> ->]; [|done].
  destruct Hkernel as [(_ & p1 & p2 & Hp & Hp2 & Hk)|[(_ & p1 & p2 & Hp & Hp2 & Hk)
                      |[_ Hk]]].
  - unfold order_crossover_at in Hk. simpl in Hk.
    rewrite orderly_insert_same in Hk by done. simpl in Hk.
    by injection Hk as <- <-.
  - assert (length (py_slice c p1 p2) = p2 - p1) as Hseg
      by (apply length_py_slice; lia).
    destruct (pmx_fill_positions p1 p2 c c (zip (py_slice c p1 p2) (py_slice c p1 p2)))
      as (e & He & Hl & Hs & Ho); [done..|lia| | |].
    { by apply fst_zip. }
    { by apply snd_zip. }
    assert (e = c) as ->.
    { apply list_eq. intros j.
      destruct (decide (p1 ≤ j < p2)) as [Hin|Hout].
      - apply (f_equal (λ l, l !! (j - p1))) in Hs.
        rewrite !lookup_py_slice in Hs by lia.
        by replace (p1 + (j - p1)) with j in Hs by lia.
      - destruct (c !! j) as [g|] eqn:Hg.
        + specialize (Ho j g Hout Hg). rewrite decide_False in Ho; [done|].
          intros (k & Hk' & Hgk)%elem_of_py_slice.
          assert (j = k) by (by eapply NoDup_lookup). lia.
        + apply lookup_ge_None in Hg. apply lookup_ge_None. lia. }
    unfold partially_mapped_crossover_at in Hk. simpl in Hk.
    rewrite He in Hk. simpl in Hk.
    by injection Hk as <- <-.
  - assert (0 < length c) as Hn.
    { destruct c; [|simpl; lia]. done. }
    destruct (cycle_crossover_at_positions c c Hnd (reflexivity _) Hnone Hn)
      as (e1 & e2 & Hk' & H1 & H2 & _ & _ & H5).
    rewrite Hk in Hk'. injection Hk' as <- <-.
    split; apply list_eq; intros j;
      (destruct (decide (j < length c)) as [Hj|Hj];
       [destruct (H5 j Hj) as [[? ?]|[? ?]]; done
       |rewrite !(proj2 (lookup_ge_None _ _)); [done|lia..]]).
Qed.

(** *** The crossovers on two example parents *)

Lemma example_parents_valid :
  NoDup (chromosome_of [0; 1; 2; 3; 4]) ∧
  chromosome_of [0; 1; 2; 3; 4] ≡ₚ chromosome_of [2; 4; 0; 1; 3] ∧
  None ∉ chromosome_of [0; 1; 2; 3; 4].
Proof. split_and!; apply (bool_decide_unpack _); vm_compute; exact I. Qed.

Lemma example_crossover_returns (c_type : string) :
  c_type ∈ ["ox"; "pmx"; "cx"] →
  (∃ child1 child2 w',
     crossover 0 1 c_type example_parents = (Ok (Some (child1, child2)), w')) ∧
  (∃ child1 child2 w',
     crossover 0 1 c_type example_twins = (Ok (Some (child1, child2)), w')).
Proof.
  rewrite !elem_of_cons, elem_of_nil. intros [->|[->|[->|[]]]];
    (split; eexists _, _, _; vm_compute; reflexivity).
Qed.

Lemma order_crossover_layout_witness :
  ∃ child1 child2 w' p1 p2 d1 d2,
    crossover 0 1 "ox" example_parents = (Ok (Some (child1, child2)), w') ∧
    p1 ≤ p2 ∧ p2 < 5 ∧
    genomes w' !! child1 = Some d1 ∧ genomes w' !! child2 = Some d2 ∧
    py_slice d1 p1 p2 = py_slice (chromosome_of [2; 4; 0; 1; 3]) p1 p2 ∧
    py_slice d2 p1 p2 = py_slice (chromosome_of [0; 1; 2; 3; 4]) p1 p2 ∧
    rotate p2 d1 =
      filter (λ g, g ∉ py_slice (chromosome_of [2; 4; 0; 1; 3]) p1 p2)
        (rotate p2 (chromosome_of [0; 1; 2; 3; 4]))
      ++ py_slice (chromosome_of [2; 4; 0; 1; 3]) p1 p2 ∧
    rotate p2 d2 =
      filter (λ g, g ∉ py_slice (chromosome_of [0; 1; 2; 3; 4]) p1 p2)
        (rotate p2 (chromosome_of [2; 4; 0; 1; 3]))
      ++ py_slice (chromosome_of [0; 1; 2; 3; 4]) p1 p2.
Proof.
  destruct (example_crossover_returns "ox") as [(ch1 & ch2 & w' & Hrun) _];
    [by left|].
  destruct example_parents_valid as (Hnd & Hperm & Hnone).
  destruct (order_crossover_layout 0 1 _ _ example_parents w' ch1 ch2
              eq_refl eq_refl Hnd Hperm Hnone Hrun)
    as (p1 & p2 & d1 & d2 & H).
  exists ch1, ch2, w', p1, p2, d1, d2. exact (conj Hrun H).
Defined.

Lemma partially_mapped_crossover_positions_witness :
  ∃ child1 child2 w' p1 p2 d1 d2,
    crossover 0 1 "pmx" example_parents = (Ok (Some (child1, child2)), w') ∧
    p1 ≤ p2 ∧ p2 < 5 ∧
    genomes w' !! child1 = Some d1 ∧ genomes w' !! child2 = Some d2 ∧
    py_slice d1 p1 p2 = py_slice (chromosome_of [2; 4; 0; 1; 3]) p1 p2 ∧
    py_slice d2 p1 p2 = py_slice (chromosome_of [0; 1; 2; 3; 4]) p1 p2.
Proof.
  destruct (example_crossover_returns "pmx") as [(ch1 & ch2 & w' & Hrun) _];
    [by right; left|].
  destruct example_parents_valid as (Hnd & Hperm & Hnone).
  destruct (partially_mapped_crossover_positions 0 1 _ _ example_parents w'
              ch1 ch2 eq_refl eq_refl Hnd Hperm Hnone Hrun)
    as (p1 & p2 & d1 & d2 & H1 & H2 & H3 & H4 & H5 & H6 & _).
  exists ch1, ch2, w', p1, p2, d1, d2.
  exact (conj Hrun (conj H1 (conj H2 (conj H3 (conj H4 (conj H5 H6)))))).
Defined.

Lemma cycle_crossover_positions_witness :
  ∃ child1 child2 w' d1 d2,
    crossover 0 1 "cx" example_parents = (Ok (Some (child1, child2)), w') ∧
    genomes w' !! child1 = Some d1 ∧ genomes w' !! child2 = Some d2 ∧
    length d1 = 5 ∧ length d2 = 5 ∧
    d1 !! 0 = Some (Some 0) ∧ d2 !! 0 = Some (Some 2).
Proof.
  destruct (example_crossover_returns "cx") as [(ch1 & ch2 & w' & Hrun) _];
    [by right; right; left|].
  destruct example_parents_valid as (Hnd & Hperm & Hnone).
  destruct (cycle_crossover_positions 0 1 _ _ example_parents w'
              ch1 ch2 eq_refl eq_refl Hnd Hperm Hnone Hrun)
    as (d1 & d2 & H1 & H2 & H3 & H4 & H5 & H6 & _).
  exists ch1, ch2, w', d1, d2.
  exact (conj Hrun (conj H1 (conj H2 (conj H3 (conj H4 (conj H5 H6)))))).
Defined.

Lemma crossover_identical_parents_witness :
  ∃ child1 child2 w',
    crossover 0 1 "pmx" example_twins = (Ok (Some (child1, child2)), w') ∧
    genomes w' !! child1 = Some (chromosome_of [0; 1; 2; 3; 4]) ∧
    genomes w' !! child2 = Some (chromosome_of [0; 1; 2; 3; 4]).
Proof.
  destruct (example_crossover_returns "pmx") as [_ (ch1 & ch2 & w' & Hrun)];
    [by right; left|].
  destruct example_parents_valid as (Hnd & _ & Hnone).
  exists ch1, ch2, w'. split; [exact Hrun|].
  exact (crossover_identical_parents 0 1 _ "pmx" example_twins w' ch1 ch2
           eq_refl eq_refl Hnd Hnone Hrun).
Defined.

(** ** The initial population *)

(** A sample of [k] elements out of a pool that has them: the elements
    drawn are in the pool, each as often as the pool has it at most. *)
Lemma sample_loop_Ok {A} (pool : list A) (k : nat) (w : world) :
  k ≤ length pool →
  ∃ l w',
    sample_loop pool k w = (Ok l, w') ∧
    genomes w' = genomes w ∧ length l = k ∧ l ⊆+ pool.
Proof.
  revert pool w. induction k as [|k IH]; intros pool w Hk.
  { exists [], w. split_and!; [done..|]. apply submseteq_nil_l. }
  destruct (draw_total w) as (d & w1 & Hd).
  assert (d mod length pool < length pool) as Hj
    by (apply Nat.mod_upper_bound; lia).
  destruct (lookup_lt_is_Some_2 pool _ Hj) as [x Hx].
  destruct (IH (delete (d mod length pool) pool) w1) as (l & w2 & Hl & Hg & Hlen & Hsub).
  { rewrite length_delete by (by eexists). lia. }
  exists (x :: l), w2. cbn [sample_loop].
  erewrite M_bind_run; [|exact Hd].
  erewrite M_bind_run; [|by apply lift_Ok, (conj (getitem_Some _ _ _ Hx))].
  erewrite M_bind_run; [|exact Hl].
  split_and!; [done| |simpl; lia|].
  - rewrite Hg. by apply draw_Ok in Hd.
  - rewrite (delete_Permutation pool _ x Hx). by apply submseteq_skip.
Qed.

(** Asked for as many elements as the population has, [random.sample]
    returns a rearrangement of the population. *)
Lemma sample_all {A} (population : list A) (w : world) :
  ∃ l w',
    sample population (Z.of_nat (length population)) w = (Ok l, w') ∧
    genomes w' = genomes w ∧ l ≡ₚ population.
Proof.
  destruct (sample_loop_Ok population (length population) w)
    as (l & w' & Hl & Hg & Hlen & Hsub); [done|].
  exists l, w'. unfold sample. rewrite decide_True by lia.
  rewrite Nat2Z.id. split_and!; [done..|].
  apply submseteq_length_Permutation; [done|lia].
Qed.

(** The two positions that [sample2] draws are the sample of two
    elements out of [range(n)]. *)
Lemma sample2_sample (n : nat) (w : world) :
  2 ≤ n →
  sample (seq 0 n) 2 w =
    match sample2 n w with
    | (Ok p, w') => (Ok [p.1; p.2], w')
    | (Raise e, w') => (Raise e, w')
    | (Hang, w') => (Hang, w')
    end.
Proof.
  intros Hn. unfold sample, sample2.
  rewrite decide_True by (rewrite length_seq; lia).
  rewrite decide_False by lia.
  change (Z.to_nat 2) with 2. cbn [sample_loop].
  destruct (draw_total w) as (d1 & w1 & Hd1).
  destruct (draw_total w1) as (d2 & w2 & Hd2).
  rewrite !length_seq.
  assert (d1 mod n < n) as H1 by (apply Nat.mod_upper_bound; lia).
  assert (d2 mod (n - 1) < n - 1) as H2 by (apply Nat.mod_upper_bound; lia).
  erewrite M_bind_run; [|exact Hd1].
  erewrite M_bind_run;
    [|apply lift_Ok; split; [|done]; apply getitem_Some, lookup_seq_lt, H1].
  rewrite length_delete by (rewrite lookup_seq_lt by done; by eexists).
  rewrite length_seq.
  erewrite M_bind_run; cycle 1.
  { erewrite M_bind_run; [|exact Hd2].
    erewrite M_bind_run; [reflexivity|].
    apply lift_Ok. split; [|done]. apply getitem_Some.
    instantiate (1 := if decide (d2 mod (n - 1) < d1 mod n)
                      then d2 mod (n - 1) else S (d2 mod (n - 1))).
    case_decide.
    - rewrite list_lookup_delete_lt by done. by apply lookup_seq_lt; lia.
    - rewrite list_lookup_delete_ge by lia. apply lookup_seq_lt. lia. }
  erewrite (M_bind_run draw); [|exact Hd1].
  erewrite (M_bind_run draw); [|exact Hd2].
  reflexivity.
Qed.

Lemma initialize_loop_spec (cities : list City) (count : nat)
    (members : list Genome) (w : world) :
  ∃ w',
    initialize_loop cities (Z.of_nat (length cities)) count members w
      = (Ok (members ++ seq (length (genomes w)) count), w') ∧
    length (genomes w') = length (genomes w) + count ∧
    (∀ g, g < length (genomes w) → genomes w' !! g = genomes w !! g) ∧
    (∀ i, i < count → holds_tour cities w' (length (genomes w) + i)).
Proof.
  revert members w. induction count as [|count IH]; intros members w.
  { exists w. rewrite app_nil_r. split_and!; [done|lia|done|lia]. }
  destruct (sample_all cities w) as (l & w1 & Hl & Hg1 & Hperm).
  set (w2 := World (genomes w1 ++ [Some <$> l]) (tape w1)).
  destruct (IH (members ++ [length (genomes w1)]) w2)
    as (w' & Hrun & Hlen & Hframe & Htours).
  assert (length (genomes w2) = S (length (genomes w))) as Hl2
    by (unfold w2; simpl; rewrite length_app, Hg1; simpl; lia).
  exists w'. cbn [initialize_loop].
  erewrite M_bind_run; [|exact Hl].
  erewrite M_bind_run; [|reflexivity]. fold w2.
  rewrite Hrun, Hl2, Hg1, <-app_assoc. split_and!.
  - done.
  - lia.
  - intros g Hg. rewrite Hframe by lia. unfold w2. simpl.
    rewrite lookup_app_l by (rewrite Hg1; lia). by rewrite Hg1.
  - intros [|i] Hi.
    + rewrite Nat.add_0_r. exists (Some <$> l). split.
      * rewrite Hframe by lia. unfold w2. simpl.
        by rewrite lookup_app_r, Hg1, Nat.sub_diag by (rewrite Hg1; lia).
      * unfold chromosome_of. by rewrite Hperm.
    + replace (length (genomes w) + S i) with (length (genomes w2) + i) by lia.
      apply Htours. lia.
Qed.

(** A population made over a map whose [cities_n] is the number of its
    cities holds [size] members (none for a negative size), each a newly
    created genome with a tour of all the cities of the map. No genome
    that existed is changed. *)
Theorem population_init_tours (n : Z) (cities : list City) (w : world) :
  ∃ pop w',
    Population_init n cities (Z.of_nat (length cities)) w = (Ok pop, w') ∧
    size pop = n ∧
    members pop = seq (length (genomes w)) (Z.to_nat n) ∧
    (∀ m, m ∈ members pop → holds_tour cities w' m) ∧
    (∀ g, g < length (genomes w) → genomes w' !! g = genomes w !! g).
Proof.
  destruct (initialize_loop_spec cities (Z.to_nat n) [] w)
    as (w' & Hrun & Hlen & Hframe & Htours).
  eexists _, w'. unfold Population_init.
  erewrite M_bind_run; [|exact Hrun].
  split_and!; [done..| |done].
  simpl. intros m [Hm1 Hm2]%elem_of_seq.
  replace m with (length (genomes w) + (m - length (genomes w))) by lia.
  apply Htours. lia.
Qed.

(** When [cities_n] is negative or exceeds the number of cities of the
    map, making a population of one member or more raises [ValueError]
    at the first [random.sample], before any genome is created. *)
Theorem population_init_bad_count (n cities_n : Z) (cities : list City)
    (w : world) :
  (0 < n)%Z →
  (cities_n < 0 ∨ Z.of_nat (length cities) < cities_n)%Z →
  Population_init n cities cities_n w = (Raise ValueError, w).
Proof.
  intros Hsize Hn. unfold Population_init. apply M_bind_raise.
  destruct (Z.to_nat n) as [|count] eqn:E; [lia|].
  cbn [initialize_loop]. apply M_bind_raise.
  unfold sample. by rewrite decide_False by lia.
Qed.

Lemma population_init_bad_count_witness :
  Population_init 100 [0; 1; 2] 30 (World [] [5; 7])
    = (Raise ValueError, World [] [5; 7]).
Proof. apply population_init_bad_count; simpl; lia. Defined.

(** ** Maps and cities *)

Lemma randrange_total (n : nat) (w : world) :
  n ≠ 0 →
  ∃ r w', randrange n w = (Ok r, w') ∧ r < n ∧ genomes w' = genomes w.
Proof.
  intros Hn. destruct (draw_total w) as (d & w1 & Hd).
  exists (d mod n), w1. unfold randrange. rewrite decide_False by done.
  erewrite M_bind_run; [|exact Hd]. split_and!; [done| |by apply draw_Ok in Hd].
  by apply Nat.mod_upper_bound.
Qed.

(** The city that [__generate] makes in round [i] from the draws [x]
    and [y]. *)
Lemma City_init_generated (x y : nat) (i : nat) :
  City_init (PyZ (Z.of_nat x)) (PyZ (Z.of_nat y)) (PyInt (Z.of_nat i)) None
    = {| city_position := (PyZ (Z.of_nat x), PyZ (Z.of_nat y));
         city_idx := PyInt (Z.of_nat i);
         city_name := "City" +:+ pretty (Z.of_nat i) |}.
Proof. done. Qed.

Lemma generate_loop_spec (sz : Z * Z) (s k : nat) (acc : list CityObj) (w : world) :
  (0 < sz.1)%Z → (0 < sz.2)%Z →
  ∃ new w',
    generate_loop sz (seq s k) acc w = (Ok (acc ++ new), w') ∧
    genomes w' = genomes w ∧ length new = k ∧
    ∀ i, i < k → ∃ x y : Z,
      new !! i = Some {| city_position := (PyZ x, PyZ y);
                         city_idx := PyInt (Z.of_nat (s + i));
                         city_name := "City" +:+ pretty (Z.of_nat (s + i)) |} ∧
      (0 ≤ x < sz.1)%Z ∧ (0 ≤ y < sz.2)%Z.
Proof.
  intros H1 H2. revert s acc w. induction k as [|k IH]; intros s acc w.
  { exists [], w. rewrite app_nil_r. split_and!; [done..|lia]. }
  destruct (randrange_total (Z.to_nat sz.1) w) as (x & w1 & Hx & Hxlt & Hg1); [lia|].
  destruct (randrange_total (Z.to_nat sz.2) w1) as (y & w2 & Hy & Hylt & Hg2); [lia|].
  set (city := City_init (PyZ (Z.of_nat x)) (PyZ (Z.of_nat y)) (PyInt (Z.of_nat s)) None).
  destruct (IH (S s) (acc ++ [city]) w2) as (new & w' & Hrun & Hg & Hlen & Hnew).
  exists (city :: new), w'. cbn [seq generate_loop].
  erewrite M_bind_run; [|exact Hx]. erewrite M_bind_run; [|exact Hy].
  fold city. rewrite Hrun, <-app_assoc.
  split_and!; [done|congruence|simpl; lia|].
  intros [|i] Hi.
  - exists (Z.of_nat x), (Z.of_nat y). rewrite Nat.add_0_r.
    split; [done|]. lia.
  - destruct (Hnew i) as (x' & y' & Hc & ? & ?); [lia|].
    exists x', y'. replace (s + S i) with (S s + i) by lia. by split.
Qed.

(** A generated map of [n] cities on a map size with positive sides:
    city [i] has the index [i], the name ["City<i>"] and integer
    coordinates inside the map; the names are pairwise distinct; and
    [repr] of each city raises [TypeError], its index being no string. *)
Theorem map_init_cities (n : Z) (sz : Z * Z) (w : world) :
  (0 < sz.1)%Z → (0 < sz.2)%Z →
  ∃ m w',
    Map_init n sz w = (Ok m, w') ∧ genomes w' = genomes w ∧
    map_cities_n m = n ∧ map_size m = sz ∧
    length (map_cities m) = Z.to_nat n ∧
    (∀ i, i < Z.to_nat n → ∃ x y : Z,
       map_cities m !! i =
         Some {| city_position := (PyZ x, PyZ y);
                 city_idx := PyInt (Z.of_nat i);
                 city_name := "City" +:+ pretty (Z.of_nat i) |} ∧
       (0 ≤ x < sz.1)%Z ∧ (0 ≤ y < sz.2)%Z) ∧
    NoDup (city_name <$> map_cities m) ∧
    (∀ c, c ∈ map_cities m → City_repr c = Raise TypeError).
Proof.
  intros H1 H2.
  destruct (generate_loop_spec sz 0 (Z.to_nat n) [] w H1 H2)
    as (new & w' & Hrun & Hg & Hlen & Hnew).
  eexists _, w'. unfold Map_init, Map_generate.
  erewrite M_bind_run; [|exact Hrun]. simpl.
  split_and!; [done..| |].
  - apply NoDup_alt. intros i j name Hi Hj.
    apply list_lookup_fmap_Some in Hi as (ci & -> & Hci).
    apply list_lookup_fmap_Some in Hj as (cj & Heq & Hcj).
    destruct (Hnew i) as (? & ? & Hi' & _);
      [rewrite <-Hlen; by eapply lookup_lt_Some|].
    destruct (Hnew j) as (? & ? & Hj' & _);
      [rewrite <-Hlen; by eapply lookup_lt_Some|].
    simpl in Hci, Hcj. by simplify_eq.
  - intros c [i Hc]%list_elem_of_lookup.
    destruct (Hnew i) as (? & ? & Hi' & _);
      [rewrite <-Hlen; by eapply lookup_lt_Some|].
    simpl in Hc. by simplify_eq.
Qed.

Lemma map_init_cities_witness :
  ∃ m w',
    Map_init 30 MAP_SIZE (World [] []) = (Ok m, w') ∧ genomes w' = [] ∧
    map_cities_n m = 30%Z ∧ map_size m = MAP_SIZE ∧
    length (map_cities m) = 30 ∧
    NoDup (city_name <$> map_cities m) ∧
    (∀ c, c ∈ map_cities m → City_repr c = Raise TypeError).
Proof.
  destruct (map_init_cities 30 MAP_SIZE (World [] []))
    as (m & w' & H1 & H2 & H3 & H4 & H5 & _ & H7 & H8);
    [simpl; lia..|].
  exists m, w'. exact (conj H1 (conj H2 (conj H3 (conj H4 (conj H5 (conj H7 H8)))))).
Defined.

(** On a map size with a side that is not positive, generating a city
    raises [ValueError]: [random.randrange] has nothing to draw from. *)
Theorem map_init_empty_range (n : Z) (sz : Z * Z) (w : world) :
  (0 < n)%Z → (sz.1 ≤ 0 ∨ sz.2 ≤ 0)%Z →
  ∃ w', Map_init n sz w = (Raise ValueError, w') ∧ genomes w' = genomes w.
Proof.
  intros Hn Hsz. unfold Map_init, Map_generate.
  destruct (Z.to_nat n) as [|k] eqn:E; [lia|]. cbn [seq generate_loop].
  destruct (decide (sz.1 ≤ 0)%Z) as [H1|H1].
  - exists w. split; [|done]. do 2 apply M_bind_raise.
    unfold randrange. by rewrite decide_True by lia.
  - destruct (randrange_total (Z.to_nat sz.1) w) as (x & w1 & Hx & _ & Hg1); [lia|].
    exists w1. split; [|done]. apply M_bind_raise.
    erewrite M_bind_run; [|exact Hx]. apply M_bind_raise.
    unfold randrange. by rewrite decide_True by lia.
Qed.

Lemma map_init_empty_range_witness :
  ∃ w', Map_init 3 (300, 0)%Z (World [] [7]) = (Raise ValueError, w') ∧
        genomes w' = [].
Proof. apply map_init_empty_range; simpl; lia. Defined.


Lemma foldl_append_city (m : Map) (ts : list (string * py_number * py_number)) :
  foldl append_city m ts =
    {| map_cities_n := map_cities_n m;
       map_size := map_size m;
       map_cities := map_cities m ++
         ((λ t, City_init t.2 t.1.2 (PyStr t.1.1) (Some t.1.1)) <$> ts) |}.
Proof.
  revert m. induction ts as [|[[name lon] lat] ts IH]; intros m.
  { simpl. rewrite app_nil_r. by destruct m. }
  cbn [foldl]. rewrite IH. simpl. by rewrite <-app_assoc.
Qed.

(** A map made from a list of (name, longitude, latitude) tuples: it
    draws no random number; [cities_n] is the length of the list; city
    [i] has the latitude as [x] and the longitude as [y], the name as
    its index, and the name as its name unless the name is empty, when
    it is called ["City"]; [repr] of a city is its name. The list is
    recovered from the cities. *)
Theorem from_coordinates_tuples_cities
    (ts : list (string * py_number * py_number)) (w : world) :
  ∃ m,
    from_coordinates_tuples ts w = (Ok m, w) ∧
    map_cities_n m = Z.of_nat (length ts) ∧ map_size m = MAP_SIZE ∧
    length (map_cities m) = length ts ∧
    (∀ i name lon lat, ts !! i = Some (name, lon, lat) →
       ∃ c, map_cities m !! i = Some c ∧
            city_position c = (lat, lon) ∧ city_idx c = PyStr name ∧
            city_name c = (if decide (name = "") then "City" else name) ∧
            City_repr c = Ok name) ∧
    (λ c, (py_format (city_idx c), (city_position c).2, (city_position c).1))
      <$> map_cities m = ts.
Proof.
  eexists. unfold from_coordinates_tuples.
  erewrite M_bind_run; [|reflexivity]. cbn [map_size map_cities].
  rewrite foldl_append_city. cbn [map_cities_n map_size map_cities app].
  split; [reflexivity|]. cbn [map_cities_n map_size map_cities].
  split_and!; [done|done|by rewrite length_fmap| |].
  - intros i name lon lat Hi. eexists. rewrite list_lookup_fmap, Hi.
    split; [reflexivity|]. simpl. split_and!; try done.
    by case_decide; subst.
  - rewrite <-list_fmap_compose. rewrite <-(list_fmap_id ts) at 2.
    apply list_fmap_ext. by intros _ [[name lon] lat] _.
Qed.

(** ** Tours without length *)

Section degenerate.
Context {AR : Arith} {GL : Globals}.
Variable position : City → num * num.
Hypothesis inv_zero : num_inv num_zero = None.
Hypothesis add_zero : num_add num_zero num_zero = num_zero.

Lemma get_fitness_short (cities : list City) :
  (∀ a, a ∈ cities → math_dist (position a) (position a) = num_zero) →
  length cities ≤ 1 →
  get_fitness position (chromosome_of cities) = Raise ZeroDivisionError.
Proof using inv_zero add_zero.
  intros Hdist Hlen. destruct cities as [|a [|b cities]]; [| |simpl in Hlen; lia].
  - unfold get_fitness, tour_length. simpl. by rewrite inv_zero.
  - unfold get_fitness, tour_length. simpl.
    rewrite Hdist by (by left). rewrite add_zero. simpl. by rewrite inv_zero.
Qed.

(** With fewer than two cities a tour has length zero (a city is at
    distance zero from itself), so its fitness is [1 / 0]: [get_fitness]
    raises [ZeroDivisionError]; and a generation step of a population
    whose first member holds such a tour raises it too, when it ranks
    the members, before anything is drawn or created. *)
Theorem no_fitness_below_two_cities (cities : list City) :
  (∀ a, a ∈ cities → math_dist (position a) (position a) = num_zero) →
  length cities ≤ 1 →
  get_fitness position (chromosome_of cities) = Raise ZeroDivisionError ∧
  ∀ (n : Z) (m : Genome) (rest : list Genome) (c_type m_type : string)
    (w : world),
    genomes w !! m = Some (chromosome_of cities) →
    generate_next_generation position {| size := n; members := m :: rest |}
      c_type m_type w = (Raise ZeroDivisionError, w).
Proof using inv_zero add_zero.
  intros Hdist Hlen.
  pose proof (get_fitness_short cities Hdist Hlen) as Hfit.
  split; [done|]. intros n m rest c_type m_type w Hm.
  unfold generate_next_generation, top_k_selection, sort_members.
  do 3 apply M_bind_raise. cbn [members with_keys].
  erewrite M_bind_run; [|by apply get_chromosome_run].
  apply M_bind_raise. unfold lift. by rewrite Hfit.
Qed.

End degenerate.

Lemma no_fitness_below_two_cities_witness :
  get_fitness (AR := float_arith) example_position (chromosome_of [2])
    = Raise ZeroDivisionError ∧
  ∀ (n : Z) (m : Genome) (rest : list Genome) (c_type m_type : string)
    (w : world),
    genomes w !! m = Some (chromosome_of [2]) →
    generate_next_generation (AR := float_arith) (GL := source_globals)
      example_position {| size := n; members := m :: rest |}
      c_type m_type w = (Raise ZeroDivisionError, w).
Proof.
  apply (no_fitness_below_two_cities (AR := float_arith) (GL := source_globals)
           example_position).
  - reflexivity.
  - reflexivity.
  - intros a Ha. apply list_elem_of_singleton in Ha as ->. reflexivity.
  - simpl. lia.
Defined.

(** ** The solution of a genome *)

(** [get_solution] lists the index of every city of the chromosome, in
    the order of the chromosome: for a tour of the cities, every index
    once. On a chromosome that holds [None] it raises
    [AttributeError]. *)
Theorem get_solution_tour {I} (idx : City → I) (c : Chromosome) :
  (∀ cities, c ≡ₚ chromosome_of cities →
     ∃ sol, get_solution idx c = Ok sol ∧
            length sol = length c ∧ sol ≡ₚ idx <$> cities ∧
            ∀ i city, c !! i = Some (Some city) → sol !! i = Some (idx city)) ∧
  (None ∈ c → get_solution idx c = Raise AttributeError).
Proof.
  split.
  - intros cities Hperm.
    assert (None ∉ c) as Hnone.
    { rewrite Hperm. unfold chromosome_of.
      by intros (? & ? & _)%list_elem_of_fmap. }
    assert (∃ l, c = Some <$> l) as [l ->].
    { clear Hperm. induction c as [|[a|] c IH].
      - by exists [].
      - destruct IH as [l ->]; [by intros ?; apply Hnone; right|].
        by exists (a :: l).
      - destruct Hnone. by left. }
    assert (get_solution idx (Some <$> l) = Ok (idx <$> l)) as Hsol.
    { clear. induction l as [|a l IH]; [done|].
      rewrite !fmap_cons. cbn [get_solution]. by rewrite IH. }
    exists (idx <$> l). split_and!; [done|by rewrite !length_fmap| |].
    + apply fmap_Permutation. unfold chromosome_of in Hperm.
      assert (∀ k : list City, omap id (Some <$> k) = k) as Hk
        by (intros k; induction k; [done|]; simpl; by f_equal).
      rewrite <-(Hk l), <-(Hk cities). by apply omap_Permutation.
    + intros i city Hi.
      apply list_lookup_fmap_Some in Hi as (x & [= <-] & Hl).
      by rewrite list_lookup_fmap, Hl.
  - induction c as [|[a|] c IH]; intros Hin.
    + by apply elem_of_nil in Hin.
    + apply elem_of_cons in Hin as [|Hin]; [done|]. simpl. by rewrite IH.
    + done.
Qed.

(** ** The summary of an experiment *)

Section summary.
Context {AR : Arith}.

Lemma insert_by_Permutation {A} (key : A → num) (x : A) (l : list A) :
  insert_by key x l ≡ₚ x :: l.
Proof.
  induction l as [|y l IH]; [done|]. simpl.
  destruct (num_lt (key y) (key x)); [|done].
  rewrite IH. apply Permutation_swap.
Qed.

Lemma sort_by_Permutation {A} (key : A → num) (l : list A) : sort_by key l ≡ₚ l.
Proof.
  unfold sort_by. induction l as [|x l IH]; [done|]. simpl.
  by rewrite insert_by_Permutation, IH.
Qed.

Lemma py_sorted_Permutation {A} (key : A → num) (rev : bool) (l : list A) :
  py_sorted key rev l ≡ₚ l.
Proof.
  unfold py_sorted. destruct rev; [|apply sort_by_Permutation].
  by rewrite reverse_Permutation, sort_by_Permutation, reverse_Permutation.
Qed.





Lemma insert_by_fmap {A B} (f : A → B) (key : B → num) (x : A) (l : list A) :
  insert_by key (f x) (f <$> l) = f <$> insert_by (key ∘ f) x l.
Proof.
  induction l as [|y l IH]; [done|]. rewrite fmap_cons. cbn [insert_by].
  unfold compose at 1 2. destruct (num_lt (key (f y)) (key (f x))); [|done].
  by rewrite IH.
Qed.

Lemma py_sorted_fmap {A B} (f : A → B) (key : B → num) (rev : bool) (l : list A) :
  py_sorted key rev (f <$> l) = f <$> py_sorted (key ∘ f) rev l.
Proof.
  assert (∀ k : list A, sort_by key (f <$> k) = f <$> sort_by (key ∘ f) k) as Hs.
  { intros k. unfold sort_by. induction k as [|x k IH]; [done|].
    rewrite fmap_cons. cbn [foldr]. by rewrite IH, insert_by_fmap. }
  unfold py_sorted. destruct rev; [|apply Hs].
  by rewrite <-fmap_reverse, Hs, fmap_reverse.
Qed.

Lemma zip_fmap_r {A B C} (f : B → C) (l : list A) (k : list B) :
  zip l (f <$> k) = (λ p, (p.1, f p.2)) <$> zip l k.
Proof.
  revert k. induction l as [|x l IH]; intros [|y k]; [done..|].
  simpl. by rewrite IH.
Qed.

Variable str_Genome : Genome → result string.
Variable opens : string → bool.

Lemma print_runs_Ok (save : bool) (rows : list (nat * run_tuple))
    (lines : list string) (p : printed) :
  Forall2 (λ row line, summary_line str_Genome row.1 row.2 = Ok line) rows lines →
  print_runs str_Genome save rows p =
    ({| stdout := stdout p ++ lines;
        summary_file :=
          if save then (λ f, f ++ lines) <$> summary_file p
          else summary_file p |}, Ok tt).
Proof.
  intros Hall. revert p. induction Hall as [|[i run] line rows lines Hline _ IH];
    intros p.
  - simpl. rewrite app_nil_r. destruct p as [out [f|]], save; simpl;
      by rewrite ?app_nil_r.
  - cbn [print_runs]. simpl in Hline. rewrite Hline, IH. simpl.
    rewrite <-app_assoc. f_equal. f_equal.
    destruct save, (summary_file p); simpl; by rewrite <-?app_assoc.
Qed.

(** The rows of a dictionary whose best genomes all have a text. *)
Lemma summary_lines_exist (rows : list (nat * run_tuple)) :
  (∀ row, row ∈ rows → ∃ s, str_Genome row.2.1.1.2 = Ok s) →
  ∃ lines,
    Forall2 (λ row line, summary_line str_Genome row.1 row.2 = Ok line) rows lines.
Proof.
  induction rows as [|row rows IH]; intros Hall.
  - exists []. constructor.
  - destruct IH as [lines Hlines]; [intros; apply Hall; by right|].
    destruct (Hall row) as [s Hs]; [by left|].
    destruct row as [i [[[title best] f] gen]]. simpl in Hs.
    eexists (_ :: lines). constructor; [|done].
    unfold summary_line. simpl. rewrite Hs. reflexivity.
Qed.

(** The tuple that the summary makes of an item of the dictionary. *)
Local Abbreviation tuple_of :=
  (λ item : string * run_data,
     (item.1, data_best item.2, data_best_fitness item.2,
      data_best_fitness_gen item.2)).

Lemma open_summary_falsy (save_path : option string) :
  truthy save_path = false → open_summary opens save_path = Ok None.
Proof. intros H. unfold open_summary. destruct save_path; by rewrite ?H. Qed.



Lemma summary_prints (exp_dict : list (string * run_data))
    (save_path : option string) :
  open_summary opens save_path
    = Ok (if truthy save_path then Some [] else None) →
  (∀ item, item ∈ exp_dict → ∃ s, str_Genome (data_best item.2) = Ok s) →
  ∃ ranked lines,
    ranked = py_sorted (λ item, data_best_fitness item.2) true exp_dict ∧
    Forall2 (λ row line, summary_line str_Genome row.1 (tuple_of row.2) = Ok line)
      (zip (seq 1 (length ranked)) ranked) lines ∧
    print_experiment_summary str_Genome opens exp_dict save_path =
      ({| stdout := "Best Solutions" :: lines;
          summary_file := if truthy save_path then Some lines else None |},
       if truthy save_path then EndsWith (Ok tt) else UnboundLocalError).
Proof.
  intros Hopen Hall.
  set (ranked := py_sorted (λ item, data_best_fitness item.2) true exp_dict).
  assert (py_sorted (λ x : run_tuple, x.1.2) true (tuple_of <$> exp_dict)
            = tuple_of <$> ranked) as Hsorted by apply py_sorted_fmap.
  destruct (summary_lines_exist (zip (seq 1 (length ranked)) (tuple_of <$> ranked)))
    as [lines Hlines].
  { intros [i run] Hrun%elem_of_zip_r. simpl.
    apply list_elem_of_fmap in Hrun as (item & -> & Hitem). simpl.
    apply Hall. unfold ranked in Hitem.
    by rewrite py_sorted_Permutation in Hitem. }
  exists ranked, lines. split; [done|]. split.
  - rewrite zip_fmap_r in Hlines. apply Forall2_fmap_l in Hlines.
    eapply Forall2_impl; [exact Hlines|]. by intros [i item] line.
  - unfold print_experiment_summary. rewrite Hopen. cbv zeta.
    rewrite Hsorted, length_fmap.
    rewrite (print_runs_Ok _ _ lines) by done. simpl.
    by destruct (truthy save_path).
Qed.

(** Called without a path (with [None] or the empty string), the
    function prints the header and every row, and then raises
    [UnboundLocalError]: [summary_file.close()] reads a variable that
    was assigned only when there was a path. *)
Theorem summary_needs_save_path (exp_dict : list (string * run_data))
    (save_path : option string) :
  truthy save_path = false →
  (∀ item, item ∈ exp_dict → ∃ s, str_Genome (data_best item.2) = Ok s) →
  ∃ lines,
    print_experiment_summary str_Genome opens exp_dict save_path =
      ({| stdout := "Best Solutions" :: lines; summary_file := None |},
       UnboundLocalError) ∧
    length lines = length exp_dict.
Proof.
  intros Hpath Hall.
  destruct (summary_prints exp_dict save_path)
    as (ranked & lines & -> & Hlines & Hrun); [|done|].
  { by rewrite Hpath, open_summary_falsy. }
  exists lines. rewrite Hrun, Hpath. split; [done|].
  apply Forall2_length in Hlines. rewrite <-Hlines.
  rewrite length_zip, length_seq, Nat.min_id.
  by rewrite (Permutation_length (py_sorted_Permutation _ _ _)).
Qed.


End summary.

Lemma summary_needs_save_path_witness :
  ∃ lines,
    print_experiment_summary (AR := float_arith) example_str_Genome example_opens
      example_experiment None =
      ({| stdout := "Best Solutions" :: lines; summary_file := None |},
       UnboundLocalError) ∧
    length lines = 2.
Proof.
  apply (summary_needs_save_path (AR := float_arith) example_str_Genome
           example_opens example_experiment None).
  - reflexivity.
  - intros item _. by eexists.
Defined.


(** ** Elitism over consecutive steps *)

Section elitism.
Context {AR : Arith} {GL : Globals}.
Variable position : City → num * num.

Lemma last_drop {A} (l : list A) (k : nat) :
  k < length l → last (drop k l) = last l.
Proof.
  intros Hk. rewrite !last_lookup, lookup_drop, length_drop. f_equal. lia.
Qed.

(** With an elite of one genome or more, the genome that a step
    returns is the last member of the generation that the step
    leaves. *)
Lemma returned_genome_is_last (self : Population) (c_type m_type : string)
    (w w' : world) (best : Genome) (pop' : Population) :
  (1 ≤ ELITISM)%Z →
  generate_next_generation position self c_type m_type w = (Ok (best, pop'), w') →
  last (members pop') = Some best.
Proof.
  intros HE Hrun.
  apply generate_next_generation_Ok in Hrun
    as (keyed & children & _ & _ & -> & Hlast & _). simpl.
  set (ranked := (sort_by_key keyed).*2) in *.
  assert (0 < length ranked) as Hn.
  { destruct ranked; [done|simpl; lia]. }
  rewrite py_slice_from_last by lia.
  assert (last (drop (length ranked - Z.to_nat ELITISM) ranked) = Some best)
    as Hd by (rewrite last_drop by lia; done).
  rewrite last_app, Hd. done.
Qed.

(** Elitism keeps the best: with an elite of one genome or more, the
    genome returned by a step is a member of the generation it leaves,
    with the fitness it had; so the genome returned by the next step is
    not less fit. *)
Theorem best_fitness_never_decreases (self : Population) (c_type m_type : string)
    (w w1 w2 : world) (best1 best2 : Genome) (pop1 pop2 : Population)
    (keyed : list (num * Genome)) :
  (1 ≤ ELITISM)%Z →
  generate_next_generation position self c_type m_type w = (Ok (best1, pop1), w1) →
  generate_next_generation position pop1 c_type m_type w1 = (Ok (best2, pop2), w2) →
  with_keys position (members pop1) w1 = (Ok keyed, w1) →
  keys_ordered (keyed.*1) = true →
  ∃ c1 f1 c2 f2,
    genomes w !! best1 = Some c1 ∧ get_fitness position c1 = Ok f1 ∧
    genomes w1 !! best2 = Some c2 ∧ get_fitness position c2 = Ok f2 ∧
    num_lt f2 f1 = false.
Proof.
  intros HE Hrun1 Hrun2 Hkeys Hord.
  pose proof (returned_genome_is_last _ _ _ _ _ _ _ HE Hrun1) as Hlast1.
  assert (best1 ∈ members pop1) as Hin1.
  { rewrite last_lookup in Hlast1. by eapply list_elem_of_lookup_2. }
  apply generate_next_generation_Ok in Hrun1
    as (keyed1 & children1 & Hkeys1 & _ & _ & Hl1 & Hframe1).
  assert (best1 < length (genomes w)) as Hlt1.
  { eapply (with_keys_lt position); [exact Hkeys1|].
    apply with_keys_Ok in Hkeys1 as [<- _].
    rewrite <-(sort_by_key_Permutation keyed1).
    rewrite last_lookup in Hl1. by eapply list_elem_of_lookup_2. }
  apply generate_next_generation_Ok in Hrun2
    as (keyed' & children2 & Hkeys' & _ & _ & Hl2 & _).
  assert (keyed' = keyed) as -> by congruence.
  pose proof (with_keys_Ok _ _ _ _ _ Hkeys) as [Hk2 Hall].
  rewrite Forall_forall in Hall.
  rewrite <-Hk2 in Hin1.
  apply list_elem_of_fmap in Hin1 as ([f1 b1] & Hb1 & Hkm1). simpl in Hb1. subst b1.
  rewrite fmap_last in Hl2.
  destruct (last (sort_by_key keyed)) as [[f2 b2]|] eqn:E; [|done].
  injection Hl2 as ->.
  assert ((f2, best2) ∈ keyed) as Hkm2.
  { rewrite <-(sort_by_key_Permutation keyed).
    rewrite last_lookup in E. by eapply list_elem_of_lookup_2. }
  destruct (Hall _ Hkm1) as (c1 & Hc1 & Hf1).
  destruct (Hall _ Hkm2) as (c2 & Hc2 & Hf2). simpl in *.
  exists c1, f1, c2, f2. split_and!; [|done..|].
  - by rewrite <-Hframe1.
  - apply (ascending_last (keyed.*1) (sort_by_key keyed) (f1, best1) (f2, best2));
      [done| |by apply sort_by_key_ascending|done|].
    + intros z Hz. rewrite (sort_by_key_Permutation keyed) in Hz.
      by apply list_elem_of_fmap_2.
    + by rewrite (sort_by_key_Permutation keyed).
Qed.

End elitism.

Lemma example_two_steps :
  ∃ best1 pop1 w1 best2 pop2 w2 keyed,
    generate_next_generation (AR := float_arith) (GL := source_globals)
      example_position example_population "ox" "swap" example_world
      = (Ok (best1, pop1), w1) ∧
    generate_next_generation (AR := float_arith) (GL := source_globals)
      example_position pop1 "ox" "swap" w1 = (Ok (best2, pop2), w2) ∧
    with_keys (AR := float_arith) example_position (members pop1) w1
      = (Ok keyed, w1) ∧
    keys_ordered (AR := float_arith) (keyed.*1) = true.
Proof.
  eexists _, _, _, _, _, _, _.
  split; [vm_compute; reflexivity|].
  split; [vm_compute; reflexivity|].
  split; vm_compute; reflexivity.
Qed.

Lemma best_fitness_never_decreases_witness :
  ∃ best1 pop1 w1 best2 pop2 w2 c1 f1 c2 f2,
    generate_next_generation (AR := float_arith) (GL := source_globals)
      example_position example_population "ox" "swap" example_world
      = (Ok (best1, pop1), w1) ∧
    generate_next_generation (AR := float_arith) (GL := source_globals)
      example_position pop1 "ox" "swap" w1 = (Ok (best2, pop2), w2) ∧
    genomes example_world !! best1 = Some c1 ∧
    get_fitness (AR := float_arith) example_position c1 = Ok f1 ∧
    genomes w1 !! best2 = Some c2 ∧
    get_fitness (AR := float_arith) example_position c2 = Ok f2 ∧
    PrimFloat.ltb f2 f1 = false.
Proof.
  destruct example_two_steps
    as (best1 & pop1 & w1 & best2 & pop2 & w2 & keyed & H1 & H2 & H3 & H4).
  destruct (best_fitness_never_decreases (AR := float_arith)
              (GL := source_globals) example_position example_population
              "ox" "swap" example_world w1 w2 best1 best2 pop1 pop2 keyed
              ltac:(simpl; lia) H1 H2 H3 H4)
    as (c1 & f1 & c2 & f2 & H).
  exists best1, pop1, w1, best2, pop2, w2, c1, f1, c2, f2.
  exact (conj H1 (conj H2 H)).
Defined.

(** ** Kinds that do not exist, in a generation step *)

Lemma range_step2_cons (n : Z) :
  (2 ≤ n)%Z → ∃ rest, range_step2 n = 0 :: rest.
Proof.
  intros Hn. unfold range_step2.
  assert (1 ≤ (n + 1) / 2)%Z as Hk by (apply Z.div_le_lower_bound; lia).
  destruct (Z.to_nat ((n + 1) / 2)) as [|k] eqn:E; [lia|].
  simpl. by eexists.
Qed.

Section selected.
Context {AR : Arith} {GL : Globals}.
Variable position : City → num * num.

(** The selection of a step returns, for a population with a member
    whose fitness table exists and a count [TOP_K] that is not
    negative. *)
Lemma top_k_selection_total (self : Population) (n : Z) (w : world)
    (keyed : list (num * Genome)) :
  members self ≠ [] →
  with_keys position (members self) w = (Ok keyed, w) →
  (0 ≤ TOP_K)%Z →
  ∃ parents w1,
    top_k_selection position self n TOP_K w = (Ok parents, w1) ∧
    genomes w1 = genomes w ∧ length parents = Z.to_nat n ∧
    ∀ p, p ∈ parents → p ∈ members self.
Proof.
  intros Hne Hkeys Htop.
  pose proof (with_keys_Ok _ _ _ _ _ Hkeys) as [Hk2 Hall].
  set (ranked := (sort_by_key keyed).*2).
  assert (ranked ≡ₚ members self) as Hranked.
  { unfold ranked. by rewrite (sort_by_key_Permutation keyed), Hk2. }
  assert (sort_members position self w = (Ok ranked, w)) as Hsort.
  { unfold sort_members. by erewrite M_bind_run. }
  set (top_k := py_slice_from ranked (- TOP_K)).
  assert (top_k ≠ []) as Htne.
  { unfold top_k, py_slice_from.
    assert (∀ k, k < length ranked → drop k ranked ≠ []) as Hdrop.
    { intros k Hk E. apply (f_equal length) in E.
      rewrite length_drop in E. simpl in E. lia. }
    assert (0 < length ranked).
    { rewrite (Permutation_length Hranked).
      destruct (members self); [done|simpl; lia]. }
    destruct (- TOP_K <? 0)%Z eqn:E; apply Hdrop; lia. }
  destruct (choices_loop_total top_k (Z.to_nat n) w Htne) as (parents & w1 & Hch).
  pose proof (choices_loop_Ok _ _ _ _ _ Hch) as (Hg1 & Hplen & Hpin).
  exists parents, w1. split_and!; [|done..|].
  - unfold top_k_selection. by erewrite M_bind_run.
  - intros p Hp%Hpin%elem_of_py_slice_from. by rewrite <-Hranked.
Qed.

(** A step with a crossover kind that does not exist, and parents for
    one pair at least: [crossover] returns [None], and unpacking it into
    the two children is a [TypeError]. No genome is created. *)
Theorem generation_unknown_crossover (self : Population) (c_type m_type : string)
    (w : world) (keyed : list (num * Genome)) :
  c_type ∉ ["ox"; "pmx"; "cx"] →
  members self ≠ [] →
  with_keys position (members self) w = (Ok keyed, w) →
  (0 ≤ TOP_K)%Z → (2 ≤ size self - ELITISM)%Z →
  ∃ w',
    generate_next_generation position self c_type m_type w
      = (Raise TypeError, w') ∧
    genomes w' = genomes w.
Proof.
  intros Hct Hne Hkeys Htop Hn.
  destruct (top_k_selection_total self (size self - ELITISM) w keyed)
    as (parents & w1 & Hsel & Hg1 & Hlen & _); [done..|].
  destruct (range_step2_cons _ Hn) as [rest Hrange].
  destruct (lookup_lt_is_Some_2 parents 0) as [p1 Hp1]; [lia|].
  destruct (lookup_lt_is_Some_2 parents 1) as [p2 Hp2]; [lia|].
  exists w1. split; [|done]. unfold generate_next_generation.
  erewrite M_bind_run; [|exact Hsel]. apply M_bind_raise.
  rewrite Hrange. cbn [breed].
  erewrite M_bind_run; [|by apply lift_Ok, (conj (getitem_Some _ _ _ Hp1))].
  erewrite M_bind_run; [|by apply lift_Ok, (conj (getitem_Some _ _ _ Hp2))].
  rewrite !elem_of_cons, elem_of_nil in Hct.
  erewrite M_bind_run; cycle 1.
  { unfold crossover. rewrite !decide_False by naive_solver. reflexivity. }
  reflexivity.
Qed.

Variable cities : list City.
Hypothesis cities_NoDup : NoDup cities.
Hypothesis cities_two : 2 ≤ length cities.


End selected.

Lemma generation_unknown_crossover_witness :
  ∃ w',
    generate_next_generation (AR := float_arith) (GL := source_globals)
      example_position example_population "order" "swap" example_world
      = (Raise TypeError, w') ∧
    genomes w' = genomes example_world.
Proof.
  destruct example_keys_ordered as (keyed & Hkeys & _).
  apply (generation_unknown_crossover (AR := float_arith) (GL := source_globals)
           example_position example_population "order" "swap" example_world keyed).
  - apply (bool_decide_unpack _). vm_compute. exact I.
  - discriminate.
  - exact Hkeys.
  - vm_compute. discriminate.
  - vm_compute. discriminate.
Defined.


(** ** From the constructor to the first step *)

Section fresh.
Context {AR : Arith} {GL : Globals}.
Variable position : City → num * num.
Variable cities : list City.
Hypothesis cities_NoDup : NoDup cities.
Hypothesis cities_two : 2 ≤ length cities.
Hypothesis fitness_defined :
  ∀ c, c ≡ₚ chromosome_of cities → ∃ f, get_fitness position c = Ok f.



End fresh.


